(** * dino_conv3d: the multi-frame view pipeline and the distillation loss

    A shallow embedding of [main_dino.py]: the frame splitter and the three
    branch transforms of [Global_transfo] (Python lists live in a store, so
    that aliasing between the caller's list and the branch's copy is
    visible), [DataAugmentationDINO.__call__], [DINOLoss], and of the
    training loop the schedules, the teacher update and the checkpoints.

    Pixel bands are integers in 0..255, tensor entries of the image pipeline
    are rationals (the arithmetic of [ToTensor] and [Normalize] is exact
    there), the loss is stated over the reals. *)

From Stdlib Require Import ZArith QArith Qround Reals Lqa Lra Lia List Ascii String.
From Stdlib Require DecimalNat DecimalString.
From stdpp Require Import base option list gmap strings.
Import ListNotations.

Close Scope Q_scope.
Local Open Scope Z_scope.

(** ** PIL images *)

Definition pixel : Type := Z * Z * Z.

Definition black : pixel := (0, 0, 0).

(** [im_size] is PIL's [Image.size], that is (width, height); [getpixel x y]
    is meaningful for [0 <= x < width] and [0 <= y < height]. *)
Record Image := mkImage {
  im_size : Z * Z;
  getpixel : Z -> Z -> pixel
}.

Definition im_width (im : Image) : Z := fst (im_size im).
Definition im_height (im : Image) : Z := snd (im_size im).

Definition inside (im : Image) (x y : Z) : bool :=
  (0 <=? x) && (x <? im_width im) && (0 <=? y) && (y <? im_height im).

(** [Image.crop(box)] with [box = (left, upper, right, lower)]: the result has
    size (right - left, lower - upper); whatever lies outside the source is
    filled with zeros. *)
Definition PIL_crop (im : Image) (box : Z * Z * Z * Z) : Image :=
  let '(x0, y0, x1, y1) := box in
  {| im_size := (x1 - x0, y1 - y0);
     getpixel := fun x y =>
       if inside im (x0 + x) (y0 + y) then getpixel im (x0 + x) (y0 + y)
       else black |}.

(** [torchvision.transforms.functional.crop(img, top, left, height, width)]. *)
Definition TF_crop (img : Image) (top left height width : Z) : Image :=
  PIL_crop img (left, top, left + width, top + height).

(** [TF.hflip] and [TF.vflip]: PIL's FLIP_LEFT_RIGHT and FLIP_TOP_BOTTOM. *)
Definition TF_hflip (img : Image) : Image :=
  {| im_size := im_size img;
     getpixel := fun x y => getpixel img (im_width img - 1 - x) y |}.

Definition TF_vflip (img : Image) : Image :=
  {| im_size := im_size img;
     getpixel := fun x y => getpixel img x (im_height img - 1 - y) |}.

(** The saturating store of PIL's channel operations. *)
Definition clip8 (v : Z) : Z :=
  if v <=? 0 then 0 else if 255 <=? v then 255 else v.

(** The C cast of a float to [int] truncates towards zero. *)
Definition Qtrunc (q : Q) : Z :=
  if Qle_bool 0 q then Qfloor q else Qceiling q.

(** One band of [ImageChops.subtract]:
    [((int)in1 - (int)in2) / scale + offset], stored saturating. *)
Definition chop_subtract (scale : Q) (offset : Z) (a b : Z) : Z :=
  clip8 (Qtrunc (inject_Z (a - b) / scale + inject_Z offset)%Q).

Definition map_bands2 (f : Z -> Z -> Z) (p q : pixel) : pixel :=
  let '(r1, g1, b1) := p in
  let '(r2, g2, b2) := q in
  (f r1 r2, f g1 g2, f b1 b2).

Definition map_bands (f : Z -> Z) (p : pixel) : pixel :=
  let '(r, g, b) := p in (f r, f g, f b).

(** [ImageChops.subtract(image1, image2, scale, offset)]; the result covers
    the common extent of the two operands. *)
Definition ImageChops_subtract (image1 image2 : Image) (scale : Q) (offset : Z)
  : Image :=
  {| im_size := (Z.min (im_width image1) (im_width image2),
                 Z.min (im_height image1) (im_height image2));
     getpixel := fun x y =>
       map_bands2 (chop_subtract scale offset)
                  (getpixel image1 x y) (getpixel image2 x y) |}.

(** [ImageOps.solarize(img)] with its default threshold 128. *)
Definition ImageOps_solarize (img : Image) : Image :=
  {| im_size := im_size img;
     getpixel := fun x y =>
       map_bands (fun v => if v <? 128 then v else 255 - v) (getpixel img x y) |}.

(** ** Frame splitting *)

(** Python's [range(start, stop, step)] for a positive [step]. *)
Definition py_range (start stop step : Z) : list Z :=
  let n := if stop <=? start then 0 else (stop - start - 1) / step + 1 in
  map (fun k => start + Z.of_nat k * step) (seq 0 (Z.to_nat n)).

(** How many tiles of extent [step] a side of extent [n] takes: the length
    of [py_range 0 n step]. *)
Definition tile_count (n step : Z) : Z :=
  if n <=? 0 then 0 else (n - 1) / step + 1.

(** The local function [crop] of [DataAugmentationDINO.__call__]; the loop
    state is the pair of the counter [k] and the list [out].  [crop_row] is
    the inner loop, over [j], at a fixed [i]. *)
Definition crop_row (im : Image) (height width i : Z) (js : list Z)
    (st : Z * list Image) : Z * list Image :=
  fold_left (fun '(k, out) j =>
      let box := (j, i, j + width, i + height) in
      (k + 1, out ++ [PIL_crop im box])) js st.

Definition crop (im : Image) (height width : Z) : list Image :=
  let '(imgwidth, imgheight) := im_size im in
  let '(k, out) :=
    fold_left (fun st i => crop_row im height width i (py_range 0 imgwidth width) st)
              (py_range 0 imgheight height) (0, []) in
  out.

(** The boxes [crop] cuts, in the order it cuts them. *)
Definition crop_boxes (im : Image) (height width : Z) : list (Z * Z * Z * Z) :=
  flat_map (fun i => map (fun j => (j, i, j + width, i + height))
                         (py_range 0 (im_width im) width))
           (py_range 0 (im_height im) height).

(** ** Tensors *)

(** A tensor is its shape and its entries; [item t idx] is meaningful for an
    index inside the shape. *)
Record Tensor := mkTensor {
  shape : list Z;
  item : list Z -> Q
}.

Inductive exn :=
  IndexError | TypeError | ValueError | RuntimeError | ZeroDivisionError.

Inductive Res (A : Type) : Type :=
| Ok (a : A)
| Raise (e : exn).
Arguments Ok {A} a.
Arguments Raise {A} e.

Definition band (c : Z) (p : pixel) : Z :=
  let '(r, g, b) := p in
  if c =? 0 then r else if c =? 1 then g else b.

(** [transforms.ToTensor] on an RGB image: shape (3, H, W), bytes scaled to
    [0, 1]. *)
Definition ToTensor (pic : Image) : Tensor :=
  {| shape := [3; im_height pic; im_width pic];
     item := fun idx =>
       match idx with
       | [c; y; x] => (inject_Z (band c (getpixel pic x y)) / 255)%Q
       | _ => 0%Q
       end |}.

(** [transforms.Normalize(mean, std)] on a (C, H, W) tensor: entry by entry,
    [(t - mean[c]) / std[c]]. *)
Definition normalize_entries (mean std : list Q) (t : Tensor) : Tensor :=
  {| shape := shape t;
     item := fun idx =>
       match idx with
       | ch :: _ =>
           ((item t idx - nth (Z.to_nat ch) mean 0) / nth (Z.to_nat ch) std 1)%Q
       | [] => 0%Q
       end |}.

Definition Normalize (mean std : list Q) (t : Tensor) : Res Tensor :=
  match shape t with
  | [c; _; _] =>
      if decide (c = Z.of_nat (length mean) ∧ c = Z.of_nat (length std))
      then Ok (normalize_entries mean std t)
      else Raise RuntimeError
  | _ => Raise ValueError
  end.

(** The indexing [t[0:, None, :]]: a new axis of extent 1 at position 1. *)
Definition index_newaxis1 (t : Tensor) : Res Tensor :=
  match shape t with
  | c :: d :: rest =>
      Ok {| shape := c :: 1 :: d :: rest;
            item := fun idx =>
              match idx with
              | c0 :: _ :: r => item t (c0 :: r)
              | _ => 0%Q
              end |}
  | _ => Raise IndexError
  end.

(** [torch.cat((a, b), 1)]: the operands agree on every axis but axis 1. *)
Definition torch_cat1 (a b : Tensor) : Res Tensor :=
  match shape a, shape b with
  | ca :: da :: ra, cb :: db :: rb =>
      if decide (ca = cb ∧ ra = rb) then
        Ok {| shape := ca :: (da + db) :: ra;
              item := fun idx =>
                match idx with
                | c0 :: d :: r =>
                    if d <? da then item a idx else item b (c0 :: (d - da) :: r)
                | _ => 0%Q
                end |}
      else Raise RuntimeError
  | _, _ => Raise RuntimeError
  end.

(** ** [ColorJitter] *)

(** [ColorJitter._check_input] for a number [value]; [bound] is
    [(lo, Some hi)], or [(lo, None)] for an upper bound of infinity. *)
Definition check_input (value center : Q) (bound : Q * option Q)
    (clip_first_on_zero : bool) : Res (option (Q * Q)) :=
  if negb (Qle_bool 0 value) then Raise ValueError else
  let v0 := (center - value)%Q in
  let v1 := (center + value)%Q in
  let v0 := if clip_first_on_zero then (if Qle_bool 0 v0 then v0 else 0%Q) else v0 in
  if negb (Qle_bool (fst bound) v0 && Qle_bool v0 v1 &&
           match snd bound with Some hi => Qle_bool v1 hi | None => true end)
  then Raise ValueError
  else if Qeq_bool v0 v1 && Qeq_bool v1 center then Ok None
  else Ok (Some (v0, v1)).

Record ColorJitter := mkColorJitter {
  brightness : option (Q * Q);
  contrast : option (Q * Q);
  saturation : option (Q * Q);
  hue : option (Q * Q)
}.

Definition res_bind {A B} (r : Res A) (f : A -> Res B) : Res B :=
  match r with Ok a => f a | Raise e => Raise e end.

(** [ColorJitter.__init__]. *)
Definition ColorJitter_init (brightness contrast saturation hue : Q)
  : Res ColorJitter :=
  res_bind (check_input brightness 1 (0%Q, None) true) (fun b =>
  res_bind (check_input contrast 1 (0%Q, None) true) (fun c =>
  res_bind (check_input saturation 1 (0%Q, None) true) (fun s =>
  res_bind (check_input hue 0 ((-0.5)%Q, Some 0.5%Q) false) (fun h =>
  Ok (mkColorJitter b c s h))))).

(** ** What the program takes from PIL, torch, torchvision and [random] *)

Class Externals := {
  (** The state of the random generators. *)
  Rng : Type;
  (** [random.random()] and [random.randint(a, b)]. *)
  random_random : Rng -> Q * Rng;
  random_randint : Z -> Z -> Rng -> Z * Rng;
  (** [RandomResizedCrop.get_params(img, scale, ratio)], giving (i, j, h, w). *)
  RandomResizedCrop_get_params :
    Image -> Q * Q -> Q * Q -> Rng -> (Z * Z * Z * Z) * Rng;
  (** [torch.randperm(n)] and [float(torch.empty(1).uniform_(lo, hi))]. *)
  torch_randperm : nat -> Rng -> list nat * Rng;
  torch_uniform : Q -> Q -> Rng -> Q * Rng;
  (** [Image.resize(size)]. *)
  PIL_resize : Image -> Z * Z -> Image;
  (** [TF.adjust_brightness] and its three siblings. *)
  adjust_brightness : Image -> Q -> Image;
  adjust_contrast : Image -> Q -> Image;
  adjust_saturation : Image -> Q -> Image;
  adjust_hue : Image -> Q -> Image;
  (** The radius the blur picks, given the [p] it was built with, and
      [img.filter(ImageFilter.GaussianBlur(radius))]. *)
  GaussianBlur_radius : Q -> Rng -> Q * Rng;
  ImageFilter_GaussianBlur : Q -> Image -> Image;

  PIL_resize_size : forall im s, im_size (PIL_resize im s) = s;
  adjust_brightness_size : forall im f, im_size (adjust_brightness im f) = im_size im;
  adjust_contrast_size : forall im f, im_size (adjust_contrast im f) = im_size im;
  adjust_saturation_size : forall im f, im_size (adjust_saturation im f) = im_size im;
  adjust_hue_size : forall im f, im_size (adjust_hue im f) = im_size im;
  GaussianBlur_size : forall r im, im_size (ImageFilter_GaussianBlur r im) = im_size im;
  torch_randperm_perm : forall n r, Permutation (fst (torch_randperm n r)) (seq 0 n);
  torch_uniform_range : forall lo hi r,
    (lo <= hi)%Q -> (lo <= fst (torch_uniform lo hi r) <= hi)%Q
}.

Section Program.
Context `{Externals}.

(** [ColorJitter.get_params]: the order of the operations, then one factor
    for each operation whose range is set. *)
Definition sample_factor (range : option (Q * Q)) (r : Rng) : option Q * Rng :=
  match range with
  | None => (None, r)
  | Some (lo, hi) => let '(v, r) := torch_uniform lo hi r in (Some v, r)
  end.

Definition JitterParams : Type :=
  list nat * option Q * option Q * option Q * option Q.

Definition ColorJitter_get_params (brightness contrast saturation hue : option (Q * Q))
    (r : Rng) : JitterParams * Rng :=
  let '(fn_idx, r) := torch_randperm 4 r in
  let '(b, r) := sample_factor brightness r in
  let '(c, r) := sample_factor contrast r in
  let '(s, r) := sample_factor saturation r in
  let '(h, r) := sample_factor hue r in
  ((fn_idx, b, c, s, h), r).

(** ** The store, and the monad of the program *)

(** A Python list holds PIL images and, later, tensors. *)
Inductive obj :=
| PILImage (im : Image)
| TorchTensor (t : Tensor).

Definition loc := nat.

Record World := mkWorld {
  heap : gmap loc (list obj);
  rng : Rng;
  stdout : list string
}.

Definition set_heap (h : gmap loc (list obj)) (w : World) : World :=
  {| heap := h; rng := rng w; stdout := stdout w |}.
Definition set_rng (r : Rng) (w : World) : World :=
  {| heap := heap w; rng := r; stdout := stdout w |}.
Definition set_stdout (o : list string) (w : World) : World :=
  {| heap := heap w; rng := rng w; stdout := o |}.

Definition M (A : Type) : Type := World -> Res A * World.

#[global] Instance M_ret : MRet M := fun A a w => (Ok a, w).
#[global] Instance M_bind : MBind M := fun A B f m w =>
  match m w with
  | (Ok a, w') => f a w'
  | (Raise e, w') => (Raise e, w')
  end.

Definition lift {A} (r : Res A) : M A := fun w => (r, w).
Definition draw {A} (f : Rng -> A * Rng) : M A := fun w =>
  let '(a, r) := f (rng w) in (Ok a, set_rng r w).
Definition print (s : string) : M unit := fun w =>
  (Ok tt, set_stdout (stdout w ++ [s]) w).

(** A loop over [xs] whose body updates the local variables [s]. *)
Fixpoint for_each {A S} (xs : list A) (body : A -> S -> M S) (s : S) : M S :=
  match xs with
  | [] => mret s
  | x :: xs' => s' ← body x s; for_each xs' body s'
  end.

(** [for i in range(lo, hi)] with no local variable carried around. *)
Definition for_range (lo hi : nat) (body : nat -> M unit) : M unit :=
  for_each (seq lo (hi - lo)) (fun i _ => body i) tt.

(** List objects. *)
Definition list_read (l : loc) : M (list obj) := fun w =>
  match heap w !! l with
  | Some xs => (Ok xs, w)
  | None => (Raise RuntimeError, w)
  end.
Definition list_write (l : loc) (xs : list obj) : M unit := fun w =>
  (Ok tt, set_heap (<[l := xs]> (heap w)) w).
Definition list_new (xs : list obj) : M loc := fun w =>
  let l := fresh (dom (heap w)) in
  (Ok l, set_heap (<[l := xs]> (heap w)) w).
Definition list_copy (l : loc) : M loc :=
  xs ← list_read l; list_new xs.
Definition list_len (l : loc) : M nat :=
  xs ← list_read l; mret (length xs).
Definition list_getitem (l : loc) (i : nat) : M obj :=
  xs ← list_read l;
  match xs !! i with
  | Some v => mret v
  | None => lift (Raise IndexError)
  end.
Definition list_setitem (l : loc) (i : nat) (v : obj) : M unit :=
  xs ← list_read l;
  if decide (i < length xs)%nat then list_write l (<[i := v]> xs)
  else lift (Raise IndexError).
Definition list_append (l : loc) (v : obj) : M unit :=
  xs ← list_read l; list_write l (xs ++ [v]).

Definition as_image (v : obj) : Res Image :=
  match v with PILImage im => Ok im | TorchTensor _ => Raise TypeError end.
Definition as_tensor (v : obj) : Res Tensor :=
  match v with TorchTensor t => Ok t | PILImage _ => Raise TypeError end.

(** The statement [l[i] = f(l[i])]. *)
Definition slot_update (l : loc) (f : obj -> Res obj) (i : nat) : M unit :=
  v ← list_getitem l i; v' ← lift (f v); list_setitem l i v'.

Definition on_image (f : Image -> Image) (v : obj) : Res obj :=
  res_bind (as_image v) (fun im => Ok (PILImage (f im))).
Definition image_to_tensor (f : Image -> Tensor) (v : obj) : Res obj :=
  res_bind (as_image v) (fun im => Ok (TorchTensor (f im))).
Definition on_tensor (f : Tensor -> Res Tensor) (v : obj) : Res obj :=
  res_bind (as_tensor v) (fun t => res_bind (f t) (fun t' => Ok (TorchTensor t'))).

Fixpoint mapM_res {A B} (f : A -> Res B) (xs : list A) : Res (list B) :=
  match xs with
  | [] => Ok []
  | x :: xs' =>
      res_bind (f x) (fun y => res_bind (mapM_res f xs') (fun ys => Ok (y :: ys)))
  end.

(** Modelled from the spec: [utils.GaussianBlur(do_it, p)(images)], which is
    not part of the sources at hand.  When [do_it] holds, one radius is
    picked and every frame of the list is blurred with it; the frames come
    back as a list.  Otherwise the list comes back as it is. *)
Definition utils_GaussianBlur (do_it : bool) (p : Q) (images : loc) : M loc :=
  if do_it then
    radius ← draw (GaussianBlur_radius p);
    xs ← list_read images;
    ys ← lift (mapM_res (on_image (ImageFilter_GaussianBlur radius)) xs);
    list_new ys
  else mret images.

(** Modelled from the spec: [utils.Solarization(do_it)(images)], which is not
    part of the sources at hand.  When [do_it] holds every frame is
    solarized at the fixed threshold. *)
Definition utils_Solarization (do_it : bool) (images : loc) : M loc :=
  if do_it then
    xs ← list_read images;
    ys ← lift (mapM_res (on_image ImageOps_solarize) xs);
    list_new ys
  else mret images.

(** The inner loop of the jitter, [for fn_id in fn_idx], on one frame. *)
Definition jitter_frame (jp : JitterParams) (img : Image) : Image :=
  let '(fn_idx, brightness_factor, contrast_factor, saturation_factor, hue_factor) := jp in
  fold_left (fun img fn_id =>
    match fn_id, brightness_factor with
    | 0%nat, Some f => adjust_brightness img f
    | _, _ =>
    match fn_id, contrast_factor with
    | 1%nat, Some f => adjust_contrast img f
    | _, _ =>
    match fn_id, saturation_factor with
    | 2%nat, Some f => adjust_saturation img f
    | _, _ =>
    match fn_id, hue_factor with
    | 3%nat, Some f => adjust_hue img f
    | _, _ => img
    end end end end) fn_idx img.

Definition imagenet_mean : list Q := [0.485; 0.456; 0.406]%Q.
Definition imagenet_std : list Q := [0.229; 0.224; 0.225]%Q.
Definition zero_mean : list Q := [0; 0; 0]%Q.

(** ** [Global_transfo]: the three branch transforms *)

Definition transfo2 (inp_images : loc) (global_crops_scale : Q * Q) : M Tensor :=
  images ← list_copy inp_images;
  image_diff ← list_new [];
  (* Random crop *)
  first ← list_getitem images 0;
  first ← lift (as_image first);
  '(i, j, h, w) ← draw (RandomResizedCrop_get_params first global_crops_scale (0.999, 1.001)%Q);
  n ← list_len images;
  for_range 0 n (slot_update images (on_image (fun im =>
    let img_c := TF_crop im i j h w in
    PIL_resize img_c (224, 224))));;
  n ← list_len images;
  for_range 0 (n - 1) (fun i =>
    a ← list_getitem images i;
    a ← lift (as_image a);
    b ← list_getitem images (i + 1);
    b ← lift (as_image b);
    list_append image_diff (PILImage (ImageChops_subtract a b 1 2)));;
  (* Random horizontal flipping *)
  u ← draw random_random;
  (if negb (Qle_bool u 0.5) then
     n ← list_len images;
     for_range 0 n (slot_update images (on_image TF_hflip))
   else mret tt);;
  (* Random vertical flipping *)
  u ← draw random_random;
  (if negb (Qle_bool u 0.5) then
     n ← list_len images;
     for_range 0 n (slot_update images (on_image TF_vflip))
   else mret tt);;
  (* jitter *)
  color_jitter ← lift (ColorJitter_init 0.4 0.4 0.2 0.1);
  jp ← draw (ColorJitter_get_params (brightness color_jitter) (contrast color_jitter)
                                    (saturation color_jitter) (hue color_jitter));
  n ← list_len images;
  for_range 0 n (slot_update images (on_image (jitter_frame jp)));;
  p ← draw random_random;
  let do_it := if Qle_bool 0.1 p then true else false in
  images ← utils_GaussianBlur do_it p images;
  rnd ← draw (random_randint 1 100000);
  (* images solarization *)
  p ← draw random_random;
  let do_it := if Qle_bool 0.2 p then true else false in
  images ← utils_Solarization do_it images;
  (* to tensor *)
  n ← list_len images;
  for_range 0 n (slot_update images (image_to_tensor ToTensor));;
  (* normal *)
  n ← list_len images;
  for_range 0 n (slot_update images (on_tensor (Normalize imagenet_mean imagenet_std)));;
  (* diffs to tensor *)
  n ← list_len image_diff;
  for_range 0 n (slot_update image_diff (image_to_tensor ToTensor));;
  (* normalize diffs *)
  n ← list_len image_diff;
  for_range 0 n (slot_update image_diff (on_tensor (Normalize zero_mean imagenet_std)));;
  (* concat *)
  torchTensor ← list_getitem images 0;
  torchTensor ← lift (res_bind (as_tensor torchTensor) index_newaxis1);
  n ← list_len images;
  for_each (seq 1 (n - 1)) (fun i torchTensor =>
    a ← list_getitem images i;
    a ← lift (res_bind (as_tensor a) index_newaxis1);
    torchTensor ← lift (torch_cat1 a torchTensor);
    d ← list_getitem image_diff (i - 1);
    d ← lift (res_bind (as_tensor d) index_newaxis1);
    lift (torch_cat1 d torchTensor)) torchTensor.

Definition transfo1 (inp_images : loc) (global_crops_scale : Q * Q) : M Tensor :=
  images ← list_copy inp_images;
  image_diff ← list_new [];
  (* Random crop *)
  first ← list_getitem images 0;
  first ← lift (as_image first);
  '(i, j, h, w) ← draw (RandomResizedCrop_get_params first global_crops_scale (0.999, 1.001)%Q);
  n ← list_len images;
  for_range 0 n (slot_update images (on_image (fun im =>
    let img_c := TF_crop im i j h w in
    PIL_resize img_c (224, 224))));;
  n ← list_len images;
  for_range 0 (n - 1) (fun i =>
    a ← list_getitem images i;
    a ← lift (as_image a);
    b ← list_getitem images (i + 1);
    b ← lift (as_image b);
    list_append image_diff (PILImage (ImageChops_subtract a b 1 2)));;
  (* Random horizontal flipping *)
  u ← draw random_random;
  (if negb (Qle_bool u 0.5) then
     n ← list_len images;
     for_range 0 n (slot_update images (on_image TF_hflip))
   else mret tt);;
  (* Random vertical flipping *)
  u ← draw random_random;
  (if negb (Qle_bool u 0.5) then
     n ← list_len images;
     for_range 0 n (slot_update images (on_image TF_vflip))
   else mret tt);;
  (* jitter *)
  color_jitter ← lift (ColorJitter_init 0.4 0.4 0.2 0.1);
  jp ← draw (ColorJitter_get_params (brightness color_jitter) (contrast color_jitter)
                                    (saturation color_jitter) (hue color_jitter));
  n ← list_len images;
  for_range 0 n (slot_update images (on_image (jitter_frame jp)));;
  p ← draw random_random;
  let do_it := if Qle_bool 0.5 p then true else false in
  images ← utils_GaussianBlur do_it p images;
  rnd ← draw (random_randint 1 100000);
  (* to tensor *)
  n ← list_len images;
  for_range 0 n (slot_update images (image_to_tensor ToTensor));;
  (* normal *)
  n ← list_len images;
  for_range 0 n (slot_update images (on_tensor (Normalize imagenet_mean imagenet_std)));;
  (* diffs to tensor *)
  n ← list_len image_diff;
  for_range 0 n (slot_update image_diff (image_to_tensor ToTensor));;
  (* normalize diffs *)
  n ← list_len image_diff;
  for_range 0 n (slot_update image_diff (on_tensor (Normalize zero_mean imagenet_std)));;
  (* concat *)
  torchTensor ← list_getitem images 0;
  torchTensor ← lift (res_bind (as_tensor torchTensor) index_newaxis1);
  n ← list_len images;
  for_each (seq 1 (n - 1)) (fun i torchTensor =>
    a ← list_getitem images i;
    a ← lift (res_bind (as_tensor a) index_newaxis1);
    torchTensor ← lift (torch_cat1 a torchTensor);
    d ← list_getitem image_diff (i - 1);
    d ← lift (res_bind (as_tensor d) index_newaxis1);
    lift (torch_cat1 d torchTensor)) torchTensor.

Definition local_transfo (inp_images : loc) (local_crops_scale : Q * Q) : M Tensor :=
  images ← list_copy inp_images;
  image_diff ← list_new [];
  (* Random crop *)
  first ← list_getitem images 0;
  first ← lift (as_image first);
  '(i, j, h, w) ← draw (RandomResizedCrop_get_params first local_crops_scale (0.999, 1.001)%Q);
  n ← list_len images;
  for_range 0 n (slot_update images (on_image (fun im =>
    let img_c := TF_crop im i j h w in
    PIL_resize img_c (96, 96))));;
  n ← list_len images;
  for_range 0 (n - 1) (fun i =>
    a ← list_getitem images i;
    a ← lift (as_image a);
    b ← list_getitem images (i + 1);
    b ← lift (as_image b);
    list_append image_diff (PILImage (ImageChops_subtract a b 1 2)));;
  (* Random horizontal flipping *)
  u ← draw random_random;
  (if negb (Qle_bool u 0.5) then
     n ← list_len images;
     for_range 0 n (slot_update images (on_image TF_hflip))
   else mret tt);;
  (* Random vertical flipping *)
  u ← draw random_random;
  (if negb (Qle_bool u 0.5) then
     n ← list_len images;
     for_range 0 n (slot_update images (on_image TF_vflip))
   else mret tt);;
  (* jitter *)
  color_jitter ← lift (ColorJitter_init 0.4 0.4 0.2 0.1);
  jp ← draw (ColorJitter_get_params (brightness color_jitter) (contrast color_jitter)
                                    (saturation color_jitter) (hue color_jitter));
  n ← list_len images;
  for_range 0 n (slot_update images (on_image (jitter_frame jp)));;
  p ← draw random_random;
  let do_it := if Qle_bool 0.5 p then true else false in
  images ← utils_GaussianBlur do_it p images;
  rnd ← draw (random_randint 1 100000);
  (* to tensor *)
  n ← list_len images;
  for_range 0 n (slot_update images (image_to_tensor ToTensor));;
  (* normal *)
  n ← list_len images;
  for_range 0 n (slot_update images (on_tensor (Normalize imagenet_mean imagenet_std)));;
  (* diffs to tensor *)
  n ← list_len image_diff;
  for_range 0 n (slot_update image_diff (image_to_tensor ToTensor));;
  (* normalize diffs *)
  n ← list_len image_diff;
  for_range 0 n (slot_update image_diff (on_tensor (Normalize zero_mean imagenet_std)));;
  (* concat *)
  torchTensor ← list_getitem images 0;
  torchTensor ← lift (res_bind (as_tensor torchTensor) index_newaxis1);
  n ← list_len images;
  for_each (seq 1 (n - 1)) (fun i torchTensor =>
    a ← list_getitem images i;
    a ← lift (res_bind (as_tensor a) index_newaxis1);
    torchTensor ← lift (torch_cat1 a torchTensor);
    d ← list_getitem image_diff (i - 1);
    d ← lift (res_bind (as_tensor d) index_newaxis1);
    lift (torch_cat1 d torchTensor)) torchTensor.

(** The three transforms are one pipeline under three policies: the side of
    the square the frames are resized to, the threshold of the blur gate
    and, for the second global branch only, the threshold of the
    solarization gate. *)
Record Policy := mkPolicy {
  target : Z;
  blur_threshold : Q;
  solarize_threshold : option Q
}.

Definition solarize_step {A} (sol : option Q) (images : loc) (k : loc -> M A) : M A :=
  match sol with
  | Some thr =>
      p ← draw random_random;
      let do_it := if Qle_bool thr p then true else false in
      images ← utils_Solarization do_it images;
      k images
  | None => k images
  end.

Definition branch (pol : Policy) (inp_images : loc) (crops_scale : Q * Q) : M Tensor :=
  images ← list_copy inp_images;
  image_diff ← list_new [];
  first ← list_getitem images 0;
  first ← lift (as_image first);
  '(i, j, h, w) ← draw (RandomResizedCrop_get_params first crops_scale (0.999, 1.001)%Q);
  n ← list_len images;
  for_range 0 n (slot_update images (on_image (fun im =>
    let img_c := TF_crop im i j h w in
    PIL_resize img_c (target pol, target pol))));;
  n ← list_len images;
  for_range 0 (n - 1) (fun i =>
    a ← list_getitem images i;
    a ← lift (as_image a);
    b ← list_getitem images (i + 1);
    b ← lift (as_image b);
    list_append image_diff (PILImage (ImageChops_subtract a b 1 2)));;
  u ← draw random_random;
  (if negb (Qle_bool u 0.5) then
     n ← list_len images;
     for_range 0 n (slot_update images (on_image TF_hflip))
   else mret tt);;
  u ← draw random_random;
  (if negb (Qle_bool u 0.5) then
     n ← list_len images;
     for_range 0 n (slot_update images (on_image TF_vflip))
   else mret tt);;
  color_jitter ← lift (ColorJitter_init 0.4 0.4 0.2 0.1);
  jp ← draw (ColorJitter_get_params (brightness color_jitter) (contrast color_jitter)
                                    (saturation color_jitter) (hue color_jitter));
  n ← list_len images;
  for_range 0 n (slot_update images (on_image (jitter_frame jp)));;
  p ← draw random_random;
  let do_it := if Qle_bool (blur_threshold pol) p then true else false in
  images ← utils_GaussianBlur do_it p images;
  rnd ← draw (random_randint 1 100000);
  solarize_step (solarize_threshold pol) images (fun images =>
  n ← list_len images;
  for_range 0 n (slot_update images (image_to_tensor ToTensor));;
  n ← list_len images;
  for_range 0 n (slot_update images (on_tensor (Normalize imagenet_mean imagenet_std)));;
  n ← list_len image_diff;
  for_range 0 n (slot_update image_diff (image_to_tensor ToTensor));;
  n ← list_len image_diff;
  for_range 0 n (slot_update image_diff (on_tensor (Normalize zero_mean imagenet_std)));;
  torchTensor ← list_getitem images 0;
  torchTensor ← lift (res_bind (as_tensor torchTensor) index_newaxis1);
  n ← list_len images;
  for_each (seq 1 (n - 1)) (fun i torchTensor =>
    a ← list_getitem images i;
    a ← lift (res_bind (as_tensor a) index_newaxis1);
    torchTensor ← lift (torch_cat1 a torchTensor);
    d ← list_getitem image_diff (i - 1);
    d ← lift (res_bind (as_tensor d) index_newaxis1);
    lift (torch_cat1 d torchTensor)) torchTensor).

Definition policy1 : Policy := mkPolicy 224 0.5 None.
Definition policy2 : Policy := mkPolicy 224 0.1 (Some 0.2%Q).
Definition policy_local : Policy := mkPolicy 96 0.5 None.

(** ** [DataAugmentationDINO]

    The fields [__call__] reads.  The constructor also stores a lock and
    builds three [transforms.Compose] pipelines ([global_transfo1],
    [global_transfo2], [local_transfo]); [__call__] uses none of them (the
    one call is commented out), so they are left out. *)

Record DataAugmentationDINO := mkDataAugmentationDINO {
  global_crops_scale : Q * Q;
  local_crops_scale : Q * Q;
  local_crops_number : Z
}.

(** The head of [__call__]: the check of the size, and the split of the
    composite into the list [images]. *)
Definition split_frames (image : Image) : M loc :=
  (if decide (im_size image ≠ (640, 1920)) then print "ERROR!" else mret tt);;
  list_new (PILImage <$> crop image 480 640).

(** [DataAugmentationDINO.__call__].  The counter [i] of the source only
    counts the slices of the two global views and is never read. *)
Definition DataAugmentationDINO_call (self : DataAugmentationDINO) (image : Image)
  : M (list Tensor) :=
  images ← split_frames image;
  let crops := [] in
  tf1 ← transfo1 images (global_crops_scale self);
  let i := 0 in
  let crops := crops ++ [tf1] in
  let i := i + hd 0 (shape tf1) in
  tf2 ← transfo2 images (global_crops_scale self);
  let crops := crops ++ [tf2] in
  let i := i + hd 0 (shape tf2) in
  crops ← for_each (seq 0 (Z.to_nat (local_crops_number self))) (fun _ crops =>
    tf_local ← local_transfo images (local_crops_scale self);
    mret (crops ++ [tf_local])) crops;
  mret crops.

(** ** The pipeline of a branch, stage by stage

    These functions describe what a branch computes; the theorems relate
    the transforms above to them. *)

(** The random values of one branch, in the order the branch draws them. *)
Record Draws := mkDraws {
  d_rect : Z * Z * Z * Z;
  d_hflip : Q;
  d_vflip : Q;
  d_jitter : JitterParams;
  d_blur : Q;
  d_radius : Q;
  d_solarize : Q;
  d_rng : Rng
}.

(** The ranges [ColorJitter(brightness=0.4, contrast=0.4, saturation=0.2,
    hue=0.1)] holds. *)
Definition color_jitter : ColorJitter :=
  Eval vm_compute in
    match ColorJitter_init 0.4 0.4 0.2 0.1 with
    | Ok cj => cj
    | Raise _ => mkColorJitter None None None None
    end.

Definition sample_draws (pol : Policy) (first : Image) (crops_scale : Q * Q)
    (r : Rng) : Draws :=
  let '(rect, r) := RandomResizedCrop_get_params first crops_scale (0.999, 1.001)%Q r in
  let '(uh, r) := random_random r in
  let '(uv, r) := random_random r in
  let '(jp, r) := ColorJitter_get_params (brightness color_jitter) (contrast color_jitter)
                    (saturation color_jitter) (hue color_jitter) r in
  let '(p, r) := random_random r in
  let '(radius, r) :=
    if Qle_bool (blur_threshold pol) p then GaussianBlur_radius p r else (0%Q, r) in
  let '(rnd, r) := random_randint 1 100000 r in
  let '(ps, r) :=
    match solarize_threshold pol with
    | Some _ => random_random r
    | None => (0%Q, r)
    end in
  mkDraws rect uh uv jp p radius ps r.

(** The crop of one frame at the sampled rectangle, resized to the target. *)
Definition crop_resize (pol : Policy) (rect : Z * Z * Z * Z) (im : Image) : Image :=
  let '(i, j, h, w) := rect in
  PIL_resize (TF_crop im i j h w) (target pol, target pol).

(** [diff[i] = subtract(frame[i], frame[i+1], scale=1.0, offset=2)]. *)
Fixpoint difference_images (frames : list Image) : list Image :=
  match frames with
  | a :: rest =>
      match rest with
      | b :: _ => ImageChops_subtract a b 1 2 :: difference_images rest
      | [] => []
      end
  | [] => []
  end.

Definition blur_gate (pol : Policy) (d : Draws) : bool :=
  Qle_bool (blur_threshold pol) (d_blur d).

Definition solarize_gate (pol : Policy) (d : Draws) : bool :=
  match solarize_threshold pol with
  | Some thr => Qle_bool thr (d_solarize d)
  | None => false
  end.

(** What the flips, the jitter, the blur and the solarization do to one
    frame, given the draws of the branch. *)
Definition photometric (pol : Policy) (d : Draws) (im : Image) : Image :=
  let im := if negb (Qle_bool (d_hflip d) 0.5) then TF_hflip im else im in
  let im := if negb (Qle_bool (d_vflip d) 0.5) then TF_vflip im else im in
  let im := jitter_frame (d_jitter d) im in
  let im := if blur_gate pol d then ImageFilter_GaussianBlur (d_radius d) im else im in
  if solarize_gate pol d then ImageOps_solarize im else im.

Definition frame_tensor (im : Image) : Tensor :=
  normalize_entries imagenet_mean imagenet_std (ToTensor im).
Definition diff_tensor (im : Image) : Tensor :=
  normalize_entries zero_mean imagenet_std (ToTensor im).

(** The slices of the view along axis 1, first to last, as the loop of the
    concatenation leaves them. *)
Definition push_pair (acc : list Tensor) (ad : Tensor * Tensor) : list Tensor :=
  let '(a, d) := ad in d :: a :: acc.

Definition view_slices (imgs diffs : list Tensor) : list Tensor :=
  match imgs with
  | [] => []
  | t0 :: rest => fold_left push_pair (zip rest diffs) [t0]
  end.

(** The bodies of the loop of the differences and of the loop of the
    concatenation, as the transforms have them. *)
Definition diff_body (images image_diff : loc) (i : nat) : M unit :=
  a ← list_getitem images i;
  a ← lift (as_image a);
  b ← list_getitem images (i + 1);
  b ← lift (as_image b);
  list_append image_diff (PILImage (ImageChops_subtract a b 1 2)).

Definition concat_body (images image_diff : loc) (i : nat) (torchTensor : Tensor)
  : M Tensor :=
  a ← list_getitem images i;
  a ← lift (res_bind (as_tensor a) index_newaxis1);
  torchTensor ← lift (torch_cat1 a torchTensor);
  d ← list_getitem image_diff (i - 1);
  d ← lift (res_bind (as_tensor d) index_newaxis1);
  lift (torch_cat1 d torchTensor).

(** [v] has shape [c :: length sl :: rest], and its slice [k] along axis 1
    is the tensor [k] of [sl]. *)
Definition stacked (v : Tensor) (sl : list Tensor) (c : Z) (rest : list Z) : Prop :=
  shape v = c :: Z.of_nat (length sl) :: rest ∧
  ∀ (k : nat) (t : Tensor), sl !! k = Some t →
    ∀ c0 r, item v (c0 :: Z.of_nat k :: r) = item t (c0 :: r).

(** The end of every transform, from the comment [# to tensor] on. *)
Definition to_view (image_diff images : loc) : M Tensor :=
  n ← list_len images;
  for_range 0 n (slot_update images (image_to_tensor ToTensor));;
  n ← list_len images;
  for_range 0 n (slot_update images (on_tensor (Normalize imagenet_mean imagenet_std)));;
  n ← list_len image_diff;
  for_range 0 n (slot_update image_diff (image_to_tensor ToTensor));;
  n ← list_len image_diff;
  for_range 0 n (slot_update image_diff (on_tensor (Normalize zero_mean imagenet_std)));;
  torchTensor ← list_getitem images 0;
  torchTensor ← lift (res_bind (as_tensor torchTensor) index_newaxis1);
  n ← list_len images;
  for_each (seq 1 (n - 1)) (concat_body images image_diff) torchTensor.

(** Where a branch stands in the middle of its run, started in [w0]: its
    two lists hold [xs] and [ds], both were allocated by the branch, and
    nothing that was in the store of [w0] has changed. *)
Record stage (w0 w : World) (images image_diff : loc) (xs ds : list obj)
    (r : Rng) : Prop := mkStage {
  st_images : heap w !! images = Some xs;
  st_diff : heap w !! image_diff = Some ds;
  st_ne : images ≠ image_diff;
  st_new_images : images ∉ dom (heap w0);
  st_new_diff : image_diff ∉ dom (heap w0);
  st_dom : dom (heap w0) ⊆ dom (heap w);
  st_same : ∀ l, l ∈ dom (heap w0) → heap w !! l = heap w0 !! l;
  st_rng : rng w = r;
  st_out : stdout w = stdout w0
}.

(** The caller's lists are as they were: every list of [w0] is still there
    in [w], with the same slots. *)
Definition lists_unchanged (w0 w : World) : Prop :=
  ∀ l, l ∈ dom (heap w0) → heap w !! l = heap w0 !! l.

End Program.

(** ** The three branches by name *)

Inductive Branch := Global1 | Global2 | Local.

Definition policy_of (b : Branch) : Policy :=
  match b with
  | Global1 => policy1
  | Global2 => policy2
  | Local => policy_local
  end.

Definition run_branch `{Externals} (b : Branch) : loc -> Q * Q -> M Tensor :=
  match b with
  | Global1 => transfo1
  | Global2 => transfo2
  | Local => local_transfo
  end.

(** One operation of the jitter, by its number in [fn_idx]. *)
Definition jitter_op `{Externals} (bf cf sf hf : Q) (img : Image) (fn_id : nat) : Image :=
  match fn_id with
  | 0%nat => adjust_brightness img bf
  | 1%nat => adjust_contrast img cf
  | 2%nat => adjust_saturation img sf
  | 3%nat => adjust_hue img hf
  | _ => img
  end.

(** The slice [k] of [v] along axis 1 is the tensor [t]. *)
Definition slice_is (v : Tensor) (k : nat) (t : Tensor) : Prop :=
  ∀ c0 r, item v (c0 :: Z.of_nat k :: r) = item t (c0 :: r).

(** The runs of [local_transfo] in the loop of [__call__]: each starts with
    the list [images] holding [frames]. *)
Inductive local_runs `{Externals} (images : loc) (scale : Q * Q) (frames : list obj)
  : World -> list Tensor -> World -> Prop :=
| local_runs_nil w : local_runs images scale frames w [] w
| local_runs_cons w v w1 vs w2 :
    heap w !! images = Some frames ->
    local_transfo images scale w = (Ok v, w1) ->
    local_runs images scale frames w1 vs w2 ->
    local_runs images scale frames w (v :: vs) w2.

(** The body of the loop over the local crops in [__call__]. *)
Definition local_loop_body `{Externals} (images : loc) (scale : Q * Q) (_ : nat)
    (crops : list Tensor) : M (list Tensor) :=
  tf_local ← local_transfo images scale;
  mret (crops ++ [tf_local]).

(** ** A small deterministic backend

    It stands in for the libraries when the program is run on a concrete
    input: the generator is a tape of rationals, read front to back; the
    crop is the whole frame; the resize takes the nearest pixel; brightness
    scales the bands; contrast, saturation, hue and the blur filter leave
    the frame as it is. *)

Definition tape_next (r : list Q) : Q * list Q :=
  match r with
  | [] => (0%Q, [])
  | q :: r' => (q, r')
  end.

Definition tape_uniform (lo hi : Q) (r : list Q) : Q * list Q :=
  let '(q, r') := tape_next r in
  (if Qle_bool lo q && Qle_bool q hi then q else lo, r').

Definition nearest_resize (im : Image) (s : Z * Z) : Image :=
  {| im_size := s;
     getpixel := fun x y =>
       getpixel im (x * im_width im / fst s) (y * im_height im / snd s) |}.

Definition scale_bands (im : Image) (f : Q) : Image :=
  {| im_size := im_size im;
     getpixel := fun x y =>
       map_bands (fun v => clip8 (Qfloor (inject_Z v * f)%Q)) (getpixel im x y) |}.

Lemma tape_uniform_range lo hi r :
  (lo <= hi)%Q -> (lo <= fst (tape_uniform lo hi r) <= hi)%Q.
Proof.
  intros Hle. unfold tape_uniform. destruct (tape_next r) as [q r']. cbn [fst].
  destruct (Qle_bool lo q) eqn:E1, (Qle_bool q hi) eqn:E2; cbn [andb];
    try (split; [apply Qle_refl | exact Hle]).
  split; now apply Qle_bool_iff.
Qed.

Definition reference_externals : Externals :=
  {| Rng := list Q;
     random_random := tape_next;
     random_randint := fun a _ r => (a, snd (tape_next r));
     RandomResizedCrop_get_params := fun img _ _ r =>
       ((0, 0, im_height img, im_width img), r);
     torch_randperm := fun n r => (seq 0 n, r);
     torch_uniform := tape_uniform;
     PIL_resize := nearest_resize;
     adjust_brightness := scale_bands;
     adjust_contrast := fun im _ => im;
     adjust_saturation := fun im _ => im;
     adjust_hue := fun im _ => im;
     GaussianBlur_radius := fun _ r => tape_next r;
     ImageFilter_GaussianBlur := fun _ im => im;
     PIL_resize_size := fun _ _ => eq_refl;
     adjust_brightness_size := fun _ _ => eq_refl;
     adjust_contrast_size := fun _ _ => eq_refl;
     adjust_saturation_size := fun _ _ => eq_refl;
     adjust_hue_size := fun _ _ => eq_refl;
     GaussianBlur_size := fun _ _ => eq_refl;
     torch_randperm_perm := fun n _ => Permutation_refl (seq 0 n);
     torch_uniform_range := tape_uniform_range |}.

(** A frame of one colour, and a composite whose pixels tell where they
    are. *)
Definition solid (w h : Z) (p : pixel) : Image :=
  {| im_size := (w, h); getpixel := fun _ _ => p |}.

Definition gradient (w h : Z) : Image :=
  {| im_size := (w, h); getpixel := fun x y => (x mod 256, y mod 256, (x + y) mod 256) |}.

Definition world_of (frames : list Image) (tape : list Q) : @World reference_externals :=
  @mkWorld reference_externals {[ 0%nat := PILImage <$> frames ]} tape [].

(** Two black frames of 2 x 2, and a tape: the two draws of the flips, the
    four factors of the jitter, the draw of the blur gate, and two more
    values. *)
Definition two_black : list Image := [solid 2 2 black; solid 2 2 black].

Definition tape_low : list Q := [0.25; 0.25; 1; 1; 0.7; 0; 0.25; 7; 9]%Q.

(** ** [DINOLoss]

    A 2-D tensor is the list of its rows; the entries are real numbers. *)

Definition Matrix : Type := list (list R).

Definition Rsum (l : list R) : R := fold_right Rplus 0%R l.

(** [t.mean()]. *)
Definition Rmean (l : list R) : R := (Rsum l / INR (length l))%R.

(** [F.softmax(row, dim=-1)] and [F.log_softmax(row, dim=-1)] on one row. *)
Definition softmax (row : list R) : list R :=
  List.map (fun x => (exp x / Rsum (List.map exp row))%R) row.

Definition log_softmax (row : list R) : list R :=
  List.map (fun x => (x - ln (Rsum (List.map exp row)))%R) row.

(** [torch.split(split_size)] along axis 0: [n] pieces of [split_size] rows,
    the last one with what is left. *)
Fixpoint split_rows {A} (n split_size : nat) (rows : list A) : list (list A) :=
  match n with
  | O => []
  | S n' => take split_size rows :: split_rows n' split_size (drop split_size rows)
  end.

Definition torch_split {A} (rows : list A) (split_size : nat) : list (list A) :=
  split_rows (Nat.max ((length rows + split_size - 1) / split_size) 1) split_size rows.

(** [t.chunk(chunks)] along axis 0. *)
Definition torch_chunk {A} (rows : list A) (chunks : nat) : Res (list (list A)) :=
  if (chunks =? 0)%nat then Raise RuntimeError else
  let split_size := ((length rows + chunks - 1) / chunks)%nat in
  if (split_size =? 0)%nat then Ok (replicate chunks [])
  else Ok (torch_split rows split_size).

Record DINOLoss := mkDINOLoss {
  student_temp : R;
  center_momentum : R;
  ncrops : nat;
  center : list R;
  teacher_temp_schedule : list R
}.

(** [np.linspace(start, stop, num)]. *)
Definition linspace (start stop : R) (num : nat) : list R :=
  match num with
  | 1%nat => [start]
  | _ => List.map (fun i => (start + INR i * ((stop - start) / INR (num - 1)))%R)
                  (seq 0 num)
  end.

(** [DINOLoss.__init__], with the defaults student_temp = 0.1 and
    center_momentum = 0.9. *)
Definition DINOLoss_init (out_dim ncrops : nat) (warmup_teacher_temp teacher_temp : R)
    (warmup_teacher_temp_epochs nepochs : nat) : Res DINOLoss :=
  if (nepochs <? warmup_teacher_temp_epochs)%nat then Raise ValueError else
  Ok {| student_temp := 0.1%R;
        center_momentum := 0.9%R;
        ncrops := ncrops;
        center := replicate out_dim 0%R;
        teacher_temp_schedule :=
          linspace warmup_teacher_temp teacher_temp warmup_teacher_temp_epochs
          ++ replicate (nepochs - warmup_teacher_temp_epochs) (1 * teacher_temp)%R |}.

(** What [torch.distributed] gives: the sum over the workers and their
    number. *)
Record Dist := mkDist {
  all_reduce : list R -> list R;
  get_world_size : nat
}.

(** [DINOLoss.update_center]. *)
Definition update_center (dist : Dist) (self : DINOLoss) (teacher_output : Matrix)
  : DINOLoss :=
  let batch_center :=
    fold_right (zip_with Rplus) (replicate (length (center self)) 0%R) teacher_output in
  let batch_center := all_reduce dist batch_center in
  let batch_center :=
    List.map (fun x => (x / (INR (length teacher_output) * INR (get_world_size dist)))%R)
             batch_center in
  {| student_temp := student_temp self;
     center_momentum := center_momentum self;
     ncrops := ncrops self;
     center := zip_with (fun c b => (c * center_momentum self
                                     + b * (1 - center_momentum self))%R)
                        (center self) batch_center;
     teacher_temp_schedule := teacher_temp_schedule self |}.

(** [torch.sum(-q * F.log_softmax(s, dim=-1), dim=-1).mean()] for a teacher
    chunk [q] and a student chunk [s] of the same shape. *)
Definition pair_loss (q s : Matrix) : R :=
  Rmean (zip_with (fun qr sr =>
           Rsum (zip_with (fun a l => (- a * l)%R) qr (log_softmax sr))) q s).

(** The loop over [v] of [forward], for the teacher chunk [q] of index
    [iq]; the state is [(total_loss, n_loss_terms)]. *)
Definition loss_row (student_out : list Matrix) (iq : nat) (q : Matrix)
    (st : R * nat) : R * nat :=
  fold_left (fun '(total_loss, n_loss_terms) v =>
    if (v =? iq)%nat then (total_loss, n_loss_terms)
    else ((total_loss + pair_loss q (nth v student_out []))%R, S n_loss_terms))
    (seq 0 (length student_out)) st.

(** The two loops of [forward]. *)
Definition loss_terms (teacher_out student_out : list Matrix) : R * nat :=
  fold_left (fun st '(iq, q) => loss_row student_out iq q st)
            (zip (seq 0 (length teacher_out)) teacher_out) (0%R, 0%nat).

(** [DINOLoss.forward]; it returns the loss and leaves the center updated. *)
Definition DINOLoss_forward (dist : Dist) (self : DINOLoss)
    (student_output teacher_output : Matrix) (epoch : nat) : Res (R * DINOLoss) :=
  let student_out := List.map (List.map (fun x => (x / student_temp self)%R)) student_output in
  res_bind (torch_chunk student_out (ncrops self)) (fun student_out =>
  match teacher_temp_schedule self !! epoch with
  | None => Raise IndexError
  | Some temp =>
      let teacher_out :=
        List.map (fun row => softmax (zip_with (fun t c => ((t - c) / temp)%R)
                                               row (center self)))
                 teacher_output in
      res_bind (torch_chunk teacher_out 2) (fun teacher_out =>
      let '(total_loss, n_loss_terms) := loss_terms teacher_out student_out in
      if (n_loss_terms =? 0)%nat then Raise ZeroDivisionError else
      let total_loss := (total_loss / INR n_loss_terms)%R in
      let self := update_center dist self teacher_output in
      Ok (total_loss, self))
  end).

(** The pairs (teacher view, student view) the loss runs over, in the order
    of the loops. *)
Definition loss_pairs (n_teacher n_student : nat) : list (nat * nat) :=
  List.filter (fun '(iq, v) => negb (v =? iq)%nat)
              (list_prod (seq 0 n_teacher) (seq 0 n_student)).

(** [q] lies between [lo] and [hi]. *)
Definition Qin (lo hi q : Q) : Prop := (lo <= q)%Q ∧ (q <= hi)%Q.

(** ** [train_one_epoch]: the schedules and the teacher update *)

(** The global training iteration, [len(data_loader) * epoch + it]. *)
Definition global_iteration (len_data_loader epoch it : nat) : nat :=
  len_data_loader * epoch + it.

(** The loop over [optimizer.param_groups], from the group of index [i] on.
    A group is a dictionary from option names to numbers.  The result is the
    outcome and the groups as the loop leaves them: a schedule read out of
    its range raises after the writes made before it. *)
Fixpoint set_schedules_from (i : nat) (param_groups : list (gmap string R))
    (lr_schedule wd_schedule : list R) (it : nat)
  : Res unit * list (gmap string R) :=
  match param_groups with
  | [] => (Ok tt, [])
  | param_group :: rest =>
      match lr_schedule !! it with
      | None => (Raise IndexError, param_group :: rest)
      | Some lr =>
          let param_group := <["lr"%string := lr]> param_group in
          if (i =? 0)%nat then
            match wd_schedule !! it with
            | None => (Raise IndexError, param_group :: rest)
            | Some wd =>
                let param_group := <["weight_decay"%string := wd]> param_group in
                let '(r, rest') :=
                  set_schedules_from (S i) rest lr_schedule wd_schedule it in
                (r, param_group :: rest')
            end
          else
            let '(r, rest') :=
              set_schedules_from (S i) rest lr_schedule wd_schedule it in
            (r, param_group :: rest')
      end
  end.

Definition set_schedules (param_groups : list (gmap string R))
    (lr_schedule wd_schedule : list R) (it : nat)
  : Res unit * list (gmap string R) :=
  set_schedules_from 0 param_groups lr_schedule wd_schedule it.

(** [param_k.data.mul_(m).add_((1 - m) * param_q.detach().data)] on one
    parameter, entry by entry.  A parameter is the list of its entries; the
    student's parameter has the shape of the teacher's. *)
Definition ema_param (m : R) (param_q param_k : list R) : list R :=
  zip_with (fun k q => (k * m + (1 - m) * q)%R) param_k param_q.

(** The loop over [zip(student.parameters(), teacher.parameters())]: the
    teacher's parameters are updated in place, as far as the shorter of the
    two lists goes. *)
Fixpoint ema_params (m : R) (student teacher : list (list R)) : list (list R) :=
  match student, teacher with
  | param_q :: student', param_k :: teacher' =>
      ema_param m param_q param_k :: ema_params m student' teacher'
  | _, _ => teacher
  end.

(** The EMA update of the teacher at the iteration [it]: the outcome and the
    teacher's parameters as the update leaves them. *)
Definition ema_update (momentum_schedule : list R) (it : nat)
    (student teacher : list (list R)) : Res unit * list (list R) :=
  match momentum_schedule !! it with
  | None => (Raise IndexError, teacher)
  | Some m => (Ok tt, ema_params m student teacher)
  end.

(** ** [train_dino]: the checkpoints *)

Fixpoint zeros (n : nat) : string :=
  match n with
  | O => ""
  | S n' => String "0"%char (zeros n')
  end.

(** [f'{epoch:04}']: the decimal digits of [epoch], with zeros in front of
    them up to a width of 4. *)
Definition format_04 (epoch : nat) : string :=
  let digits := DecimalString.NilEmpty.string_of_uint (Nat.to_uint epoch) in
  zeros (4 - String.length digits) +:+ digits.

(** The checkpoint files written in the output directory at the end of the
    epoch [epoch], in the order of the writes. *)
Definition checkpoint_files (saveckp_freq : Z) (epoch : nat) : list string :=
  "checkpoint.pth"%string ::
  (if negb (saveckp_freq =? 0) && (Z.of_nat epoch mod saveckp_freq =? 0)
   then ["checkpoint" +:+ format_04 epoch +:+ ".pth"]
   else []).

(** * Proofs *)

(** ** Frame splitting *)

Lemma crop_row_spec im i height width js k out :
  crop_row im height width i js (k, out)
  = (k + Z.of_nat (length js),
     out ++ map (fun j => PIL_crop im (j, i, j + width, i + height)) js).
Proof.
  unfold crop_row. revert k out.
  induction js as [|j js IH]; intros k out; simpl.
  - f_equal; [lia | now rewrite app_nil_r].
  - rewrite IH. f_equal; [lia | now rewrite <- app_assoc].
Qed.

Lemma crop_boxes_spec im height width :
  crop im height width = map (PIL_crop im) (crop_boxes im height width).
Proof.
  unfold crop, crop_boxes, im_width, im_height.
  destruct (im_size im) as [imgwidth imgheight]; simpl.
  set (js := py_range 0 imgwidth width).
  assert (H : forall rows k out,
    fold_left (fun st i => crop_row im height width i js st) rows (k, out)
    = (k + Z.of_nat (length rows * length js),
       out ++ map (PIL_crop im)
         (flat_map (fun i => map (fun j => (j, i, j + width, i + height)) js) rows))).
  { induction rows as [|i rows IH]; intros k out; simpl.
    - f_equal; [lia | now rewrite app_nil_r].
    - rewrite crop_row_spec, IH. f_equal; [lia|].
      rewrite map_app, map_map, <- app_assoc. reflexivity. }
  rewrite H. reflexivity.
Qed.

Section ProgramFacts.
Context `{Externals}.

Lemma transfo1_branch : transfo1 = branch policy1.
Proof. reflexivity. Qed.

Lemma transfo2_branch : transfo2 = branch policy2.
Proof. reflexivity. Qed.

Lemma local_transfo_branch : local_transfo = branch policy_local.
Proof. reflexivity. Qed.

(** ** The monad *)

Lemma bind_run {A B} (m : M A) (k : A → M B) w a w' :
  m w = (Ok a, w') → (m ≫= k) w = k a w'.
Proof. intros E. unfold mbind, M_bind. now rewrite E. Qed.

Lemma bind_ret_run {A B} (a : A) (k : A → M B) w : (mret a ≫= k) w = k a w.
Proof. reflexivity. Qed.

Lemma bind_lift_run {A B} (a : A) (k : A → M B) w : (lift (Ok a) ≫= k) w = k a w.
Proof. reflexivity. Qed.

Lemma bind_draw_run {A B} (f : Rng → A * Rng) (k : A → M B) w :
  (draw f ≫= k) w = k (f (rng w)).1 (set_rng (f (rng w)).2 w).
Proof. unfold mbind, M_bind, draw. now destruct (f (rng w)). Qed.

Lemma set_heap_id w xs l : heap w !! l = Some xs → set_heap (<[l := xs]> (heap w)) w = w.
Proof. intros E. unfold set_heap. rewrite insert_id by done. now destruct w. Qed.

Lemma heap_set_heap h w : heap (set_heap h w) = h.
Proof. reflexivity. Qed.

Lemma set_heap_set_heap h h' w : set_heap h (set_heap h' w) = set_heap h w.
Proof. reflexivity. Qed.

(** ** List objects *)

Lemma list_read_run l xs w : heap w !! l = Some xs → list_read l w = (Ok xs, w).
Proof. intros E. unfold list_read. now rewrite E. Qed.

Lemma list_len_run l xs w : heap w !! l = Some xs → list_len l w = (Ok (length xs), w).
Proof. intros E. unfold list_len. now rewrite (bind_run _ _ _ _ _ (list_read_run _ _ _ E)). Qed.

Lemma list_getitem_run l xs i v w :
  heap w !! l = Some xs → xs !! i = Some v → list_getitem l i w = (Ok v, w).
Proof.
  intros E Ei. unfold list_getitem.
  rewrite (bind_run _ _ _ _ _ (list_read_run _ _ _ E)). now rewrite Ei.
Qed.

Lemma list_setitem_run l xs i v w :
  heap w !! l = Some xs → (i < length xs)%nat →
  list_setitem l i v w = (Ok tt, set_heap (<[l := <[i := v]> xs]> (heap w)) w).
Proof.
  intros E Hi. unfold list_setitem.
  rewrite (bind_run _ _ _ _ _ (list_read_run _ _ _ E)).
  now rewrite decide_True by done.
Qed.

Lemma list_append_run l xs v w :
  heap w !! l = Some xs →
  list_append l v w = (Ok tt, set_heap (<[l := xs ++ [v]]> (heap w)) w).
Proof.
  intros E. unfold list_append.
  now rewrite (bind_run _ _ _ _ _ (list_read_run _ _ _ E)).
Qed.

Lemma slot_update_run l f xs i x y w :
  heap w !! l = Some xs → xs !! i = Some x → f x = Ok y →
  slot_update l f i w = (Ok tt, set_heap (<[l := <[i := y]> xs]> (heap w)) w).
Proof.
  intros E Ei Ef. unfold slot_update.
  rewrite (bind_run _ _ _ _ _ (list_getitem_run _ _ _ _ _ E Ei)).
  rewrite Ef, bind_lift_run.
  apply list_setitem_run; [done|]. now apply lookup_lt_Some in Ei.
Qed.

(** The loop [for i in range(len(l)): l[i] = f(l[i])] maps [f] over the
    slots of [l], in place. *)
Lemma inplace_loop_from l f xs : ∀ pre ys w,
  heap w !! l = Some (pre ++ xs) → mapM_res f xs = Ok ys →
  for_each (seq (length pre) (length xs)) (fun i _ => slot_update l f i) tt w
  = (Ok tt, set_heap (<[l := pre ++ ys]> (heap w)) w).
Proof.
  induction xs as [|x xs IH]; intros pre ys w E Hm; simpl in Hm.
  - injection Hm as <-. simpl. now rewrite set_heap_id.
  - destruct (f x) as [y|] eqn:Ef; [|discriminate]. simpl in Hm.
    destruct (mapM_res f xs) as [ys'|] eqn:Em; [|discriminate].
    injection Hm as <-. simpl.
    assert (Ei : (pre ++ x :: xs) !! length pre = Some x)
      by now rewrite list_lookup_middle.
    rewrite (bind_run _ _ _ _ _ (slot_update_run _ _ _ _ _ _ _ E Ei Ef)).
    assert (Eu : <[length pre := y]> (pre ++ x :: xs) = (pre ++ [y]) ++ xs).
    { rewrite insert_app_r_alt by lia. rewrite Nat.sub_diag. simpl.
      now rewrite <- app_assoc. }
    rewrite Eu.
    specialize (IH (pre ++ [y]) ys'
      (set_heap (<[l := (pre ++ [y]) ++ xs]> (heap w)) w)).
    rewrite length_app in IH. simpl in IH.
    replace (length pre + 1)%nat with (S (length pre)) in IH by lia.
    rewrite IH; [| apply lookup_insert_eq | done].
    rewrite set_heap_set_heap, ?heap_set_heap, insert_insert_eq, <- app_assoc.
    reflexivity.
Qed.

Lemma inplace_loop l f xs ys w :
  heap w !! l = Some xs → mapM_res f xs = Ok ys →
  for_range 0 (length xs) (slot_update l f) w
  = (Ok tt, set_heap (<[l := ys]> (heap w)) w).
Proof.
  intros E Hm. unfold for_range. rewrite Nat.sub_0_r.
  exact (inplace_loop_from l f xs [] ys w E Hm).
Qed.

Lemma mapM_on_image f ims :
  mapM_res (on_image f) (PILImage <$> ims) = Ok (PILImage <$> (f <$> ims)).
Proof.
  induction ims as [|im ims IH]; [done|].
  rewrite !fmap_cons. cbn [mapM_res on_image as_image res_bind].
  now rewrite IH.
Qed.

Lemma mapM_image_to_tensor f ims :
  mapM_res (image_to_tensor f) (PILImage <$> ims) = Ok (TorchTensor <$> (f <$> ims)).
Proof.
  induction ims as [|im ims IH]; [done|].
  rewrite !fmap_cons. cbn [mapM_res image_to_tensor as_image res_bind].
  now rewrite IH.
Qed.

Lemma Normalize_ToTensor mean std im :
  length mean = 3%nat → length std = 3%nat →
  Normalize mean std (ToTensor im) = Ok (normalize_entries mean std (ToTensor im)).
Proof.
  intros Hm Hs. unfold Normalize. simpl. rewrite Hm, Hs.
  now rewrite decide_True by done.
Qed.

Lemma mapM_normalize mean std ims :
  length mean = 3%nat → length std = 3%nat →
  mapM_res (on_tensor (Normalize mean std)) (TorchTensor <$> (ToTensor <$> ims))
  = Ok (TorchTensor <$> ((fun im => normalize_entries mean std (ToTensor im)) <$> ims)).
Proof.
  intros Hm Hs. induction ims as [|im ims IH]; [done|].
  rewrite !fmap_cons. cbn [mapM_res on_tensor as_tensor res_bind].
  rewrite Normalize_ToTensor by done. cbn [res_bind].
  now rewrite IH.
Qed.

(** The loop of the differences appends [difference_images] to
    [image_diff]. *)
Lemma diff_body_run images image_diff xs ds i a b w :
  heap w !! images = Some xs → heap w !! image_diff = Some ds →
  xs !! i = Some (PILImage a) → xs !! (i + 1)%nat = Some (PILImage b) →
  diff_body images image_diff i w
  = (Ok tt, set_heap (<[image_diff := ds ++ [PILImage (ImageChops_subtract a b 1 2)]]>
                        (heap w)) w).
Proof.
  intros Ei Ed Ea Eb. unfold diff_body.
  rewrite (bind_run _ _ _ _ _ (list_getitem_run _ _ _ _ _ Ei Ea)).
  cbn [as_image]. rewrite bind_lift_run.
  rewrite (bind_run _ _ _ _ _ (list_getitem_run _ _ _ _ _ Ei Eb)).
  cbn [as_image]. rewrite bind_lift_run.
  apply list_append_run, Ed.
Qed.

Lemma difference_images_cons a b rest :
  difference_images (a :: b :: rest)
  = ImageChops_subtract a b 1 2 :: difference_images (b :: rest).
Proof. reflexivity. Qed.

Lemma diff_loop_from images image_diff rest : ∀ pre ds w,
  images ≠ image_diff →
  heap w !! images = Some (PILImage <$> (pre ++ rest)) →
  heap w !! image_diff = Some ds →
  for_each (seq (length pre) (length rest - 1))
           (fun i _ => diff_body images image_diff i) tt w
  = (Ok tt, set_heap (<[image_diff := ds ++ (PILImage <$> difference_images rest)]>
                        (heap w)) w).
Proof.
  induction rest as [|a rest IH]; intros pre ds w Hne Ei Ed.
  - simpl. rewrite app_nil_r. now rewrite set_heap_id.
  - destruct rest as [|b rest].
    + simpl. rewrite app_nil_r. now rewrite set_heap_id.
    + rewrite difference_images_cons.
      replace (length (a :: b :: rest) - 1)%nat with (S (length rest)) by (simpl; lia).
      cbn [seq for_each].
      assert (Ea : (PILImage <$> pre ++ a :: b :: rest) !! length pre = Some (PILImage a)).
      { rewrite list_lookup_fmap, list_lookup_middle; done. }
      assert (Eb : (PILImage <$> pre ++ a :: b :: rest) !! (length pre + 1)%nat
                   = Some (PILImage b)).
      { rewrite list_lookup_fmap.
        replace (pre ++ a :: b :: rest) with ((pre ++ [a]) ++ b :: rest)
          by now rewrite <- app_assoc.
        rewrite list_lookup_middle; [done|]. rewrite length_app. simpl. lia. }
      rewrite (bind_run _ _ _ _ _ (diff_body_run _ _ _ _ _ _ _ _ Ei Ed Ea Eb)).
      specialize (IH (pre ++ [a]) (ds ++ [PILImage (ImageChops_subtract a b 1 2)])
        (set_heap (<[image_diff := ds ++ [PILImage (ImageChops_subtract a b 1 2)]]> (heap w)) w)).
      rewrite length_app in IH. cbn [length] in IH.
      rewrite Nat.sub_succ, Nat.sub_0_r in IH.
      replace (length pre + 1)%nat with (S (length pre)) in IH by lia.
      rewrite IH; [| done | | ].
      * rewrite set_heap_set_heap, heap_set_heap, insert_insert_eq, <- app_assoc.
        reflexivity.
      * rewrite heap_set_heap, lookup_insert_ne by done.
        now rewrite <- app_assoc.
      * rewrite heap_set_heap. apply lookup_insert_eq.
Qed.

Lemma diff_loop images image_diff frames ds w :
  images ≠ image_diff →
  heap w !! images = Some (PILImage <$> frames) →
  heap w !! image_diff = Some ds →
  for_range 0 (length frames - 1) (diff_body images image_diff) w
  = (Ok tt, set_heap (<[image_diff := ds ++ (PILImage <$> difference_images frames)]>
                        (heap w)) w).
Proof.
  intros Hne Ei Ed. unfold for_range. rewrite Nat.sub_0_r.
  exact (diff_loop_from images image_diff frames [] ds w Hne Ei Ed).
Qed.

Lemma difference_images_length frames :
  length (difference_images frames) = (length frames - 1)%nat.
Proof.
  induction frames as [|a [|b rest] IH]; [done | done |].
  cbn [difference_images length] in *. rewrite IH. lia.
Qed.

Lemma difference_images_lookup frames i a b :
  frames !! i = Some a → frames !! S i = Some b →
  difference_images frames !! i = Some (ImageChops_subtract a b 1 2).
Proof.
  revert i. induction frames as [|x [|y rest] IH]; intros i Ha Hb; [done| |].
  - destruct i; done.
  - destruct i as [|i].
    + simpl in *. congruence.
    + cbn [difference_images]. rewrite lookup_cons. apply IH; done.
Qed.

(** ** Stacking along axis 1 *)

Lemma newaxis_stacked t c d rest :
  shape t = c :: d :: rest →
  ∃ v, index_newaxis1 t = Ok v ∧ stacked v [t] c (d :: rest).
Proof.
  intros Hs. unfold index_newaxis1. rewrite Hs. eexists; split; [reflexivity|].
  split; [reflexivity|].
  intros k t' Hk c0 r. destruct k; [|done]. now injection Hk as <-.
Qed.

Lemma cat_stacked a b sa sb c rest :
  stacked a sa c rest → stacked b sb c rest →
  ∃ v, torch_cat1 a b = Ok v ∧ stacked v (sa ++ sb) c rest.
Proof.
  intros [Ha Ia] [Hb Ib]. unfold torch_cat1. rewrite Ha, Hb.
  rewrite decide_True by done. eexists; split; [reflexivity|].
  split.
  - cbn [shape]. rewrite length_app. do 2 f_equal. lia.
  - intros k t Hk c0 r. cbn [item].
    destruct (decide (k < length sa)%nat) as [Hlt|Hge].
    + rewrite lookup_app_l in Hk by done.
      destruct (Z.ltb_spec (Z.of_nat k) (Z.of_nat (length sa))); [|lia].
      now apply Ia.
    + rewrite lookup_app_r in Hk by lia.
      destruct (Z.ltb_spec (Z.of_nat k) (Z.of_nat (length sa))); [lia|].
      rewrite <- (Ib _ _ Hk). do 3 f_equal. lia.
Qed.

Lemma concat_body_run images image_diff ts ds i a d acc sl c hh ww w :
  heap w !! images = Some (TorchTensor <$> ts) →
  heap w !! image_diff = Some (TorchTensor <$> ds) →
  ts !! i = Some a → ds !! (i - 1)%nat = Some d →
  shape a = [c; hh; ww] → shape d = [c; hh; ww] →
  stacked acc sl c [hh; ww] →
  ∃ v, concat_body images image_diff i acc w = (Ok v, w)
       ∧ stacked v (d :: a :: sl) c [hh; ww].
Proof.
  intros Ei Ed Ea Edd Sa Sd Hacc. unfold concat_body.
  assert (Ea' : (TorchTensor <$> ts) !! i = Some (TorchTensor a))
    by now rewrite list_lookup_fmap, Ea.
  assert (Ed' : (TorchTensor <$> ds) !! (i - 1)%nat = Some (TorchTensor d))
    by now rewrite list_lookup_fmap, Edd.
  rewrite (bind_run _ _ _ _ _ (list_getitem_run _ _ _ _ _ Ei Ea')).
  cbn [as_tensor res_bind].
  destruct (newaxis_stacked a c hh [ww] Sa) as (a' & -> & Ha').
  rewrite bind_lift_run.
  destruct (cat_stacked _ _ _ _ _ _ Ha' Hacc) as (v1 & -> & Hv1).
  rewrite bind_lift_run.
  rewrite (bind_run _ _ _ _ _ (list_getitem_run _ _ _ _ _ Ed Ed')).
  cbn [as_tensor res_bind].
  destruct (newaxis_stacked d c hh [ww] Sd) as (d' & -> & Hd').
  rewrite bind_lift_run.
  destruct (cat_stacked _ _ _ _ _ _ Hd' Hv1) as (v2 & -> & Hv2).
  now exists v2.
Qed.

Lemma concat_loop_from images image_diff c hh ww w todo_i : ∀ todo_d pre_i pre_d acc sl,
  heap w !! images = Some (TorchTensor <$> (pre_i ++ todo_i)) →
  heap w !! image_diff = Some (TorchTensor <$> (pre_d ++ todo_d)) →
  length pre_i = S (length pre_d) → length todo_i = length todo_d →
  Forall (fun t => shape t = [c; hh; ww]) todo_i →
  Forall (fun t => shape t = [c; hh; ww]) todo_d →
  stacked acc sl c [hh; ww] →
  ∃ v, for_each (seq (length pre_i) (length todo_i))
                (concat_body images image_diff) acc w = (Ok v, w)
       ∧ stacked v (fold_left push_pair (zip todo_i todo_d) sl) c [hh; ww].
Proof.
  induction todo_i as [|a ti IH]; intros todo_d pre_i pre_d acc sl Ei Ed Hp Hl Fi Fd Hacc.
  - simpl. now exists acc.
  - destruct todo_d as [|d td]; [done|].
    apply Forall_cons in Fi as [Sa Fi]. apply Forall_cons in Fd as [Sd Fd].
    cbn [length seq for_each].
    assert (Ea : (pre_i ++ a :: ti) !! length pre_i = Some a)
      by now rewrite list_lookup_middle.
    assert (Edd : (pre_d ++ d :: td) !! (length pre_i - 1)%nat = Some d).
    { rewrite list_lookup_middle; [done|]. lia. }
    destruct (concat_body_run _ _ _ _ _ _ _ _ _ _ _ _ _ Ei Ed Ea Edd Sa Sd Hacc)
      as (v & Ev & Hv).
    rewrite (bind_run _ _ _ _ _ Ev).
    specialize (IH td (pre_i ++ [a]) (pre_d ++ [d]) v (d :: a :: sl)).
    rewrite !length_app in IH. cbn [length] in IH.
    replace (length pre_i + 1)%nat with (S (length pre_i)) in IH by lia.
    rewrite <- !app_assoc in IH.
    destruct IH as (v' & Ev' & Hv'); try done; [lia | simpl in Hl; lia |].
    now exists v'.
Qed.

Lemma fold_slices_lookup l : ∀ sl,
  length (fold_left push_pair l sl) = (2 * length l + length sl)%nat ∧
  (∀ j, fold_left push_pair l sl !! (2 * length l + j)%nat = sl !! j) ∧
  (∀ i a d, l !! i = Some (a, d) →
     fold_left push_pair l sl !! (2 * (length l - 1 - i))%nat = Some d ∧
     fold_left push_pair l sl !! (2 * (length l - 1 - i) + 1)%nat = Some a).
Proof.
  induction l as [|[a d] l IH]; intros sl.
  - split; [done|]. split; [done|]. intros i a d Hi. done.
  - cbn [fold_left push_pair length].
    destruct (IH (d :: a :: sl)) as (Hlen & Hsl & Hl).
    split; [rewrite Hlen; simpl; lia|]. split.
    + intros j. replace (2 * S (length l) + j)%nat with (2 * length l + S (S j))%nat by lia.
      now rewrite Hsl.
    + intros i a0 d0 Hi. destruct i as [|i].
      * injection Hi as <- <-.
        replace (2 * (S (length l) - 1 - 0))%nat with (2 * length l + 0)%nat by lia.
        replace (2 * length l + 0 + 1)%nat with (2 * length l + 1)%nat by lia.
        now rewrite !Hsl.
      * simpl in Hi. apply lookup_lt_Some in Hi as Hlt.
        replace (S (length l) - 1 - S i)%nat with (length l - 1 - i)%nat by lia.
        now apply Hl.
Qed.

Lemma view_slices_lookup imgs diffs :
  imgs ≠ [] → length diffs = (length imgs - 1)%nat →
  length (view_slices imgs diffs) = (2 * length imgs - 1)%nat ∧
  view_slices imgs diffs !! (2 * length imgs - 2)%nat = imgs !! 0%nat ∧
  ∀ i, (1 ≤ i < length imgs)%nat →
    view_slices imgs diffs !! (2 * (length imgs - 1 - i))%nat = diffs !! (i - 1)%nat ∧
    view_slices imgs diffs !! (2 * (length imgs - 1 - i) + 1)%nat = imgs !! i.
Proof.
  destruct imgs as [|t0 rest]; [done|]. intros _ Hl. cbn [length] in *.
  rewrite Nat.sub_succ, Nat.sub_0_r in Hl. unfold view_slices.
  destruct (fold_slices_lookup (zip rest diffs) [t0]) as (Hlen & Hsl & Hz).
  assert (Lz : length (zip rest diffs) = length rest)
    by (rewrite length_zip_with; lia).
  rewrite Lz in *. split; [rewrite Hlen; simpl; lia|]. split.
  - replace (2 * S (length rest) - 2)%nat with (2 * length rest + 0)%nat by lia.
    now rewrite Hsl.
  - intros i Hi. destruct i as [|i]; [lia|].
    assert (Hi' : (i < length rest)%nat) by lia.
    destruct (lookup_lt_is_Some_2 rest i Hi') as [a Ha].
    destruct (lookup_lt_is_Some_2 diffs i ltac:(lia)) as [d Hd].
    assert (Hzi : zip rest diffs !! i = Some (a, d)).
    { rewrite lookup_zip_with, Ha, Hd. reflexivity. }
    destruct (Hz _ _ _ Hzi) as [H1 H2].
    replace (S (length rest) - 1 - S i)%nat with (length rest - 1 - i)%nat by lia.
    rewrite H1, H2. replace (S i - 1)%nat with i by lia.
    split; [now rewrite Hd | symmetry; exact Ha].
Qed.

(** ** The invariant of a branch run *)

Lemma bind_run' {A B} (m : M A) (k : A → M B) w a w' R :
  m w = (Ok a, w') → k a w' = R → (m ≫= k) w = R.
Proof. intros E <-. now apply bind_run. Qed.

Lemma draw_run {A} (f : Rng → A * Rng) w a r :
  f (rng w) = (a, r) → draw f w = (Ok a, set_rng r w).
Proof. intros E. unfold draw. now rewrite E. Qed.

Lemma stage_set_rng w0 w im df xs ds r r' :
  stage w0 w im df xs ds r → stage w0 (set_rng r' w) im df xs ds r'.
Proof. intros []. now constructor. Qed.

Lemma stage_write_images w0 w im df xs ds r ys :
  stage w0 w im df xs ds r →
  stage w0 (set_heap (<[im := ys]> (heap w)) w) im df ys ds r.
Proof.
  intros []. constructor; rewrite ?heap_set_heap; try done.
  - apply lookup_insert_eq.
  - now rewrite lookup_insert_ne.
  - rewrite dom_insert_L. set_solver.
  - intros l Hl. rewrite lookup_insert_ne; [auto|]. intros ->. done.
Qed.

Lemma stage_write_diff w0 w im df xs ds r ys :
  stage w0 w im df xs ds r →
  stage w0 (set_heap (<[df := ys]> (heap w)) w) im df xs ys r.
Proof.
  intros []. constructor; rewrite ?heap_set_heap; try done.
  - now rewrite lookup_insert_ne.
  - apply lookup_insert_eq.
  - rewrite dom_insert_L. set_solver.
  - intros l Hl. rewrite lookup_insert_ne; [auto|]. intros ->. done.
Qed.

Lemma stage_new_images w0 w im df xs ds r ys :
  stage w0 w im df xs ds r →
  stage w0 (set_heap (<[fresh (dom (heap w)) := ys]> (heap w)) w)
        (fresh (dom (heap w))) df ys ds r.
Proof.
  intros []. pose proof (is_fresh (dom (heap w))) as Hf.
  assert (fresh (dom (heap w)) ≠ df).
  { intros E. apply Hf. rewrite E. apply elem_of_dom. eauto. }
  constructor; rewrite ?heap_set_heap; try done.
  - apply lookup_insert_eq.
  - now rewrite lookup_insert_ne.
  - set_solver.
  - rewrite dom_insert_L. set_solver.
  - intros l Hl. rewrite lookup_insert_ne; [auto|]. intros E. apply Hf.
    rewrite E. set_solver.
Qed.

Lemma stage_init inp xs w :
  heap w !! inp = Some xs →
  ∃ im df w',
    list_copy inp w = (Ok im, set_heap (<[im := xs]> (heap w)) w) ∧
    list_new [] (set_heap (<[im := xs]> (heap w)) w) = (Ok df, w') ∧
    stage w w' im df xs [] (rng w).
Proof.
  intros E. set (im := fresh (dom (heap w))).
  set (w1 := set_heap (<[im := xs]> (heap w)) w).
  set (df := fresh (dom (heap w1))).
  exists im, df, (set_heap (<[df := []]> (heap w1)) w1).
  pose proof (is_fresh (dom (heap w))) as Him. fold im in Him.
  pose proof (is_fresh (dom (heap w1))) as Hdf. fold df in Hdf.
  unfold w1 in Hdf. rewrite heap_set_heap, dom_insert_L in Hdf.
  split; [|split].
  - unfold list_copy. now rewrite (bind_run _ _ _ _ _ (list_read_run _ _ _ E)).
  - reflexivity.
  - constructor; unfold w1; rewrite ?heap_set_heap; try done.
    + rewrite lookup_insert_ne by set_solver. apply lookup_insert_eq.
    + apply lookup_insert_eq.
    + set_solver.
    + set_solver.
    + rewrite !dom_insert_L. set_solver.
    + intros l Hl. rewrite !lookup_insert_ne; [done| |]; intros <-; set_solver.
Qed.

Lemma stage_inplace_images w0 w im df xs ds r f ys :
  stage w0 w im df xs ds r → mapM_res f xs = Ok ys →
  ∃ w', for_range 0 (length xs) (slot_update im f) w = (Ok tt, w')
        ∧ stage w0 w' im df ys ds r.
Proof.
  intros St Hm. eexists. split.
  - exact (inplace_loop _ _ _ _ _ (st_images _ _ _ _ _ _ _ St) Hm).
  - exact (stage_write_images _ _ _ _ _ _ _ _ St).
Qed.

Lemma stage_inplace_diff w0 w im df xs ds r f ys :
  stage w0 w im df xs ds r → mapM_res f ds = Ok ys →
  ∃ w', for_range 0 (length ds) (slot_update df f) w = (Ok tt, w')
        ∧ stage w0 w' im df xs ys r.
Proof.
  intros St Hm. eexists. split.
  - exact (inplace_loop _ _ _ _ _ (st_diff _ _ _ _ _ _ _ St) Hm).
  - exact (stage_write_diff _ _ _ _ _ _ _ _ St).
Qed.

Lemma stage_diff_loop w0 w im df frames ds r :
  stage w0 w im df (PILImage <$> frames) ds r →
  ∃ w', for_range 0 (length (PILImage <$> frames) - 1) (diff_body im df) w = (Ok tt, w')
        ∧ stage w0 w' im df (PILImage <$> frames)
                (ds ++ (PILImage <$> difference_images frames)) r.
Proof.
  intros St. eexists. split.
  - rewrite length_fmap.
    exact (diff_loop _ _ _ _ _ (st_ne _ _ _ _ _ _ _ St) (st_images _ _ _ _ _ _ _ St)
                     (st_diff _ _ _ _ _ _ _ St)).
  - exact (stage_write_diff _ _ _ _ _ _ _ _ St).
Qed.

Lemma stage_flip w0 w im df ims ds r (c : bool) g :
  stage w0 w im df (PILImage <$> ims) ds r →
  ∃ w', (if c then n ← list_len im; for_range 0 n (slot_update im (on_image g))
         else mret tt) w = (Ok tt, w')
        ∧ stage w0 w' im df (PILImage <$> ((fun x => if c then g x else x) <$> ims)) ds r.
Proof.
  intros St. destruct c.
  - destruct (stage_inplace_images _ _ _ _ _ _ _ _ _ St (mapM_on_image g ims))
      as (w' & E & St').
    exists w'. split; [|exact St'].
    eapply bind_run'; [apply (list_len_run _ _ _ (st_images _ _ _ _ _ _ _ St)) | exact E].
  - exists w. split; [reflexivity|]. now rewrite list_fmap_id.
Qed.

Lemma stage_blur w0 w im df ims ds r (do_it : bool) p radius r' :
  stage w0 w im df (PILImage <$> ims) ds r →
  (if do_it then GaussianBlur_radius p r else (0%Q, r)) = (radius, r') →
  ∃ im' w', utils_GaussianBlur do_it p im w = (Ok im', w')
    ∧ stage w0 w' im' df
        (PILImage <$> ((fun x => if do_it then ImageFilter_GaussianBlur radius x else x)
                         <$> ims)) ds r'.
Proof.
  intros St E. unfold utils_GaussianBlur. destruct do_it.
  - rewrite <- (st_rng _ _ _ _ _ _ _ St) in E.
    pose proof (stage_set_rng _ _ _ _ _ _ _ r' St) as St1.
    do 2 eexists. split.
    + eapply bind_run'; [apply (draw_run _ _ _ _ E)|].
      eapply bind_run'; [apply (list_read_run _ _ _ (st_images _ _ _ _ _ _ _ St1))|].
      rewrite mapM_on_image, bind_lift_run. reflexivity.
    + eapply stage_new_images; eassumption.
  - injection E as <- <-. exists im, w. split; [reflexivity|].
    now rewrite list_fmap_id.
Qed.

Lemma stage_solarize w0 w im df ims ds r (do_it : bool) :
  stage w0 w im df (PILImage <$> ims) ds r →
  ∃ im' w', utils_Solarization do_it im w = (Ok im', w')
    ∧ stage w0 w' im' df
        (PILImage <$> ((fun x => if do_it then ImageOps_solarize x else x) <$> ims)) ds r.
Proof.
  intros St. unfold utils_Solarization. destruct do_it.
  - do 2 eexists. split.
    + eapply bind_run'; [apply (list_read_run _ _ _ (st_images _ _ _ _ _ _ _ St))|].
      rewrite mapM_on_image, bind_lift_run. reflexivity.
    + eapply stage_new_images; eassumption.
  - exists im, w. split; [reflexivity|]. now rewrite list_fmap_id.
Qed.

Lemma stage_concat w0 w im df ts dts r c hh ww :
  stage w0 w im df (TorchTensor <$> ts) (TorchTensor <$> dts) r →
  ts ≠ [] → length dts = (length ts - 1)%nat →
  Forall (fun t => shape t = [c; hh; ww]) ts →
  Forall (fun t => shape t = [c; hh; ww]) dts →
  ∃ view,
    (torchTensor ← list_getitem im 0;
     torchTensor ← lift (res_bind (as_tensor torchTensor) index_newaxis1);
     n ← list_len im;
     for_each (seq 1 (n - 1)) (concat_body im df) torchTensor) w = (Ok view, w)
    ∧ stacked view (view_slices ts dts) c [hh; ww].
Proof.
  intros St Hne Hl Fi Fd. destruct ts as [|t0 rest]; [done|].
  apply Forall_cons in Fi as [S0 Fi].
  pose proof (st_images _ _ _ _ _ _ _ St) as Ei.
  pose proof (st_diff _ _ _ _ _ _ _ St) as Ed.
  destruct (newaxis_stacked t0 c hh [ww] S0) as (v0 & E0 & H0).
  cbn [length] in Hl. rewrite Nat.sub_succ, Nat.sub_0_r in Hl.
  destruct (concat_loop_from im df c hh ww w rest dts [t0] [] v0 [t0])
    as (v & Ev & Hv); try done.
  exists v. split; [|exact Hv].
  eapply bind_run'; [apply (list_getitem_run _ _ _ _ _ Ei); reflexivity|].
  cbn [as_tensor res_bind]. rewrite E0, bind_lift_run.
  eapply bind_run'; [apply (list_len_run _ _ _ Ei)|].
  rewrite length_fmap. cbn [length]. rewrite Nat.sub_succ, Nat.sub_0_r. exact Ev.
Qed.

(** ** Sizes along the pipeline *)

Lemma jitter_frame_size jp im : im_size (jitter_frame jp im) = im_size im.
Proof.
  destruct jp as [[[[fn_idx b] c] s] h]. unfold jitter_frame.
  revert im. induction fn_idx as [|fn_id fn_idx IH]; intros im; [done|].
  cbn [fold_left]. rewrite IH.
  destruct fn_id as [|[|[|[|?]]]], b, c, s, h;
    auto using adjust_brightness_size, adjust_contrast_size,
               adjust_saturation_size, adjust_hue_size.
Qed.

Lemma photometric_size pol d im : im_size (photometric pol d im) = im_size im.
Proof.
  unfold photometric.
  destruct (solarize_gate pol d), (blur_gate pol d),
    (negb (Qle_bool (d_hflip d) 0.5)), (negb (Qle_bool (d_vflip d) 0.5));
    cbn [ImageOps_solarize TF_hflip TF_vflip im_size];
    rewrite ?GaussianBlur_size, ?jitter_frame_size; reflexivity.
Qed.

Lemma crop_resize_size pol rect im :
  im_size (crop_resize pol rect im) = (target pol, target pol).
Proof.
  destruct rect as [[[i j] h] w]. unfold crop_resize. apply PIL_resize_size.
Qed.

Lemma difference_images_size s frames :
  Forall (fun im => im_size im = (s, s)) frames →
  Forall (fun im => im_size im = (s, s)) (difference_images frames).
Proof.
  induction frames as [|a [|b rest] IH]; intros Hf; [done | done |].
  rewrite difference_images_cons.
  apply Forall_cons in Hf as [Ha Hf]. pose proof Hf as Hf'.
  apply Forall_cons in Hf' as [Hb _].
  apply Forall_cons; split; [|auto].
  unfold ImageChops_subtract, im_width, im_height. cbn [im_size].
  rewrite Ha, Hb. cbn [fst snd]. now rewrite Z.min_id.
Qed.

Lemma ToTensor_shape s im :
  im_size im = (s, s) → shape (ToTensor im) = [3; s; s].
Proof. intros E. unfold ToTensor, im_height, im_width. now rewrite E. Qed.

(** ** A branch, run from start to end *)

Lemma stage_solarize_step w0 w im df ims ds r sol ps r' :
  stage w0 w im df (PILImage <$> ims) ds r →
  match sol with Some _ => random_random r | None => (0%Q, r) end = (ps, r') →
  ∃ im' w',
    stage w0 w' im' df
      (PILImage <$> ((fun x => if match sol with
                                  | Some thr => Qle_bool thr ps
                                  | None => false
                                  end
                               then ImageOps_solarize x else x) <$> ims)) ds r'
    ∧ ∀ A (k : loc → M A), solarize_step sol im k w = k im' w'.
Proof.
  intros St E. destruct sol as [thr|].
  - rewrite <- (st_rng _ _ _ _ _ _ _ St) in E. apply draw_run in E.
    pose proof (stage_set_rng _ _ _ _ _ _ _ r' St) as St1.
    destruct (stage_solarize _ _ _ _ _ _ _ (Qle_bool thr ps) St1) as (im' & w' & E' & St').
    exists im', w'. split; [exact St'|]. intros A k. unfold solarize_step.
    eapply bind_run'; [exact E|].
    replace (if Qle_bool thr ps then true else false) with (Qle_bool thr ps)
      by now destruct (Qle_bool thr ps).
    eapply bind_run'; [exact E'|]. reflexivity.
  - injection E as <- <-. exists im, w. split; [|reflexivity].
    now rewrite list_fmap_id.
Qed.

Lemma stage_to_view w0 w im df ims dimgs r s :
  stage w0 w im df (PILImage <$> ims) (PILImage <$> dimgs) r →
  ims ≠ [] → length dimgs = (length ims - 1)%nat →
  Forall (fun x => im_size x = (s, s)) ims →
  Forall (fun x => im_size x = (s, s)) dimgs →
  ∃ view w',
    to_view df im w = (Ok view, w') ∧
    stacked view (view_slices (frame_tensor <$> ims) (diff_tensor <$> dimgs)) 3 [s; s] ∧
    stage w0 w' im df (TorchTensor <$> (frame_tensor <$> ims))
          (TorchTensor <$> (diff_tensor <$> dimgs)) r.
Proof.
  intros St Hne Hl Fi Fd.
  destruct (stage_inplace_images _ _ _ _ _ _ _ _ _ St (mapM_image_to_tensor ToTensor ims))
    as (w1 & E1 & St1).
  destruct (stage_inplace_images _ _ _ _ _ _ _ _ _ St1
              (mapM_normalize imagenet_mean imagenet_std ims eq_refl eq_refl))
    as (w2 & E2 & St2).
  destruct (stage_inplace_diff _ _ _ _ _ _ _ _ _ St2 (mapM_image_to_tensor ToTensor dimgs))
    as (w3 & E3 & St3).
  destruct (stage_inplace_diff _ _ _ _ _ _ _ _ _ St3
              (mapM_normalize zero_mean imagenet_std dimgs eq_refl eq_refl))
    as (w4 & E4 & St4).
  change (stage w0 w4 im df (TorchTensor <$> (frame_tensor <$> ims))
                (TorchTensor <$> (diff_tensor <$> dimgs)) r) in St4.
  destruct (stage_concat _ _ _ _ _ _ _ 3 s s St4) as (view & Ev & Hv).
  - now destruct ims.
  - now rewrite !length_fmap.
  - apply Forall_fmap. eapply Forall_impl; [exact Fi|].
    intros x Hx. unfold frame_tensor. cbn [shape normalize_entries].
    now apply ToTensor_shape.
  - apply Forall_fmap. eapply Forall_impl; [exact Fd|].
    intros x Hx. unfold diff_tensor. cbn [shape normalize_entries].
    now apply ToTensor_shape.
  - exists view, w4. split; [|split; [exact Hv | exact St4]].
    unfold to_view.
    eapply bind_run'; [apply (list_len_run _ _ _ (st_images _ _ _ _ _ _ _ St))|].
    eapply bind_run'; [exact E1|].
    eapply bind_run'; [apply (list_len_run _ _ _ (st_images _ _ _ _ _ _ _ St1))|].
    eapply bind_run'; [exact E2|].
    eapply bind_run'; [apply (list_len_run _ _ _ (st_diff _ _ _ _ _ _ _ St2))|].
    eapply bind_run'; [exact E3|].
    eapply bind_run'; [apply (list_len_run _ _ _ (st_diff _ _ _ _ _ _ _ St3))|].
    eapply bind_run'; [exact E4|].
    exact Ev.
Qed.

(** ** A branch, run from start to end *)

Lemma ColorJitter_init_ok : ColorJitter_init 0.4 0.4 0.2 0.1 = Ok color_jitter.
Proof. reflexivity. Qed.

Lemma photometric_stages pol rect uh uv jp p radius ps r (l : list Image) :
  (fun x => if match solarize_threshold pol with
               | Some thr => Qle_bool thr ps
               | None => false
               end then ImageOps_solarize x else x) <$>
  ((fun x => if Qle_bool (blur_threshold pol) p
             then ImageFilter_GaussianBlur radius x else x) <$>
  (jitter_frame jp <$>
  ((fun x => if negb (Qle_bool uv 0.5) then TF_vflip x else x) <$>
  ((fun x => if negb (Qle_bool uh 0.5) then TF_hflip x else x) <$> l))))
  = photometric pol (mkDraws rect uh uv jp p radius ps r) <$> l.
Proof. rewrite <- !list_fmap_compose. reflexivity. Qed.

Lemma branch_run pol inp crops_scale w f0 rest :
  heap w !! inp = Some (PILImage <$> f0 :: rest) →
  let d := sample_draws pol f0 crops_scale (rng w) in
  let cropped := crop_resize pol (d_rect d) <$> f0 :: rest in
  ∃ view w',
    branch pol inp crops_scale w = (Ok view, w') ∧
    stacked view
      (view_slices (frame_tensor <$> (photometric pol d <$> cropped))
                   (diff_tensor <$> difference_images cropped))
      3 [target pol; target pol] ∧
    lists_unchanged w w' ∧ rng w' = d_rng d ∧ stdout w' = stdout w.
Proof.
  intros Hinp d cropped. subst d cropped. unfold sample_draws.
  destruct (stage_init inp _ w Hinp) as (im & df & w1 & Ecopy & Enew & St1).
  destruct (RandomResizedCrop_get_params f0 crops_scale (0.999%Q, 1.001%Q) (rng w))
    as [rect r1] eqn:D1.
  destruct (random_random r1) as [uh r2] eqn:D2.
  destruct (random_random r2) as [uv r3] eqn:D3.
  destruct (ColorJitter_get_params (brightness color_jitter) (contrast color_jitter)
              (saturation color_jitter) (hue color_jitter) r3) as [jp r4] eqn:D4.
  destruct (random_random r4) as [p r5] eqn:D5.
  destruct (if Qle_bool (blur_threshold pol) p then GaussianBlur_radius p r5 else (0%Q, r5))
    as [radius r6] eqn:D6.
  destruct (random_randint 1 100000 r6) as [rnd r7] eqn:D7.
  destruct (match solarize_threshold pol with
            | Some _ => random_random r7
            | None => (0%Q, r7)
            end) as [ps r8] eqn:D8.
  cbn [d_rect d_rng].
  (* the crop *)
  pose proof (list_getitem_run im _ 0 (PILImage f0) w1 (st_images _ _ _ _ _ _ _ St1) eq_refl)
    as Efirst.
  rewrite <- (st_rng _ _ _ _ _ _ _ St1) in D1. apply draw_run in D1.
  pose proof (stage_set_rng _ _ _ _ _ _ _ r1 St1) as St2.
  destruct (stage_inplace_images _ _ _ _ _ _ _ _ _ St2
              (mapM_on_image (crop_resize pol rect) (f0 :: rest))) as (w3 & E3 & St3).
  destruct (stage_diff_loop _ _ _ _ _ _ _ St3) as (w4 & E4 & St4).
  (* the flips *)
  rewrite <- (st_rng _ _ _ _ _ _ _ St4) in D2. apply draw_run in D2.
  pose proof (stage_set_rng _ _ _ _ _ _ _ r2 St4) as St5.
  destruct (stage_flip _ _ _ _ _ _ _ (negb (Qle_bool uh 0.5)) TF_hflip St5)
    as (w6 & E6 & St6).
  rewrite <- (st_rng _ _ _ _ _ _ _ St6) in D3. apply draw_run in D3.
  pose proof (stage_set_rng _ _ _ _ _ _ _ r3 St6) as St7.
  destruct (stage_flip _ _ _ _ _ _ _ (negb (Qle_bool uv 0.5)) TF_vflip St7)
    as (w8 & E8 & St8).
  (* the jitter *)
  rewrite <- (st_rng _ _ _ _ _ _ _ St8) in D4. apply draw_run in D4.
  pose proof (stage_set_rng _ _ _ _ _ _ _ r4 St8) as St9.
  destruct (stage_inplace_images _ _ _ _ _ _ _ _ _ St9
              (mapM_on_image (jitter_frame jp) _)) as (w10 & E10 & St10).
  (* the blur and the solarization *)
  rewrite <- (st_rng _ _ _ _ _ _ _ St10) in D5. apply draw_run in D5.
  pose proof (stage_set_rng _ _ _ _ _ _ _ r5 St10) as St11.
  destruct (stage_blur _ _ _ _ _ _ _ _ p _ _ St11 D6) as (im' & w12 & E12 & St12).
  rewrite <- (st_rng _ _ _ _ _ _ _ St12) in D7. apply draw_run in D7.
  pose proof (stage_set_rng _ _ _ _ _ _ _ r7 St12) as St13.
  destruct (stage_solarize_step _ _ _ _ _ _ _ _ _ _ St13 D8)
    as (im'' & w14 & St14 & E14).
  (* the tensors *)
  rewrite app_nil_l in St14.
  set (cropped := crop_resize pol rect <$> f0 :: rest) in *.
  set (d := mkDraws rect uh uv jp p radius ps r8).
  rewrite (photometric_stages pol rect uh uv jp p radius ps r8) in St14.
  fold d in St14.
  assert (Fc : Forall (fun x => im_size x = (target pol, target pol)) cropped).
  { apply Forall_fmap, Forall_true. intros x. apply crop_resize_size. }
  destruct (stage_to_view _ _ _ _ _ _ _ (target pol) St14) as (view & w15 & E15 & Hv & St15).
  { done. }
  { rewrite difference_images_length, !length_fmap. reflexivity. }
  { apply Forall_fmap. eapply Forall_impl; [exact Fc|].
    intros x Hx. cbn. now rewrite photometric_size. }
  { now apply difference_images_size. }
  exists view, w15. split; [|split; [exact Hv | split; [|split]]].
  - unfold branch. destruct rect as [[[i j] h] w0].
    eapply bind_run'; [exact Ecopy|]. eapply bind_run'; [exact Enew|].
    eapply bind_run'; [exact Efirst|]. cbn [as_image]. rewrite bind_lift_run.
    eapply bind_run'; [exact D1|]. cbv beta iota.
    eapply bind_run'; [apply (list_len_run _ _ _ (st_images _ _ _ _ _ _ _ St2))|].
    eapply bind_run'; [exact E3|].
    eapply bind_run'; [apply (list_len_run _ _ _ (st_images _ _ _ _ _ _ _ St3))|].
    eapply bind_run'; [exact E4|].
    eapply bind_run'; [exact D2|]. eapply bind_run'; [exact E6|].
    eapply bind_run'; [exact D3|]. eapply bind_run'; [exact E8|].
    rewrite ColorJitter_init_ok, bind_lift_run.
    eapply bind_run'; [exact D4|].
    eapply bind_run'; [apply (list_len_run _ _ _ (st_images _ _ _ _ _ _ _ St9))|].
    eapply bind_run'; [exact E10|].
    eapply bind_run'; [exact D5|]. cbv zeta.
    replace (if Qle_bool (blur_threshold pol) p then true else false)
      with (Qle_bool (blur_threshold pol) p)
      by now destruct (Qle_bool (blur_threshold pol) p).
    eapply bind_run'; [exact E12|].
    eapply bind_run'; [exact D7|].
    rewrite E14. exact E15.
  - intros l Hl. exact (st_same _ _ _ _ _ _ _ St15 l Hl).
  - exact (st_rng _ _ _ _ _ _ _ St15).
  - exact (st_out _ _ _ _ _ _ _ St15).
Qed.

Lemma run_branch_eq b : run_branch b = branch (policy_of b).
Proof. now destruct b. Qed.

Lemma target_policy_of b :
  target (policy_of b) = match b with Local => 96 | _ => 224 end.
Proof. now destruct b. Qed.

Lemma d_rect_sample_draws pol f0 crops_scale r :
  d_rect (sample_draws pol f0 crops_scale r)
  = fst (RandomResizedCrop_get_params f0 crops_scale (0.999, 1.001)%Q r).
Proof.
  unfold sample_draws.
  destruct (RandomResizedCrop_get_params _ _ _ r) as [rect r1].
  destruct (random_random r1) as [uh r2].
  destruct (random_random r2) as [uv r3].
  destruct (ColorJitter_get_params _ _ _ _ r3) as [jp r4].
  destruct (random_random r4) as [p r5].
  destruct (if Qle_bool (blur_threshold pol) p then _ else _) as [radius r6].
  destruct (random_randint 1 100000 r6) as [rnd r7].
  now destruct (match solarize_threshold pol with Some _ => _ | None => _ end).
Qed.

(** ** The layout of the view *)

(** C1, as the code has it: on F >= 1 frames every branch transform returns a
    view of shape (3, 2F-1, S, S), with S = 224 for the global branches and
    96 for the local one.  Along axis 1 the slices are, first to last,
    diff[F-2], frame[F-1], diff[F-3], frame[F-2], ..., diff[0], frame[1],
    frame[0], each normalized: frame[0] is the last slice, frame[i] sits at
    2(F-1-i)+1 with diff[i-1] right before it, and for F >= 2 the slice 0 is
    the last difference, not the last frame. *)
Theorem C1_view_layout (b : Branch) (inp : loc) (crops_scale : Q * Q) (w : World)
    (f0 : Image) (rest : list Image) :
  heap w !! inp = Some (PILImage <$> f0 :: rest) →
  let pol := policy_of b in
  let F := length (f0 :: rest) in
  let d := sample_draws pol f0 crops_scale (rng w) in
  let cropped := crop_resize pol (d_rect d) <$> f0 :: rest in
  let imgs := photometric pol d <$> cropped in
  let diffs := difference_images cropped in
  ∃ view w',
    run_branch b inp crops_scale w = (Ok view, w') ∧
    shape view = [3; 2 * Z.of_nat F - 1; target pol; target pol] ∧
    target pol = match b with Local => 96 | _ => 224 end ∧
    length imgs = F ∧ length diffs = (F - 1)%nat ∧
    (∀ im, imgs !! 0%nat = Some im →
       slice_is view (2 * F - 2) (frame_tensor im)) ∧
    (∀ i im dimg, (1 ≤ i < F)%nat →
       imgs !! i = Some im → diffs !! (i - 1)%nat = Some dimg →
       slice_is view (2 * (F - 1 - i) + 1) (frame_tensor im) ∧
       slice_is view (2 * (F - 1 - i)) (diff_tensor dimg)) ∧
    (∀ dimg, (2 ≤ F)%nat → diffs !! (F - 2)%nat = Some dimg →
       slice_is view 0 (diff_tensor dimg)).
Proof.
  intros Hinp pol F d cropped imgs diffs.
  destruct (branch_run pol inp crops_scale w f0 rest Hinp)
    as (view & w' & Erun & [Hshape Hsl] & _).
  fold d cropped imgs diffs in Hshape, Hsl.
  assert (Li : length imgs = F) by (unfold imgs, cropped; now rewrite !length_fmap).
  assert (Ld : length diffs = (F - 1)%nat).
  { unfold diffs. rewrite difference_images_length. unfold cropped.
    now rewrite length_fmap. }
  destruct (view_slices_lookup (frame_tensor <$> imgs) (diff_tensor <$> diffs))
    as (Hlen & H0 & Hi).
  { unfold imgs, cropped. done. }
  { now rewrite !length_fmap, Li. }
  rewrite !length_fmap, Li in Hlen, H0, Hi.
  assert (Slice : ∀ k t, view_slices (frame_tensor <$> imgs) (diff_tensor <$> diffs) !! k
                         = Some t → slice_is view k t).
  { intros k t Hk c0 r. now apply Hsl. }
  exists view, w'. split; [now rewrite run_branch_eq|].
  split; [rewrite Hshape, Hlen; do 2 f_equal; unfold F; cbn [length]; lia|].
  split; [apply target_policy_of|]. split; [exact Li|]. split; [exact Ld|].
  split; [|split].
  - intros im Him. apply Slice. rewrite H0, list_lookup_fmap, Him. reflexivity.
  - intros i im dimg Hr Him Hd. destruct (Hi i Hr) as [Hdi Hii]. split; apply Slice.
    + rewrite Hii, list_lookup_fmap, Him. reflexivity.
    + rewrite Hdi, list_lookup_fmap, Hd. reflexivity.
  - intros dimg HF Hd. destruct (Hi (F - 1)%nat ltac:(lia)) as [Hdi _].
    apply Slice. replace (2 * (F - 1 - (F - 1)))%nat with 0%nat in Hdi by lia.
    replace (F - 1 - 1)%nat with (F - 2)%nat in Hdi by lia.
    rewrite Hdi, list_lookup_fmap, Hd. reflexivity.
Qed.

Lemma branch_run_shape pol (d : Draws) (frames : list Image) view :
  frames ≠ [] →
  stacked view
    (view_slices (frame_tensor <$> (photometric pol d <$> (crop_resize pol (d_rect d) <$> frames)))
       (diff_tensor <$> difference_images (crop_resize pol (d_rect d) <$> frames)))
    3 [target pol; target pol] →
  shape view = [3; 2 * Z.of_nat (length frames) - 1; target pol; target pol].
Proof.
  intros Hne [Hshape _].
  destruct (view_slices_lookup
    (frame_tensor <$> (photometric pol d <$> (crop_resize pol (d_rect d) <$> frames)))
    (diff_tensor <$> difference_images (crop_resize pol (d_rect d) <$> frames)))
    as (Hlen & _).
  { now destruct frames. }
  { now rewrite !length_fmap, difference_images_length, length_fmap. }
  rewrite Hshape, Hlen, !length_fmap. do 2 f_equal.
  destruct frames; [done|]. cbn [length]. lia.
Qed.

(** ** The crop rectangle *)

Lemma inside_true im x y :
  0 <= x < im_width im → 0 <= y < im_height im → inside im x y = true.
Proof.
  intros Hx Hy. unfold inside.
  destruct (Z.leb_spec 0 x), (Z.ltb_spec x (im_width im)),
    (Z.leb_spec 0 y), (Z.ltb_spec y (im_height im)); (reflexivity || lia).
Qed.

Lemma TF_crop_getpixel f i j h w x y :
  0 <= j + x < im_width f → 0 <= i + y < im_height f →
  getpixel (TF_crop f i j h w) x y = getpixel f (j + x) (i + y).
Proof.
  intros Hx Hy. unfold TF_crop, PIL_crop. cbn [getpixel].
  now rewrite inside_true.
Qed.

(** C2: a branch samples one rectangle (i, j, h, w), from its first frame,
    crops every frame at that rectangle and resizes every crop to S x S,
    with S = 224 for the global branches and 96 for the local one: all the
    frames the view is built from have size S x S, and the same offset
    (j, i) leads from a pixel of each crop to the pixel of its frame. *)
Theorem C2_shared_crop (b : Branch) (inp : loc) (crops_scale : Q * Q) (w : World)
    (f0 : Image) (rest : list Image) :
  heap w !! inp = Some (PILImage <$> f0 :: rest) →
  let pol := policy_of b in
  let S := match b with Local => 96 | _ => 224 end in
  let '(i, j, h, wd) :=
    fst (RandomResizedCrop_get_params f0 crops_scale (0.999, 1.001)%Q (rng w)) in
  let d := sample_draws pol f0 crops_scale (rng w) in
  let cropped := (fun f => PIL_resize (TF_crop f i j h wd) (S, S)) <$> f0 :: rest in
  ∃ view w',
    run_branch b inp crops_scale w = (Ok view, w') ∧
    stacked view
      (view_slices (frame_tensor <$> (photometric pol d <$> cropped))
                   (diff_tensor <$> difference_images cropped))
      3 [S; S] ∧
    Forall (fun im => im_size im = (S, S)) cropped ∧
    Forall (fun im => im_size im = (S, S)) (photometric pol d <$> cropped) ∧
    Forall (fun im => im_size im = (S, S)) (difference_images cropped) ∧
    (∀ f x y, f ∈ f0 :: rest →
       0 <= j + x < im_width f → 0 <= i + y < im_height f →
       getpixel (TF_crop f i j h wd) x y = getpixel f (j + x) (i + y)).
Proof.
  intros Hinp pol S.
  destruct (branch_run pol inp crops_scale w f0 rest Hinp)
    as (view & w' & Erun & Hst & _).
  rewrite d_rect_sample_draws in Hst.
  destruct (fst (RandomResizedCrop_get_params f0 crops_scale (0.999, 1.001)%Q (rng w)))
    as [[[i j] h] wd] eqn:Erect.
  intros d cropped.
  assert (ES : target pol = S) by apply target_policy_of.
  assert (Ec : crop_resize pol (i, j, h, wd) <$> f0 :: rest = cropped).
  { unfold cropped, crop_resize. now rewrite ES. }
  rewrite Ec, ES in Hst.
  assert (Fc : Forall (fun im => im_size im = (S, S)) cropped).
  { apply Forall_fmap, Forall_true. intros x. apply PIL_resize_size. }
  exists view, w'. split; [now rewrite run_branch_eq|]. split; [exact Hst|].
  split; [exact Fc|]. split; [|split].
  - apply Forall_fmap. eapply Forall_impl; [exact Fc|].
    intros x Hx. cbn. now rewrite photometric_size.
  - now apply difference_images_size.
  - intros f x y _ Hx Hy. now apply TF_crop_getpixel.
Qed.

(** ** The differences *)

Lemma Qtrunc_inject q z : (q == inject_Z z)%Q → Qtrunc q = z.
Proof.
  intros E. unfold Qtrunc. destruct (Qle_bool 0 q).
  - rewrite (Qfloor_comp _ _ E). apply Qfloor_Z.
  - rewrite (Qceiling_comp _ _ E). apply Qceiling_Z.
Qed.

Lemma chop_subtract_1 offset a b : chop_subtract 1 offset a b = clip8 (a - b + offset).
Proof.
  unfold chop_subtract. f_equal. apply Qtrunc_inject.
  rewrite inject_Z_plus. apply Qplus_comp; [|reflexivity].
  unfold Qdiv. change (/ 1)%Q with 1%Q. apply Qmult_1_r.
Qed.

Lemma subtract_band a b x y c :
  band c (getpixel (ImageChops_subtract a b 1 2) x y)
  = clip8 (band c (getpixel a x y) - band c (getpixel b x y) + 2).
Proof.
  unfold ImageChops_subtract. cbn [getpixel].
  destruct (getpixel a x y) as [[r1 g1] b1], (getpixel b x y) as [[r2 g2] b2].
  unfold map_bands2, band. rewrite !chop_subtract_1.
  now destruct (c =? 0), (c =? 1).
Qed.

Lemma subtract_same a b :
  (∀ x y, getpixel a x y = getpixel b x y) →
  ∀ x y, getpixel (ImageChops_subtract a b 1 2) x y = (2, 2, 2).
Proof.
  intros E x y. unfold ImageChops_subtract. cbn [getpixel]. rewrite E.
  destruct (getpixel b x y) as [[r g] bl]. unfold map_bands2.
  rewrite !chop_subtract_1, !Z.sub_diag. reflexivity.
Qed.

(** C3: the F-1 differences are taken on the frames as the crop and the
    resize leave them, before any flip, jitter, blur or solarization:
    diff[i] = subtract(frame[i], frame[i+1]) with offset 2, that is, band by
    band, clip8 (frame[i] - frame[i+1] + 2) with clip8 the clamp to 0..255;
    the view carries diff[i], normalized, as its slice 2(F-2-i); and two
    frames with the same pixels give a difference whose every pixel is
    (2, 2, 2). *)
Theorem C3_differences (b : Branch) (inp : loc) (crops_scale : Q * Q) (w : World)
    (f0 : Image) (rest : list Image) :
  heap w !! inp = Some (PILImage <$> f0 :: rest) →
  let pol := policy_of b in
  let F := length (f0 :: rest) in
  let d := sample_draws pol f0 crops_scale (rng w) in
  let cropped := crop_resize pol (d_rect d) <$> f0 :: rest in
  let diffs := difference_images cropped in
  ∃ view w',
    run_branch b inp crops_scale w = (Ok view, w') ∧
    length diffs = (F - 1)%nat ∧
    (∀ v, clip8 v = Z.max 0 (Z.min 255 v)) ∧
    (∀ i fa fb, cropped !! i = Some fa → cropped !! S i = Some fb →
       diffs !! i = Some (ImageChops_subtract fa fb 1 2) ∧
       slice_is view (2 * (F - 2 - i)) (diff_tensor (ImageChops_subtract fa fb 1 2)) ∧
       (∀ x y c, band c (getpixel (ImageChops_subtract fa fb 1 2) x y)
                 = clip8 (band c (getpixel fa x y) - band c (getpixel fb x y) + 2)) ∧
       ((∀ x y, getpixel fa x y = getpixel fb x y) →
        ∀ x y, getpixel (ImageChops_subtract fa fb 1 2) x y = (2, 2, 2))).
Proof.
  intros Hinp pol F d cropped diffs.
  destruct (branch_run pol inp crops_scale w f0 rest Hinp)
    as (view & w' & Erun & [Hshape Hsl] & _).
  fold d cropped diffs in Hshape, Hsl.
  set (imgs := photometric pol d <$> cropped) in *.
  assert (Li : length imgs = F) by (unfold imgs, cropped; now rewrite !length_fmap).
  assert (Ld : length diffs = (F - 1)%nat).
  { unfold diffs. rewrite difference_images_length. unfold cropped.
    now rewrite length_fmap. }
  destruct (view_slices_lookup (frame_tensor <$> imgs) (diff_tensor <$> diffs))
    as (Hlen & H0 & Hi).
  { unfold imgs, cropped. done. }
  { now rewrite !length_fmap, Li. }
  rewrite !length_fmap, Li in Hi.
  exists view, w'. split; [now rewrite run_branch_eq|]. split; [exact Ld|].
  split; [intros v; unfold clip8;
          destruct (Z.leb_spec v 0), (Z.leb_spec 255 v); lia|].
  intros i fa fb Ha Hb.
  pose proof (difference_images_lookup _ _ _ _ Ha Hb) as Hd. fold diffs in Hd.
  split; [exact Hd|]. split; [|split].
  - apply lookup_lt_Some in Hb as Hlt. unfold cropped in Hlt.
    rewrite length_fmap in Hlt. fold F in Hlt.
    destruct (Hi (S i) ltac:(lia)) as [Hdi _].
    intros c0 r. apply Hsl.
    replace (F - 2 - i)%nat with (F - 1 - S i)%nat by lia.
    rewrite Hdi. replace (S i - 1)%nat with i by lia.
    now rewrite list_lookup_fmap, Hd.
  - intros x y c. apply subtract_band.
  - apply subtract_same.
Qed.

(** ** The gates of the blur and of the solarization *)

(** C5, as the code has it: the blur of a branch is attempted when an
    independent uniform draw is at least the threshold of the branch, 0.5
    for the first global branch and for the local branches and 0.1 for the
    second global branch, and skipped when the draw falls below it; the
    solarization is attempted by the second global branch only, when a
    further independent draw is at least 0.2. *)
Theorem C5_gates (b : Branch) (inp : loc) (crops_scale : Q * Q) (w : World)
    (f0 : Image) (rest : list Image) :
  heap w !! inp = Some (PILImage <$> f0 :: rest) →
  let pol := policy_of b in
  let d := sample_draws pol f0 crops_scale (rng w) in
  let cropped := crop_resize pol (d_rect d) <$> f0 :: rest in
  ∃ view w',
    run_branch b inp crops_scale w = (Ok view, w') ∧
    stacked view
      (view_slices (frame_tensor <$> (photometric pol d <$> cropped))
                   (diff_tensor <$> difference_images cropped))
      3 [target pol; target pol] ∧
    rng w' = d_rng d ∧
    (blur_gate pol d = true ↔
       (match b with Global2 => 0.1 | _ => 0.5 end <= d_blur d)%Q) ∧
    (solarize_gate pol d = true ↔ b = Global2 ∧ (0.2 <= d_solarize d)%Q).
Proof.
  intros Hinp pol d cropped.
  destruct (branch_run pol inp crops_scale w f0 rest Hinp)
    as (view & w' & Erun & Hst & _ & Hrng & _).
  exists view, w'. split; [now rewrite run_branch_eq|]. split; [exact Hst|].
  split; [exact Hrng|]. split.
  - unfold blur_gate. rewrite Qle_bool_iff. now destruct b.
  - unfold solarize_gate. destruct b; cbn [pol policy_of solarize_threshold policy1
      policy2 policy_local]; rewrite ?Qle_bool_iff; split;
      (discriminate || tauto || (intros [? _]; discriminate) || (intros ?; split; done)).
Qed.

(** ** The jitter *)

Lemma sample_factor_range lo hi r :
  (lo <= hi)%Q →
  ∃ v, fst (sample_factor (Some (lo, hi)) r) = Some v ∧ (lo <= v <= hi)%Q ∧
       snd (sample_factor (Some (lo, hi)) r) = snd (torch_uniform lo hi r).
Proof.
  intros Hle. pose proof (torch_uniform_range lo hi r Hle) as Hr.
  unfold sample_factor. destruct (torch_uniform lo hi r) as [v r'].
  exists v. now split.
Qed.

Lemma ColorJitter_get_params_spec r :
  ∃ fn_idx bf cf sf hf,
    fst (ColorJitter_get_params (brightness color_jitter) (contrast color_jitter)
           (saturation color_jitter) (hue color_jitter) r)
    = (fn_idx, Some bf, Some cf, Some sf, Some hf) ∧
    Permutation fn_idx [0; 1; 2; 3]%nat ∧
    (0.6 <= bf <= 1.4)%Q ∧ (0.6 <= cf <= 1.4)%Q ∧
    (0.8 <= sf <= 1.2)%Q ∧ (-0.1 <= hf <= 0.1)%Q.
Proof.
  unfold ColorJitter_get_params.
  pose proof (torch_randperm_perm 4 r) as Hp.
  destruct (torch_randperm 4 r) as [fn_idx r0]. cbn [fst] in Hp.
  cbn [brightness contrast saturation hue color_jitter].
  destruct (sample_factor_range 0.6 1.4 r0) as (bf & Eb & Hb & Rb); [discriminate|].
  destruct (sample_factor (Some (0.6%Q, 1.4%Q)) r0) as [b1 r1] eqn:E1.
  cbn [fst snd] in Eb, Rb. subst b1.
  destruct (sample_factor_range 0.6 1.4 r1) as (cf & Ec & Hc & Rc); [discriminate|].
  destruct (sample_factor (Some (0.6%Q, 1.4%Q)) r1) as [c1 r2] eqn:E2.
  cbn [fst snd] in Ec, Rc. subst c1.
  destruct (sample_factor_range 0.8 1.2 r2) as (sf & Es & Hs & Rs); [discriminate|].
  destruct (sample_factor (Some (0.8%Q, 1.2%Q)) r2) as [s1 r3] eqn:E3.
  cbn [fst snd] in Es, Rs. subst s1.
  destruct (sample_factor_range (-0.1) 0.1 r3) as (hf & Eh & Hh & Rh); [discriminate|].
  destruct (sample_factor (Some ((-0.1)%Q, 0.1%Q)) r3) as [h1 r4] eqn:E4.
  cbn [fst snd] in Eh, Rh. subst h1.
  exists fn_idx, bf, cf, sf, hf. cbn [fst]. now repeat split.
Qed.

Lemma d_jitter_sample_draws pol f0 crops_scale r :
  ∃ r3, d_jitter (sample_draws pol f0 crops_scale r)
        = fst (ColorJitter_get_params (brightness color_jitter) (contrast color_jitter)
                 (saturation color_jitter) (hue color_jitter) r3).
Proof.
  unfold sample_draws.
  destruct (RandomResizedCrop_get_params _ _ _ r) as [rect r1].
  destruct (random_random r1) as [uh r2].
  destruct (random_random r2) as [uv r3]. exists r3.
  destruct (ColorJitter_get_params _ _ _ _ r3) as [jp r4].
  destruct (random_random r4) as [p r5].
  destruct (if Qle_bool (blur_threshold pol) p then _ else _) as [radius r6].
  destruct (random_randint 1 100000 r6) as [rnd r7].
  now destruct (match solarize_threshold pol with Some _ => _ | None => _ end).
Qed.

Lemma jitter_frame_ops fn_idx bf cf sf hf img :
  jitter_frame (fn_idx, Some bf, Some cf, Some sf, Some hf) img
  = fold_left (jitter_op bf cf sf hf) fn_idx img.
Proof.
  unfold jitter_frame. revert img.
  induction fn_idx as [|fn_id fn_idx IH]; intros img; [done|].
  cbn [fold_left]. rewrite IH. f_equal.
  now destruct fn_id as [|[|[|[|?]]]].
Qed.

(** C6, as the code has it: a branch samples one order [fn_idx] of the four
    operations, a permutation of 0..3, and one factor for each, brightness
    and contrast from [0.6, 1.4], saturation from [0.8, 1.2] and hue from
    [-0.1, 0.1]; every frame of the branch goes through the four operations
    in that order with those factors. *)
Theorem C6_jitter (b : Branch) (inp : loc) (crops_scale : Q * Q) (w : World)
    (f0 : Image) (rest : list Image) :
  heap w !! inp = Some (PILImage <$> f0 :: rest) →
  let pol := policy_of b in
  let d := sample_draws pol f0 crops_scale (rng w) in
  let cropped := crop_resize pol (d_rect d) <$> f0 :: rest in
  ∃ view w' fn_idx bf cf sf hf,
    run_branch b inp crops_scale w = (Ok view, w') ∧
    d_jitter d = (fn_idx, Some bf, Some cf, Some sf, Some hf) ∧
    Permutation fn_idx [0; 1; 2; 3]%nat ∧
    (0.6 <= bf <= 1.4)%Q ∧ (0.6 <= cf <= 1.4)%Q ∧
    (0.8 <= sf <= 1.2)%Q ∧ (-0.1 <= hf <= 0.1)%Q ∧
    stacked view
      (view_slices (frame_tensor <$> (photometric pol d <$> cropped))
                   (diff_tensor <$> difference_images cropped))
      3 [target pol; target pol] ∧
    (∀ img, jitter_frame (d_jitter d) img = fold_left (jitter_op bf cf sf hf) fn_idx img).
Proof.
  intros Hinp pol d cropped.
  destruct (branch_run pol inp crops_scale w f0 rest Hinp)
    as (view & w' & Erun & Hst & _).
  destruct (d_jitter_sample_draws pol f0 crops_scale (rng w)) as (r3 & Ej).
  destruct (ColorJitter_get_params_spec r3)
    as (fn_idx & bf & cf & sf & hf & Ep & Hp & Hb & Hc & Hs & Hh).
  fold d in Ej. rewrite Ep in Ej.
  exists view, w', fn_idx, bf, cf, sf, hf.
  split; [now rewrite run_branch_eq|].
  repeat (split; [done|]). intros img. rewrite Ej. apply jitter_frame_ops.
Qed.

(** ** The caller's list *)

Lemma bind_raise {A B} (m : M A) (k : A → M B) w e w' :
  m w = (Raise e, w') → (m ≫= k) w = (Raise e, w').
Proof. intros E. unfold mbind, M_bind. now rewrite E. Qed.

Lemma list_getitem_raise l xs i w :
  heap w !! l = Some xs → xs !! i = None →
  list_getitem l i w = (Raise IndexError, w).
Proof.
  intros E Ei. unfold list_getitem.
  rewrite (bind_run _ _ _ _ _ (list_read_run _ _ _ E)). now rewrite Ei.
Qed.

Lemma branch_empty pol inp crops_scale w :
  heap w !! inp = Some [] →
  ∃ w', branch pol inp crops_scale w = (Raise IndexError, w') ∧
        lists_unchanged w w' ∧ stdout w' = stdout w.
Proof.
  intros Hinp.
  destruct (stage_init inp _ w Hinp) as (im & df & w1 & Ecopy & Enew & St).
  exists w1. split; [|split].
  - unfold branch.
    eapply bind_run'; [exact Ecopy|]. eapply bind_run'; [exact Enew|].
    apply bind_raise.
    exact (list_getitem_raise _ _ _ _ (st_images _ _ _ _ _ _ _ St) eq_refl).
  - intros l Hl. exact (st_same _ _ _ _ _ _ _ St l Hl).
  - exact (st_out _ _ _ _ _ _ _ St).
Qed.

Lemma branch_keeps pol inp crops_scale w frames :
  heap w !! inp = Some (PILImage <$> frames) →
  ∃ res w', branch pol inp crops_scale w = (res, w') ∧
            lists_unchanged w w' ∧ stdout w' = stdout w ∧
            (frames ≠ [] → ∃ view, res = Ok view) ∧
            (frames = [] → res = Raise IndexError).
Proof.
  intros Hinp. destruct frames as [|f0 rest].
  - destruct (branch_empty pol inp crops_scale w Hinp) as (w' & E & Hu & Ho).
    exists (Raise IndexError), w'. now repeat split.
  - destruct (branch_run pol inp crops_scale w f0 rest Hinp)
      as (view & w' & E & _ & Hu & _ & Ho).
    exists (Ok view), w'. repeat split; try done. intros _. now exists view.
Qed.

Lemma lists_unchanged_lookup w w' l xs :
  lists_unchanged w w' → heap w !! l = Some xs → heap w' !! l = Some xs.
Proof.
  intros Hu E. rewrite Hu; [done|]. apply elem_of_dom. eauto.
Qed.

(** ** The call *)

Lemma split_frames_run image w :
  ∃ images w0,
    split_frames image w = (Ok images, w0) ∧
    heap w0 !! images = Some (PILImage <$> crop image 480 640) ∧
    stdout w0 = stdout w ++ (if decide (im_size image = (640, 1920)) then []
                             else ["ERROR!"%string]) ∧
    rng w0 = rng w ∧ lists_unchanged w w0.
Proof.
  unfold split_frames.
  assert (Hnew : ∀ w1 : World,
    ∃ images w0, list_new (PILImage <$> crop image 480 640) w1 = (Ok images, w0) ∧
      heap w0 !! images = Some (PILImage <$> crop image 480 640) ∧
      stdout w0 = stdout w1 ∧ rng w0 = rng w1 ∧ lists_unchanged w1 w0).
  { intros w1. do 2 eexists. split; [reflexivity|].
    rewrite heap_set_heap. split; [apply lookup_insert_eq|].
    split; [done|]. split; [done|].
    intros l Hl. rewrite heap_set_heap, lookup_insert_ne; [done|].
    intros <-. now apply is_fresh in Hl. }
  destruct (decide (im_size image = (640, 1920))) as [E|E].
  - rewrite decide_False by (intros HH; now apply HH).
    destruct (Hnew w) as (images & w0 & E0 & Hh & Ho & Hr & Hu).
    exists images, w0. split; [exact E0|]. split; [exact Hh|].
    split; [now rewrite app_nil_r|]. now split.
  - rewrite decide_True by done.
    destruct (Hnew (set_stdout (stdout w ++ ["ERROR!"%string]) w))
      as (images & w0 & E0 & Hh & Ho & Hr & Hu).
    exists images, w0. split; [exact E0|]. split; [exact Hh|].
    split; [exact Ho|]. now split.
Qed.

Lemma py_range_length n step :
  length (py_range 0 n step) = Z.to_nat (tile_count n step).
Proof.
  unfold py_range, tile_count. rewrite length_map, length_seq.
  now rewrite Z.sub_0_r.
Qed.

Lemma py_range_elem n step x :
  0 < step → In x (py_range 0 n step) → 0 <= x < n ∧ ∃ k, x = k * step.
Proof.
  intros Hs Hin. unfold py_range in Hin. apply in_map_iff in Hin as (k & <- & Hk).
  apply in_seq in Hk. rewrite Z.sub_0_r in Hk.
  destruct (Z.leb_spec n 0) as [Hn|Hn]; [simpl in Hk; lia|].
  split; [|exists (Z.of_nat k); lia].
  assert (Hq : Z.of_nat k <= (n - 1) / step) by lia.
  pose proof (Z.mul_div_le (n - 1) step Hs).
  split; [lia|]. nia.
Qed.

Lemma crop_length im height width :
  length (crop im height width)
  = (Z.to_nat (tile_count (im_height im) height) *
     Z.to_nat (tile_count (im_width im) width))%nat.
Proof.
  rewrite crop_boxes_spec, length_map. unfold crop_boxes.
  rewrite <- !py_range_length.
  induction (py_range 0 (im_height im) height) as [|i rows IH]; [done|].
  cbn [flat_map length]. rewrite length_app, length_map, IH. lia.
Qed.

Lemma crop_tile im height width tile :
  0 < height → 0 < width → In tile (crop im height width) →
  ∃ x0 y0, 0 <= x0 < im_width im ∧ 0 <= y0 < im_height im ∧
           tile = PIL_crop im (x0, y0, x0 + width, y0 + height).
Proof.
  intros Hh Hw Hin. rewrite crop_boxes_spec in Hin.
  apply in_map_iff in Hin as (box & <- & Hbox). unfold crop_boxes in Hbox.
  apply in_flat_map in Hbox as (i & Hi & Hbox).
  apply in_map_iff in Hbox as (j & <- & Hj).
  apply py_range_elem in Hi as [Hi _]; [|done].
  apply py_range_elem in Hj as [Hj _]; [|done].
  now exists j, i.
Qed.

Lemma crop_nonempty im :
  0 < im_width im → 0 < im_height im → ∃ f0 rest, crop im 480 640 = f0 :: rest.
Proof.
  intros Hw Hh. pose proof (crop_length im 480 640) as Hl.
  destruct (crop im 480 640) as [|f0 rest]; [|eauto].
  exfalso. unfold tile_count in Hl.
  destruct (Z.leb_spec (im_height im) 0), (Z.leb_spec (im_width im) 0); try lia.
  pose proof (Z.div_pos (im_height im - 1) 480).
  pose proof (Z.div_pos (im_width im - 1) 640).
  cbn [length] in Hl. nia.
Qed.

(** C8: a composite of size 640 x 1920 (width x height) is split into
    exactly four frames of 640 x 480, top to bottom; the pixel (x, y) of
    the frame k is the pixel (x, 480 k + y) of the composite; nothing is
    logged and the list [images] holds these four frames. *)
Theorem C8_four_frames (image : Image) (w : World) :
  im_size image = (640, 1920) →
  crop image 480 640
  = [PIL_crop image (0, 0, 640, 480); PIL_crop image (0, 480, 640, 960);
     PIL_crop image (0, 960, 640, 1440); PIL_crop image (0, 1440, 640, 1920)] ∧
  (∀ (k : nat) tile, crop image 480 640 !! k = Some tile →
     im_size tile = (640, 480) ∧
     ∀ x y, 0 <= x < 640 → 0 <= y < 480 →
       getpixel tile x y = getpixel image x (480 * Z.of_nat k + y)) ∧
  ∃ images w',
    split_frames image w = (Ok images, w') ∧
    heap w' !! images = Some (PILImage <$> crop image 480 640) ∧
    stdout w' = stdout w.
Proof.
  intros Hsize.
  assert (Ec : crop image 480 640
    = [PIL_crop image (0, 0, 640, 480); PIL_crop image (0, 480, 640, 960);
       PIL_crop image (0, 960, 640, 1440); PIL_crop image (0, 1440, 640, 1920)]).
  { rewrite crop_boxes_spec. unfold crop_boxes, im_width, im_height.
    rewrite Hsize. reflexivity. }
  split; [exact Ec|]. split.
  - rewrite Ec. intros k tile Hk.
    assert (Hin : ∀ x y, 0 <= x < 640 → 0 <= y < 1920 → inside image x y = true).
    { intros x y Hx Hy. apply inside_true; unfold im_width, im_height;
        rewrite Hsize; cbn [fst snd]; lia. }
    destruct k as [|[|[|[|k]]]]; try done; injection Hk as <-;
      (split; [reflexivity|]); intros x y Hx Hy; cbn [PIL_crop getpixel];
      rewrite Hin by lia; f_equal; lia.
  - destruct (split_frames_run image w) as (images & w' & E & Hh & Ho & _).
    exists images, w'. split; [exact E|]. split; [exact Hh|].
    rewrite Ho, decide_True by done. apply app_nil_r.
Qed.

(** C9, as the code has it: the split never raises.  When the size of the
    composite is not 640 x 1920 the line "ERROR!" is printed and the split
    goes on.  No tile is dropped: a side of extent n takes
    [tile_count n step] tiles, the least number that covers it, so a
    composite whose sides are not multiples of the tile keeps its trailing
    tiles; every tile starts inside the composite, has size 640 x 480, and
    is filled with zeros where it reaches beyond the composite. *)
Theorem C9_split_total (image : Image) (w : World) :
  ∃ images w',
    split_frames image w = (Ok images, w') ∧
    stdout w' = stdout w ++ (if decide (im_size image = (640, 1920)) then []
                             else ["ERROR!"%string]) ∧
    heap w' !! images = Some (PILImage <$> crop image 480 640) ∧
    length (crop image 480 640)
    = (Z.to_nat (tile_count (im_height image) 480) *
       Z.to_nat (tile_count (im_width image) 640))%nat ∧
    (∀ tile, In tile (crop image 480 640) →
       ∃ x0 y0, 0 <= x0 < im_width image ∧ 0 <= y0 < im_height image ∧
         tile = PIL_crop image (x0, y0, x0 + 640, y0 + 480) ∧
         im_size tile = (640, 480) ∧
         ∀ x y, getpixel tile x y
                = if inside image (x0 + x) (y0 + y)
                  then getpixel image (x0 + x) (y0 + y) else black).
Proof.
  destruct (split_frames_run image w) as (images & w' & E & Hh & Ho & _).
  exists images, w'. split; [exact E|]. split; [exact Ho|]. split; [exact Hh|].
  split; [apply crop_length|].
  intros tile Hin. destruct (crop_tile image 480 640 tile) as (x0 & y0 & Hx & Hy & ->);
    try done.
  exists x0, y0. split; [exact Hx|]. split; [exact Hy|]. split; [reflexivity|].
  split; [cbn [PIL_crop im_size]; f_equal; lia | reflexivity].
Qed.

Lemma local_loop images scale f0 rest : ∀ (ks : list nat) crops w,
  heap w !! images = Some (PILImage <$> f0 :: rest) →
  ∃ ls w',
    for_each ks (local_loop_body images scale) crops w = (Ok (crops ++ ls), w') ∧
    length ls = length ks ∧
    local_runs images scale (PILImage <$> f0 :: rest) w ls w' ∧
    heap w' !! images = Some (PILImage <$> f0 :: rest) ∧
    stdout w' = stdout w ∧
    Forall (fun v => shape v = [3; 2 * Z.of_nat (length (f0 :: rest)) - 1; 96; 96]) ls.
Proof.
  induction ks as [|k ks IH]; intros crops w Hh.
  - exists [], w. rewrite app_nil_r. repeat split; try done. constructor.
  - destruct (branch_run policy_local images scale w f0 rest Hh)
      as (v & w1 & Ev & Hst & Hu & _ & Ho).
    rewrite <- local_transfo_branch in Ev.
    pose proof (lists_unchanged_lookup _ _ _ _ Hu Hh) as Hh1.
    destruct (IH (crops ++ [v]) w1 Hh1) as (ls & w' & El & Hl & Hr & Hh' & Ho' & Hs).
    exists (v :: ls), w'. split; [|split; [|split; [|split; [|split]]]].
    + assert (Eb : local_loop_body images scale k crops w = (Ok (crops ++ [v]), w1)).
      { unfold local_loop_body. eapply bind_run'; [exact Ev | reflexivity]. }
      cbn [for_each]. eapply bind_run'; [exact Eb|].
      rewrite El, <- app_assoc. reflexivity.
    + cbn [length]. now rewrite Hl.
    + econstructor; eassumption.
    + exact Hh'.
    + now rewrite Ho'.
    + apply Forall_cons. split; [|exact Hs].
      eapply (branch_run_shape policy_local _ (f0 :: rest) v); [done | exact Hst].
Qed.

Lemma call_run self image w f0 rest :
  crop image 480 640 = f0 :: rest →
  let frames := PILImage <$> f0 :: rest in
  let F := Z.of_nat (length (f0 :: rest)) in
  ∃ images w0 g1 w1 g2 w2 ls w',
    split_frames image w = (Ok images, w0) ∧
    heap w0 !! images = Some frames ∧
    transfo1 images (global_crops_scale self) w0 = (Ok g1, w1) ∧
    heap w1 !! images = Some frames ∧
    transfo2 images (global_crops_scale self) w1 = (Ok g2, w2) ∧
    heap w2 !! images = Some frames ∧
    local_runs images (local_crops_scale self) frames w2 ls w' ∧
    heap w' !! images = Some frames ∧
    length ls = Z.to_nat (local_crops_number self) ∧
    DataAugmentationDINO_call self image w = (Ok (g1 :: g2 :: ls), w') ∧
    shape g1 = [3; 2 * F - 1; 224; 224] ∧
    shape g2 = [3; 2 * F - 1; 224; 224] ∧
    Forall (fun v => shape v = [3; 2 * F - 1; 96; 96]) ls.
Proof.
  intros Ec frames F.
  destruct (split_frames_run image w) as (images & w0 & E0 & Hh0 & _).
  rewrite Ec in Hh0.
  destruct (branch_run policy1 images (global_crops_scale self) w0 f0 rest Hh0)
    as (g1 & w1 & E1 & Hst1 & Hu1 & _).
  rewrite <- transfo1_branch in E1.
  pose proof (lists_unchanged_lookup _ _ _ _ Hu1 Hh0) as Hh1.
  destruct (branch_run policy2 images (global_crops_scale self) w1 f0 rest Hh1)
    as (g2 & w2 & E2 & Hst2 & Hu2 & _).
  rewrite <- transfo2_branch in E2.
  pose proof (lists_unchanged_lookup _ _ _ _ Hu2 Hh1) as Hh2.
  destruct (local_loop images (local_crops_scale self) f0 rest
              (seq 0 (Z.to_nat (local_crops_number self))) [g1; g2] w2 Hh2)
    as (ls & w' & El & Hl & Hr & Hh' & _ & Hs).
  rewrite length_seq in Hl.
  exists images, w0, g1, w1, g2, w2, ls, w'.
  repeat (split; [done|]).
  split; [|split; [|split]].
  - unfold DataAugmentationDINO_call.
    eapply bind_run'; [exact E0|]. cbv zeta.
    eapply bind_run'; [exact E1|].
    eapply bind_run'; [exact E2|].
    eapply bind_run'; [exact El|]. reflexivity.
  - eapply (branch_run_shape policy1 _ (f0 :: rest) g1); [done | exact Hst1].
  - eapply (branch_run_shape policy2 _ (f0 :: rest) g2); [done | exact Hst2].
  - exact Hs.
Qed.

(** C4: on a composite of positive size, [__call__] returns the list
    [global_view_1, global_view_2, local_view_1, ..., local_view_N], of
    length 2 + N for N = local_crops_number >= 0: the first view is what
    [transfo1] returned, the second what [transfo2] returned after it, the
    others what the N runs of [local_transfo] returned, in their order.  The
    global views are 224 x 224 and the local ones 96 x 96; with N = 0 the
    list is the two global views. *)
Theorem C4_sample (self : DataAugmentationDINO) (image : Image) (w : World) :
  0 < im_width image → 0 < im_height image →
  let frames := PILImage <$> crop image 480 640 in
  let F := Z.of_nat (length (crop image 480 640)) in
  ∃ images w0 g1 w1 g2 w2 ls w',
    DataAugmentationDINO_call self image w = (Ok (g1 :: g2 :: ls), w') ∧
    Z.of_nat (length (g1 :: g2 :: ls)) = 2 + Z.max 0 (local_crops_number self) ∧
    (local_crops_number self = 0 → ls = []) ∧
    split_frames image w = (Ok images, w0) ∧
    transfo1 images (global_crops_scale self) w0 = (Ok g1, w1) ∧
    transfo2 images (global_crops_scale self) w1 = (Ok g2, w2) ∧
    local_runs images (local_crops_scale self) frames w2 ls w' ∧
    shape g1 = [3; 2 * F - 1; 224; 224] ∧
    shape g2 = [3; 2 * F - 1; 224; 224] ∧
    Forall (fun v => shape v = [3; 2 * F - 1; 96; 96]) ls.
Proof.
  intros Hw Hh frames F.
  destruct (crop_nonempty image Hw Hh) as (f0 & rest & Ec).
  destruct (call_run self image w f0 rest Ec)
    as (images & w0 & g1 & w1 & g2 & w2 & ls & w' & E0 & _ & E1 & _ & E2 & _ & Hr & _
        & Hl & Ecall & S1 & S2 & Sl).
  unfold frames, F. rewrite Ec.
  exists images, w0, g1, w1, g2, w2, ls, w'.
  split; [exact Ecall|]. split; [cbn [length]; lia|].
  split; [intros HN; rewrite HN in Hl; now destruct ls|].
  now repeat split.
Qed.

(** C10: a branch transform leaves every list of its caller as it was, the
    list of frames it was given among them, whether it returns a view (on
    one frame or more) or raises (on none); so in [__call__] the list
    [images] holds the frames of the split when [transfo1] starts, when
    [transfo2] starts, at the start of every run of [local_transfo], and at
    the end. *)
Theorem C10_caller_list_unchanged (b : Branch) (inp : loc) (crops_scale : Q * Q)
    (w : World) (frames : list Image) (self : DataAugmentationDINO) (image : Image)
    (wc : World) :
  (heap w !! inp = Some (PILImage <$> frames) →
   ∃ res w',
     run_branch b inp crops_scale w = (res, w') ∧
     lists_unchanged w w' ∧
     heap w' !! inp = Some (PILImage <$> frames) ∧
     (frames ≠ [] → ∃ view, res = Ok view)) ∧
  (0 < im_width image → 0 < im_height image →
   let split := PILImage <$> crop image 480 640 in
   ∃ images w0 g1 w1 g2 w2 ls w',
     DataAugmentationDINO_call self image wc = (Ok (g1 :: g2 :: ls), w') ∧
     split_frames image wc = (Ok images, w0) ∧
     heap w0 !! images = Some split ∧
     transfo1 images (global_crops_scale self) w0 = (Ok g1, w1) ∧
     heap w1 !! images = Some split ∧
     transfo2 images (global_crops_scale self) w1 = (Ok g2, w2) ∧
     heap w2 !! images = Some split ∧
     local_runs images (local_crops_scale self) split w2 ls w' ∧
     heap w' !! images = Some split).
Proof.
  split.
  - intros Hinp. rewrite run_branch_eq.
    destruct (branch_keeps (policy_of b) inp crops_scale w frames Hinp)
      as (res & w' & E & Hu & _ & Hok & _).
    exists res, w'. split; [exact E|]. split; [exact Hu|].
    split; [exact (lists_unchanged_lookup _ _ _ _ Hu Hinp) | exact Hok].
  - intros Hw Hh split.
    destruct (crop_nonempty image Hw Hh) as (f0 & rest & Ec).
    destruct (call_run self image wc f0 rest Ec)
      as (images & w0 & g1 & w1 & g2 & w2 & ls & w' & E0 & H0 & E1 & H1 & E2 & H2 & Hr
          & H' & _ & Ecall & _).
    unfold split. rewrite Ec.
    exists images, w0, g1, w1, g2, w2, ls, w'. now repeat split.
Qed.

(** ** More on the split *)

Lemma py_range_lookup n step (k : nat) :
  Z.of_nat k < tile_count n step →
  py_range 0 n step !! k = Some (Z.of_nat k * step).
Proof.
  intros Hk. unfold py_range, tile_count in *. rewrite Z.sub_0_r.
  change (List.map ?f ?l) with (f <$> l).
  rewrite list_lookup_fmap, lookup_seq_lt by lia. reflexivity.
Qed.

Lemma flat_map_lookup_rows {A B} (f : A → list B) (n : nat) (l : list A) :
  (∀ a, length (f a) = n) →
  ∀ (r c : nat) a b, l !! r = Some a → f a !! c = Some b →
  flat_map f l !! (r * n + c)%nat = Some b.
Proof.
  intros Hn. induction l as [|x l IH]; intros r c a b Hr Hc; [done|].
  cbn [flat_map]. destruct r as [|r].
  - injection Hr as ->. apply lookup_lt_Some in Hc as Hlt.
    rewrite lookup_app_l by (simpl; lia). exact Hc.
  - rewrite lookup_app_r by (rewrite Hn; lia).
    rewrite Hn. replace (S r * n + c - n)%nat with (r * n + c)%nat by lia.
    eapply IH; eassumption.
Qed.

Lemma tile_index_bound n step v :
  0 < step → 0 <= v < n → 0 <= v / step < tile_count n step.
Proof.
  intros Hs Hv. unfold tile_count.
  destruct (Z.leb_spec n 0); [lia|].
  split; [apply Z.div_pos; lia|].
  assert (v / step <= (n - 1) / step) by (apply Z.div_le_mono; lia). lia.
Qed.

(** X1: the split loses no pixel.  The pixel (X, Y) of the composite is the
    pixel (X mod 640, Y mod 480) of the tile of index
    (Y / 480) * columns + X / 640, the tiles being counted row by row. *)
Theorem crop_covers_composite (image : Image) (X Y : Z) :
  0 <= X < im_width image → 0 <= Y < im_height image →
  let columns := tile_count (im_width image) 640 in
  ∃ tile,
    crop image 480 640 !! Z.to_nat (Y / 480 * columns + X / 640) = Some tile ∧
    tile = PIL_crop image (X / 640 * 640, Y / 480 * 480,
                           X / 640 * 640 + 640, Y / 480 * 480 + 480) ∧
    getpixel tile (X mod 640) (Y mod 480) = getpixel image X Y.
Proof.
  intros HX HY columns.
  pose proof (tile_index_bound (im_width image) 640 X ltac:(lia) HX) as Hc.
  pose proof (tile_index_bound (im_height image) 480 Y ltac:(lia) HY) as Hr.
  fold columns in Hc.
  eexists. split; [|split; [reflexivity|]].
  - rewrite crop_boxes_spec, list_lookup_fmap. unfold crop_boxes.
    replace (Z.to_nat (Y / 480 * columns + X / 640))
      with (Z.to_nat (Y / 480) * Z.to_nat columns + Z.to_nat (X / 640))%nat by lia.
    erewrite (flat_map_lookup_rows _ (Z.to_nat columns)).
    + reflexivity.
    + intros a. rewrite length_map, py_range_length. reflexivity.
    + apply py_range_lookup. lia.
    + change (List.map ?f ?l) with (f <$> l). rewrite list_lookup_fmap.
      rewrite py_range_lookup by lia. cbn [fmap option_fmap option_map].
      rewrite !Z2Nat.id by lia. reflexivity.
  - cbn [PIL_crop getpixel].
    replace (X / 640 * 640 + X mod 640) with X
      by (pose proof (Z.div_mod X 640); lia).
    replace (Y / 480 * 480 + Y mod 480) with Y
      by (pose proof (Z.div_mod Y 480); lia).
    now rewrite inside_true.
Qed.

(** ** More on the call and on the branches *)

Lemma run_injective {A} (m : M A) w r1 w1 r2 w2 :
  m w = (r1, w1) → m w = (r2, w2) → r1 = r2 ∧ w1 = w2.
Proof. intros E1 E2. rewrite E1 in E2. now injection E2. Qed.

Lemma local_runs_quiet images scale f0 rest w ls w' :
  local_runs images scale (PILImage <$> f0 :: rest) w ls w' →
  stdout w' = stdout w.
Proof.
  induction 1 as [|w v w1 vs w2 Hh Ev _ IH]; [done|].
  destruct (branch_run policy_local images scale w f0 rest Hh)
    as (v' & w1' & Ev' & _ & _ & _ & Ho).
  rewrite <- local_transfo_branch in Ev'.
  destruct (run_injective _ _ _ _ _ _ Ev Ev') as [_ ->]. now rewrite IH.
Qed.

(** X2: on a composite of positive size [__call__] returns its 2 + N views
    whatever the size is, and prints one line, "ERROR!", when the size is
    not 640 x 1920 and nothing when it is: the branch transforms print
    nothing.  The views have 2F - 1 slices for the F tiles the split cut. *)
Theorem call_prints_once (self : DataAugmentationDINO) (image : Image) (w : World) :
  0 < im_width image → 0 < im_height image →
  let F := Z.of_nat (Z.to_nat (tile_count (im_height image) 480) *
                     Z.to_nat (tile_count (im_width image) 640)) in
  ∃ g1 g2 ls w',
    DataAugmentationDINO_call self image w = (Ok (g1 :: g2 :: ls), w') ∧
    stdout w' = stdout w ++ (if decide (im_size image = (640, 1920)) then []
                             else ["ERROR!"%string]) ∧
    length ls = Z.to_nat (local_crops_number self) ∧
    shape g1 = [3; 2 * F - 1; 224; 224] ∧
    shape g2 = [3; 2 * F - 1; 224; 224] ∧
    Forall (fun v => shape v = [3; 2 * F - 1; 96; 96]) ls.
Proof.
  intros Hw Hh F.
  destruct (crop_nonempty image Hw Hh) as (f0 & rest & Ec).
  destruct (call_run self image w f0 rest Ec)
    as (images & w0 & g1 & w1 & g2 & w2 & ls & w' & E0 & H0 & E1 & H1 & E2 & H2 & Hr
        & _ & Hl & Ecall & S1 & S2 & Sl).
  destruct (split_frames_run image w) as (images' & w0' & E0' & _ & Ho0 & _).
  destruct (run_injective _ _ _ _ _ _ E0 E0') as [_ <-].
  destruct (branch_run policy1 images (global_crops_scale self) w0 f0 rest H0)
    as (g1' & w1' & E1' & _ & _ & _ & Ho1).
  rewrite <- transfo1_branch in E1'.
  destruct (run_injective _ _ _ _ _ _ E1 E1') as [_ <-].
  destruct (branch_run policy2 images (global_crops_scale self) w1 f0 rest H1)
    as (g2' & w2' & E2' & _ & _ & _ & Ho2).
  rewrite <- transfo2_branch in E2'.
  destruct (run_injective _ _ _ _ _ _ E2 E2') as [_ <-].
  pose proof (local_runs_quiet _ _ _ _ _ _ _ Hr) as Hol.
  assert (EF : F = Z.of_nat (length (f0 :: rest))).
  { unfold F. now rewrite <- crop_length, Ec. }
  rewrite EF. exists g1, g2, ls, w'. split; [exact Ecall|].
  split; [now rewrite Hol, Ho2, Ho1, Ho0|]. now repeat split.
Qed.

(** X3: a composite with no column or no row gives no tile, and [__call__]
    raises IndexError from the first branch transform, after "ERROR!" was
    printed. *)
Theorem call_empty_composite (self : DataAugmentationDINO) (image : Image) (w : World) :
  im_width image = 0 ∨ im_height image = 0 →
  crop image 480 640 = [] ∧
  ∃ w',
    DataAugmentationDINO_call self image w = (Raise IndexError, w') ∧
    stdout w' = stdout w ++ ["ERROR!"%string].
Proof.
  intros Hz.
  assert (Ec : crop image 480 640 = []).
  { apply length_zero_iff_nil. rewrite crop_length. unfold tile_count.
    destruct Hz as [-> | ->]; cbn; lia. }
  split; [exact Ec|].
  destruct (split_frames_run image w) as (images & w0 & E0 & H0 & Ho0 & _).
  rewrite Ec in H0.
  destruct (branch_empty policy1 images (global_crops_scale self) w0 H0)
    as (w' & E1 & _ & Ho1).
  rewrite <- transfo1_branch in E1.
  exists w'. split.
  - unfold DataAugmentationDINO_call.
    eapply bind_run'; [exact E0|]. cbv zeta. now apply bind_raise.
  - rewrite Ho1, Ho0. rewrite decide_False; [done|].
    intros Es. unfold im_width, im_height in Hz. rewrite Es in Hz.
    cbn in Hz. lia.
Qed.

(** X4: on an empty list of frames every branch transform raises
    IndexError, at [images[0]]: no random value was drawn, nothing was
    printed, and the lists of the caller are as they were. *)
Theorem branch_on_no_frame (b : Branch) (inp : loc) (crops_scale : Q * Q) (w : World) :
  heap w !! inp = Some [] →
  ∃ w',
    run_branch b inp crops_scale w = (Raise IndexError, w') ∧
    lists_unchanged w w' ∧ rng w' = rng w ∧ stdout w' = stdout w.
Proof.
  intros Hinp. rewrite run_branch_eq.
  destruct (stage_init inp _ w Hinp) as (im & df & w1 & Ecopy & Enew & St).
  exists w1. split; [|split; [|split]].
  - unfold branch.
    eapply bind_run'; [exact Ecopy|]. eapply bind_run'; [exact Enew|].
    apply bind_raise.
    exact (list_getitem_raise _ _ _ _ (st_images _ _ _ _ _ _ _ St) eq_refl).
  - intros l Hl. exact (st_same _ _ _ _ _ _ _ St l Hl).
  - exact (st_rng _ _ _ _ _ _ _ St).
  - exact (st_out _ _ _ _ _ _ _ St).
Qed.

Lemma clip8_range v : 0 <= clip8 v <= 255.
Proof. unfold clip8. destruct (Z.leb_spec v 0), (Z.leb_spec 255 v); lia. Qed.

Lemma diff_tensor_entry_range (fa fb : Image) (x y : Z) :
  Qin 0 (1 / 0.229) (item (diff_tensor (ImageChops_subtract fa fb 1 2)) [0; y; x]) ∧
  Qin 0 (1 / 0.224) (item (diff_tensor (ImageChops_subtract fa fb 1 2)) [1; y; x]) ∧
  Qin 0 (1 / 0.225) (item (diff_tensor (ImageChops_subtract fa fb 1 2)) [2; y; x]).
Proof.
  assert (Hb : ∀ c, (0 <= inject_Z (band c (getpixel (ImageChops_subtract fa fb 1 2) x y))
                     <= 255)%Q).
  { intros c. rewrite subtract_band.
    pose proof (clip8_range (band c (getpixel fa x y) - band c (getpixel fb x y) + 2)) as Hr.
    split; [change 0%Q with (inject_Z 0) | change 255%Q with (inject_Z 255)];
      rewrite <- Zle_Qle; lia. }
  unfold Qin, diff_tensor, normalize_entries, ToTensor. cbn [item].
  change (nth (Z.to_nat 0) zero_mean 0%Q) with 0%Q.
  change (nth (Z.to_nat 1) zero_mean 0%Q) with 0%Q.
  change (nth (Z.to_nat 2) zero_mean 0%Q) with 0%Q.
  change (nth (Z.to_nat 0) imagenet_std 1%Q) with 0.229%Q.
  change (nth (Z.to_nat 1) imagenet_std 1%Q) with 0.224%Q.
  change (nth (Z.to_nat 2) imagenet_std 1%Q) with 0.225%Q.
  pose proof (Hb 0) as H0. pose proof (Hb 1) as H1. pose proof (Hb 2) as H2.
  clear Hb.
  set (v0 := inject_Z (band 0 _)) in *. set (v1 := inject_Z (band 1 _)) in *.
  set (v2 := inject_Z (band 2 _)) in *. clearbody v0 v1 v2.
  unfold Qdiv. change (/ 255)%Q with (1 # 255)%Q.
  change (/ 0.229)%Q with (1000 # 229)%Q. change (/ 0.224)%Q with (1000 # 224)%Q.
  change (/ 0.225)%Q with (1000 # 225)%Q.
  repeat split; Lqa.lra.
Qed.

(** X5: the entries of the difference slices of a view are bounded: the
    difference images hold bytes, since [ImageChops.subtract] clamps, and
    they are normalized with mean 0, so in the slice of diff[i], at index
    2(F-2-i), the channel c holds values between 0 and 1/std[c]. *)
Theorem difference_slices_bounded (b : Branch) (inp : loc) (crops_scale : Q * Q)
    (w : World) (f0 : Image) (rest : list Image) :
  heap w !! inp = Some (PILImage <$> f0 :: rest) →
  let F := length (f0 :: rest) in
  ∃ view w',
    run_branch b inp crops_scale w = (Ok view, w') ∧
    ∀ i, (i < F - 1)%nat → ∀ y x,
      Qin 0 (1 / 0.229) (item view [0; Z.of_nat (2 * (F - 2 - i)); y; x]) ∧
      Qin 0 (1 / 0.224) (item view [1; Z.of_nat (2 * (F - 2 - i)); y; x]) ∧
      Qin 0 (1 / 0.225) (item view [2; Z.of_nat (2 * (F - 2 - i)); y; x]).
Proof.
  intros Hinp F. set (pol := policy_of b).
  destruct (branch_run pol inp crops_scale w f0 rest Hinp)
    as (view & w' & Erun & [_ Hsl] & _).
  set (d := sample_draws pol f0 crops_scale (rng w)) in *.
  set (cropped := crop_resize pol (d_rect d) <$> f0 :: rest) in *.
  set (imgs := photometric pol d <$> cropped) in *.
  set (diffs := difference_images cropped) in *.
  assert (Lc : length cropped = F) by (unfold cropped; now rewrite length_fmap).
  assert (Li : length imgs = F) by (unfold imgs; now rewrite length_fmap).
  assert (Ld : length diffs = (F - 1)%nat)
    by (unfold diffs; now rewrite difference_images_length, Lc).
  destruct (view_slices_lookup (frame_tensor <$> imgs) (diff_tensor <$> diffs))
    as (_ & _ & Hi).
  { unfold imgs, cropped. done. }
  { now rewrite !length_fmap, Li. }
  rewrite !length_fmap, Li in Hi.
  exists view, w'. split; [unfold pol in Erun; now rewrite run_branch_eq|].
  intros i Hlt y x.
  destruct (lookup_lt_is_Some_2 cropped i ltac:(lia)) as [fa Ha].
  destruct (lookup_lt_is_Some_2 cropped (S i) ltac:(lia)) as [fb Hb].
  pose proof (difference_images_lookup _ _ _ _ Ha Hb) as Hd. fold diffs in Hd.
  destruct (Hi (S i) ltac:(lia)) as [Hdi _].
  replace (F - 1 - S i)%nat with (F - 2 - i)%nat in Hdi by lia.
  replace (S i - 1)%nat with i in Hdi by lia.
  rewrite list_lookup_fmap, Hd in Hdi. cbn [fmap option_fmap option_map] in Hdi.
  rewrite !(Hsl _ _ Hdi). apply diff_tensor_entry_range.
Qed.

End ProgramFacts.

(** ** The distillation loss *)

Lemma fold_left_Rplus {A} (f : A → R) (l : list A) (a : R) :
  fold_left (fun acc x => (acc + f x)%R) l a = (a + Rsum (List.map f l))%R.
Proof.
  unfold Rsum. revert a.
  induction l as [|x l IH]; intros a; cbn [fold_left List.map fold_right].
  - lra.
  - rewrite IH. lra.
Qed.

Lemma Rsum_app l1 l2 : Rsum (l1 ++ l2) = (Rsum l1 + Rsum l2)%R.
Proof.
  unfold Rsum. induction l1 as [|x l1 IH]; cbn [app fold_right]; [lra|].
  rewrite IH. lra.
Qed.

Lemma loss_row_spec student_out iq q : ∀ (vs : list nat) t n,
  fold_left (fun '(total_loss, n_loss_terms) v =>
    if (v =? iq)%nat then (total_loss, n_loss_terms)
    else ((total_loss + pair_loss q (nth v student_out []))%R, S n_loss_terms))
    vs (t, n)
  = ((t + Rsum (List.map (fun v => pair_loss q (nth v student_out []))
                         (List.filter (fun v => negb (v =? iq)%nat) vs)))%R,
     (n + length (List.filter (fun v => negb (v =? iq)%nat) vs))%nat).
Proof.
  induction vs as [|v vs IH]; intros t n; cbn [fold_left List.filter].
  - unfold Rsum. cbn [List.map fold_right length]. f_equal; [lra | lia].
  - destruct (v =? iq)%nat; cbn [negb].
    + apply IH.
    + rewrite IH. unfold Rsum. cbn [List.map fold_right length]. f_equal; [lra | lia].
Qed.

Lemma filter_prod_row (iq : nat) (vs : list nat) :
  List.filter (fun '(iq, v) => negb (v =? iq)%nat) (List.map (fun v => (iq, v)) vs)
  = List.map (fun v => (iq, v)) (List.filter (fun v => negb (v =? iq)%nat) vs).
Proof.
  induction vs as [|v vs IH]; [done|]. cbn [List.map List.filter].
  destruct (negb (v =? iq)%nat); cbn [List.map]; now rewrite IH.
Qed.

(** The two loops add, pair by pair, the loss of every pair of a teacher
    chunk and a student chunk of different indices, and count the pairs. *)
Lemma loss_terms_spec teacher_out student_out :
  loss_terms teacher_out student_out
  = (Rsum (List.map (fun '(iq, v) => pair_loss (nth iq teacher_out [])
                                               (nth v student_out []))
                    (loss_pairs (length teacher_out) (length student_out))),
     length (loss_pairs (length teacher_out) (length student_out))).
Proof.
  unfold loss_terms, loss_pairs.
  assert (G : ∀ (pre todo : list Matrix) t n,
    fold_left (fun st '(iq, q) => loss_row student_out iq q st)
              (zip (seq (length pre) (length todo)) todo) (t, n)
    = ((t + Rsum (List.map (fun '(iq, v) => pair_loss (nth iq (pre ++ todo) [])
                                                      (nth v student_out []))
              (List.filter (fun '(iq, v) => negb (v =? iq)%nat)
                 (list_prod (seq (length pre) (length todo))
                            (seq 0 (length student_out))))))%R,
       (n + length (List.filter (fun '(iq, v) => negb (v =? iq)%nat)
                 (list_prod (seq (length pre) (length todo))
                            (seq 0 (length student_out)))))%nat)).
  { intros pre todo. revert pre.
    induction todo as [|q todo IH]; intros pre t n.
    - unfold Rsum. cbn. f_equal; [lra | lia].
    - cbn [length seq zip_with fold_left list_prod].
      unfold loss_row at 2. rewrite loss_row_spec.
      specialize (IH (pre ++ [q])). rewrite length_app in IH. cbn [length] in IH.
      replace (length pre + 1)%nat with (S (length pre)) in IH by lia.
      rewrite IH. rewrite <- app_assoc. cbn [app].
      rewrite List.filter_app, List.map_app, Rsum_app, length_app, filter_prod_row.
      rewrite List.map_map, length_map.
      f_equal; [|lia].
      rewrite Rplus_assoc. do 2 f_equal. f_equal.
      apply List.map_ext. intros v. now rewrite nth_middle. }
  specialize (G [] teacher_out 0%R 0%nat). cbn [length app] in G.
  rewrite G. f_equal. lra.
Qed.

Lemma filter_neq_length (iq n : nat) :
  length (List.filter (fun v => negb (v =? iq)%nat) (seq 0 n))
  = if (iq <? n)%nat then (n - 1)%nat else n.
Proof.
  induction n as [|n IH]; [done|].
  rewrite seq_S, List.filter_app, length_app, IH. cbn [plus List.filter].
  destruct (Nat.eqb_spec n iq) as [->|Hne]; cbn [negb length].
  - rewrite Nat.ltb_irrefl.
    destruct (Nat.ltb_spec iq (S iq)); lia.
  - destruct (Nat.ltb_spec iq n), (Nat.ltb_spec iq (S n)); lia.
Qed.

Lemma loss_pairs_length (n : nat) :
  length (loss_pairs 2 n) = (match n with 0 => 0 | 1 => 1 | _ => 2 * n - 2 end)%nat.
Proof.
  unfold loss_pairs. cbn [seq list_prod].
  rewrite app_nil_r, List.filter_app, length_app, !filter_prod_row, !length_map.
  rewrite !filter_neq_length.
  destruct n as [|[|n]]; [done | done |].
  destruct (Nat.ltb_spec 0 (S (S n))), (Nat.ltb_spec 1 (S (S n))); lia.
Qed.

Lemma split_rows_exact {A} (B : nat) : ∀ (n : nat) (rows : list A),
  length rows = (n * B)%nat →
  length (split_rows n B rows) = n ∧
  Forall (fun c => length c = B) (split_rows n B rows) ∧
  concat (split_rows n B rows) = rows.
Proof.
  induction n as [|n IH]; intros rows Hl.
  - destruct rows; [done|]. cbn in Hl. lia.
  - cbn [split_rows]. destruct (IH (drop B rows)) as (H1 & H2 & H3).
    { rewrite length_drop. lia. }
    split; [cbn [length]; lia|]. split.
    + apply Forall_cons. split; [|exact H2]. rewrite length_take. lia.
    + cbn [concat]. rewrite H3. apply take_drop.
Qed.

Lemma torch_chunk_exact {A} (rows : list A) (n B : nat) :
  (1 ≤ n)%nat → (1 ≤ B)%nat → length rows = (n * B)%nat →
  torch_chunk rows n = Ok (split_rows n B rows).
Proof.
  intros Hn HB Hl. unfold torch_chunk, torch_split.
  destruct (Nat.eqb_spec n 0) as [->|_]; [lia|].
  assert (E1 : ((length rows + n - 1) / n = B)%nat).
  { rewrite Hl. replace (n * B + n - 1)%nat with (B * n + (n - 1))%nat by lia.
    rewrite Nat.div_add_l by lia. rewrite Nat.div_small by lia. lia. }
  rewrite E1. destruct (Nat.eqb_spec B 0) as [->|_]; [lia|].
  assert (E2 : ((length rows + B - 1) / B = n)%nat).
  { rewrite Hl. replace (n * B + B - 1)%nat with (n * B + (B - 1))%nat by lia.
    rewrite Nat.div_add_l by lia. rewrite Nat.div_small by lia. lia. }
  rewrite E2. now rewrite Nat.max_l by lia.
Qed.

Lemma loss_pairs_elem (nt ns iq v : nat) :
  In (iq, v) (loss_pairs nt ns) ↔ (iq < nt)%nat ∧ (v < ns)%nat ∧ iq ≠ v.
Proof.
  unfold loss_pairs. rewrite List.filter_In, in_prod_iff, !in_seq.
  rewrite Bool.negb_true_iff, Nat.eqb_neq. lia.
Qed.

(** C7, as the code has it: for ncrops >= 2, a batch of B >= 1 samples, a
    student output of ncrops * B rows and a teacher output of 2 * B rows,
    [forward] scales the student output by 1/0.1 and splits it into ncrops
    chunks of B rows, splits the softmax of the centered teacher output over
    the temperature of the epoch into 2 chunks of B rows, and returns the
    sum, over the pairs (iq, v) of a teacher chunk and a student chunk with
    iq <> v, of the batch mean of the cross-entropy, divided by the number
    of pairs, which is 2 ncrops - 2. *)
Theorem C7_loss (dist : Dist) (self : DINOLoss) (student_output teacher_output : Matrix)
    (epoch : nat) (temp : R) (B : nat) :
  student_temp self = 0.1%R →
  (2 ≤ ncrops self)%nat → (1 ≤ B)%nat →
  length student_output = (ncrops self * B)%nat →
  length teacher_output = (2 * B)%nat →
  teacher_temp_schedule self !! epoch = Some temp →
  let scaled := List.map (List.map (fun x => (x / 0.1)%R)) student_output in
  let sharpened :=
    List.map (fun row => softmax (zip_with (fun t c => ((t - c) / temp)%R)
                                           row (center self)))
             teacher_output in
  let student_out := split_rows (ncrops self) B scaled in
  let teacher_out := split_rows 2 B sharpened in
  torch_chunk scaled (ncrops self) = Ok student_out ∧
  length student_out = ncrops self ∧
  Forall (fun c => length c = B) student_out ∧
  concat student_out = scaled ∧
  torch_chunk sharpened 2 = Ok teacher_out ∧
  length teacher_out = 2%nat ∧
  Forall (fun c => length c = B) teacher_out ∧
  concat teacher_out = sharpened ∧
  snd (loss_terms teacher_out student_out) = (2 * ncrops self - 2)%nat ∧
  (∀ iq v, In (iq, v) (loss_pairs 2 (ncrops self))
           ↔ (iq < 2)%nat ∧ (v < ncrops self)%nat ∧ iq ≠ v) ∧
  DINOLoss_forward dist self student_output teacher_output epoch
  = Ok ((Rsum (List.map (fun '(iq, v) => pair_loss (nth iq teacher_out [])
                                                   (nth v student_out []))
                        (loss_pairs 2 (ncrops self)))
         / INR (2 * ncrops self - 2))%R,
        update_center dist self teacher_output).
Proof.
  intros Htemp Hn HB Ls Lt Hsched scaled sharpened student_out teacher_out.
  assert (Lsc : length scaled = (ncrops self * B)%nat)
    by (unfold scaled; now rewrite length_map).
  assert (Lsh : length sharpened = (2 * B)%nat)
    by (unfold sharpened; now rewrite length_map).
  destruct (split_rows_exact B (ncrops self) scaled Lsc) as (S1 & S2 & S3).
  destruct (split_rows_exact B 2 sharpened Lsh) as (T1 & T2 & T3).
  assert (Cs : torch_chunk scaled (ncrops self) = Ok student_out)
    by (apply torch_chunk_exact; [lia | lia | exact Lsc]).
  assert (Ct : torch_chunk sharpened 2 = Ok teacher_out)
    by (apply torch_chunk_exact; [lia | lia | exact Lsh]).
  assert (Ln : length (loss_pairs 2 (ncrops self)) = (2 * ncrops self - 2)%nat).
  { rewrite loss_pairs_length. destruct (ncrops self) as [|[|n]]; lia. }
  pose proof (loss_terms_spec teacher_out student_out) as Hlt.
  change (length student_out = ncrops self) in S1.
  change (length teacher_out = 2%nat) in T1.
  unfold Matrix in *. rewrite S1, T1 in Hlt.
  repeat (split; [done|]).
  split; [now rewrite Hlt|]. split; [intros iq v; apply loss_pairs_elem|].
  unfold DINOLoss_forward. rewrite Htemp. fold scaled. rewrite Cs. cbn [res_bind].
  rewrite Hsched. fold sharpened. rewrite Ct. cbn [res_bind]. rewrite Hlt, Ln.
  destruct (Nat.eqb_spec (2 * ncrops self - 2) 0) as [E|_]; [lia|]. reflexivity.
Qed.

(** The witness of C7: two views, a batch of one sample, one class. *)
Lemma C7_loss_witness :
  let dist := mkDist (fun x => x) 1 in
  let self := mkDINOLoss 0.1%R 0.9%R 2 [0%R] [1%R] in
  let student_output := [[0%R]; [0%R]] in
  let teacher_output := [[0%R]; [0%R]] in
  snd (loss_terms
         (split_rows 2 1
            (List.map (fun row => softmax (zip_with (fun t c => ((t - c) / 1)%R)
                                                    row (center self)))
                      teacher_output))
         (split_rows (ncrops self) 1
            (List.map (List.map (fun x => (x / 0.1)%R)) student_output)))
  = (2 * ncrops self - 2)%nat.
Proof.
  intros dist self student_output teacher_output.
  exact (proj1 (proj2 (proj2 (proj2 (proj2 (proj2 (proj2 (proj2 (proj2
    (C7_loss dist self student_output teacher_output 0 1%R 1
       eq_refl (le_n 2) (le_n 1) eq_refl eq_refl eq_refl)))))))))).
Defined.

(** With one crop the loss has one term, where 2 ncrops - 2 is zero: the
    teacher chunk 1 meets the student chunk 0. *)
Lemma C7_counterexample :
  ∃ student_out teacher_out,
    torch_chunk (List.map (List.map (fun x => (x / 0.1)%R)) [[0%R]]) 1 = Ok student_out ∧
    torch_chunk (List.map (fun row => softmax (zip_with (fun t c => ((t - c) / 1)%R)
                                                        row [0%R]))
                          [[0%R]; [0%R]]) 2 = Ok teacher_out ∧
    snd (loss_terms teacher_out student_out) = 1%nat ∧
    (2 * 1 - 2)%nat = 0%nat ∧
    loss_pairs 2 1 = [(1, 0)%nat].
Proof.
  do 2 eexists. split; [reflexivity|]. split; [reflexivity|].
  split; [|split; reflexivity].
  rewrite loss_terms_spec. reflexivity.
Qed.

(** ** Runs on concrete inputs *)

Lemma world_of_lookup frames tape :
  heap (world_of frames tape) !! 0%nat = Some (PILImage <$> frames).
Proof. apply lookup_singleton_eq. Qed.

(** The witness of C1: the first global branch on two frames. *)
Lemma C1_view_layout_witness :
  ∃ view w',
    run_branch (H := reference_externals) Global1 0%nat (0.4, 1)%Q
               (world_of two_black tape_low) = (Ok view, w') ∧
    shape view = [3; 3; 224; 224].
Proof.
  destruct (C1_view_layout (H := reference_externals) Global1 0%nat (0.4, 1)%Q
              (world_of two_black tape_low) (solid 2 2 black) [solid 2 2 black]
              (world_of_lookup two_black tape_low))
    as (view & w' & E & Hs & _).
  exists view, w'. split; [exact E | exact Hs].
Defined.

(** On two black frames the view has four axes, and its slice 0 is the
    difference, 2/255 over the standard deviation, where the last frame is
    -0.485 over it and sits in the slice 1. *)
Lemma C1_counterexample :
  let d := sample_draws (H := reference_externals) policy1 (solid 2 2 black)
                        (0.4, 1)%Q tape_low in
  let last_frame := photometric (H := reference_externals) policy1 d
                      (crop_resize (H := reference_externals) policy1 (d_rect d)
                                   (solid 2 2 black)) in
  match transfo1 (H := reference_externals) 0%nat (0.4, 1)%Q
                 (world_of two_black tape_low) with
  | (Ok view, _) =>
      shape view = [3; 3; 224; 224] ∧
      item view [0; 0; 0; 0] = (2000 # 58395)%Q ∧
      item (frame_tensor last_frame) [0; 0; 0] = (-123675000 # 58395000)%Q ∧
      item view [0; 1; 0; 0] = item (frame_tensor last_frame) [0; 0; 0] ∧
      ¬ Qeq (item view [0; 0; 0; 0]) (item (frame_tensor last_frame) [0; 0; 0])
  | (Raise _, _) => False
  end.
Proof. vm_compute. repeat split. intros HH. discriminate HH. Qed.

(** The witness of C2: the local branch on two frames. *)
Lemma C2_shared_crop_witness :
  ∃ view w',
    run_branch (H := reference_externals) Local 0%nat (0.05, 0.4)%Q
               (world_of two_black tape_low) = (Ok view, w') ∧
    Forall (fun im => im_size im = (96, 96))
           ((fun f => nearest_resize (TF_crop f 0 0 2 2) (96, 96)) <$> two_black).
Proof.
  destruct (C2_shared_crop (H := reference_externals) Local 0%nat (0.05, 0.4)%Q
              (world_of two_black tape_low) (solid 2 2 black) [solid 2 2 black]
              (world_of_lookup two_black tape_low))
    as (view & w' & E & _ & Hs & _).
  exists view, w'. split; [exact E | exact Hs].
Defined.

(** The witness of C3: two equal frames give the constant difference. *)
Lemma C3_differences_witness :
  ∃ view w',
    run_branch (H := reference_externals) Global2 0%nat (0.4, 1)%Q
               (world_of two_black tape_low) = (Ok view, w') ∧
    ∀ x y,
      getpixel (ImageChops_subtract
                  (crop_resize (H := reference_externals) policy2 (0, 0, 2, 2)
                               (solid 2 2 black))
                  (crop_resize (H := reference_externals) policy2 (0, 0, 2, 2)
                               (solid 2 2 black)) 1 2) x y
      = (2, 2, 2).
Proof.
  destruct (C3_differences (H := reference_externals) Global2 0%nat (0.4, 1)%Q
              (world_of two_black tape_low) (solid 2 2 black) [solid 2 2 black]
              (world_of_lookup two_black tape_low))
    as (view & w' & E & _ & _ & Hd).
  exists view, w'. split; [exact E|].
  destruct (Hd 0%nat _ _ eq_refl eq_refl) as (_ & _ & _ & Hsame).
  apply Hsame. reflexivity.
Defined.

(** The witness of C5: the second global branch on two frames. *)
Lemma C5_gates_witness :
  ∃ view w',
    run_branch (H := reference_externals) Global2 0%nat (0.4, 1)%Q
               (world_of two_black tape_low) = (Ok view, w') ∧
    rng w' = d_rng (sample_draws (H := reference_externals) policy2 (solid 2 2 black)
                                 (0.4, 1)%Q tape_low).
Proof.
  destruct (C5_gates (H := reference_externals) Global2 0%nat (0.4, 1)%Q
              (world_of two_black tape_low) (solid 2 2 black) [solid 2 2 black]
              (world_of_lookup two_black tape_low))
    as (view & w' & E & _ & Hr & _).
  exists view, w'. split; [exact E | exact Hr].
Defined.

(** The first global branch with a draw of 0.25 at its blur gate: the blur
    is skipped, no radius is drawn, and of the two values left on the tape
    only the first is used, by [randint]. *)
Lemma C5_counterexample :
  let d := sample_draws (H := reference_externals) policy1 (solid 2 2 black)
                        (0.4, 1)%Q tape_low in
  d_blur d = 0.25%Q ∧
  blur_gate policy1 d = false ∧
  match transfo1 (H := reference_externals) 0%nat (0.4, 1)%Q
                 (world_of two_black tape_low) with
  | (Ok view, w') => rng w' = [9%Q]
  | (Raise _, _) => False
  end.
Proof. vm_compute. repeat split. Qed.

(** The witness of C6: the first global branch on two frames. *)
Lemma C6_jitter_witness :
  ∃ view w' fn_idx bf cf sf hf,
    run_branch (H := reference_externals) Global1 0%nat (0.4, 1)%Q
               (world_of two_black tape_low) = (Ok view, w') ∧
    d_jitter (sample_draws (H := reference_externals) policy1 (solid 2 2 black)
                           (0.4, 1)%Q tape_low)
    = (fn_idx, Some bf, Some cf, Some sf, Some hf) ∧
    (0.8 <= sf <= 1.2)%Q.
Proof.
  destruct (C6_jitter (H := reference_externals) Global1 0%nat (0.4, 1)%Q
              (world_of two_black tape_low) (solid 2 2 black) [solid 2 2 black]
              (world_of_lookup two_black tape_low))
    as (view & w' & fn_idx & bf & cf & sf & hf & E & Ej & _ & _ & _ & Hs & _).
  exists view, w', fn_idx, bf, cf, sf, hf. split; [exact E|]. split; [exact Ej | exact Hs].
Defined.

(** The range of the saturation is [0.8, 1.2]: where the tape offers 0.7, a
    value of [0.6, 1.4], the factor of the branch is 0.8. *)
Lemma C6_counterexample :
  saturation color_jitter = Some (0.8, 1.2)%Q ∧
  fst (tape_uniform 0.6 1.4 [0.7%Q]) = 0.7%Q ∧
  d_jitter (sample_draws (H := reference_externals) policy1 (solid 2 2 black)
                         (0.4, 1)%Q tape_low)
  = ([0; 1; 2; 3]%nat, Some 1%Q, Some 1%Q, Some 0.8%Q, Some 0%Q) ∧
  ¬ (0.8 == 0.7)%Q.
Proof. vm_compute. repeat split. intros HH. discriminate HH. Qed.

(** The witness of C8: a composite whose pixels tell where they are. *)
Lemma C8_four_frames_witness :
  length (crop (gradient 640 1920) 480 640) = 4%nat ∧
  ∀ x y, 0 <= x < 640 → 0 <= y < 480 →
    getpixel (PIL_crop (gradient 640 1920) (0, 960, 640, 1440)) x y
    = getpixel (gradient 640 1920) x (480 * 2 + y).
Proof.
  destruct (C8_four_frames (H := reference_externals) (gradient 640 1920)
              (world_of [] []) eq_refl) as (Ec & Hk & _).
  split; [now rewrite Ec|].
  intros x y Hx Hy.
  destruct (Hk 2%nat (PIL_crop (gradient 640 1920) (0, 960, 640, 1440))) as [_ Hp].
  { now rewrite Ec. }
  exact (Hp x y Hx Hy).
Defined.

(** A composite of 640 x 1000: two whole tiles fit, three are cut; the
    third holds the rows 960..999 of the composite and zeros below. *)
Lemma C9_counterexample :
  1000 / 480 = 2 ∧
  crop_boxes (gradient 640 1000) 480 640
  = [(0, 0, 640, 480); (0, 480, 640, 960); (0, 960, 640, 1440)] ∧
  length (crop (gradient 640 1000) 480 640) = 3%nat ∧
  match crop (gradient 640 1000) 480 640 !! 2%nat with
  | Some tile =>
      im_size tile = (640, 480) ∧
      getpixel tile 5 39 = getpixel (gradient 640 1000) 5 999 ∧
      getpixel tile 5 39 = (5, 231, 236) ∧
      getpixel tile 5 40 = black
  | None => False
  end.
Proof. vm_compute. repeat split. Qed.

(** The witness of C4: a composite of four frames and two local crops. *)
Lemma C4_sample_witness :
  ∃ views w',
    DataAugmentationDINO_call (H := reference_externals)
      (mkDataAugmentationDINO (0.4, 1)%Q (0.05, 0.4)%Q 2) (gradient 640 1920)
      (world_of [] []) = (Ok views, w') ∧
    Z.of_nat (length views) = 4.
Proof.
  destruct (C4_sample (H := reference_externals)
              (mkDataAugmentationDINO (0.4, 1)%Q (0.05, 0.4)%Q 2) (gradient 640 1920)
              (world_of [] []) eq_refl eq_refl)
    as (images & w0 & g1 & w1 & g2 & w2 & ls & w' & E & Hl & _).
  exists (g1 :: g2 :: ls), w'. split; [exact E | exact Hl].
Defined.

(** The witness of C10: the first global branch leaves the list of its
    caller as it was. *)
Lemma C10_caller_list_unchanged_witness :
  ∃ res w',
    run_branch (H := reference_externals) Global1 0%nat (0.4, 1)%Q
               (world_of two_black tape_low) = (res, w') ∧
    heap w' !! 0%nat = Some (PILImage <$> two_black).
Proof.
  destruct (proj1 (C10_caller_list_unchanged (H := reference_externals) Global1 0%nat
              (0.4, 1)%Q (world_of two_black tape_low) two_black
              (mkDataAugmentationDINO (0.4, 1)%Q (0.05, 0.4)%Q 2) (gradient 640 1920)
              (world_of [] [])) (world_of_lookup two_black tape_low))
    as (res & w' & E & _ & Hh & _).
  exists res, w'. split; [exact E | exact Hh].
Defined.

(** ** More on the loss *)




Lemma linspace_length start stop num : length (linspace start stop num) = num.
Proof.
  unfold linspace. destruct num as [|[|num]]; [done | done |].
  now rewrite length_map, length_seq.
Qed.

(** X7: [__init__] builds a temperature for each of the [nepochs] epochs
    when the warm-up is not longer than the training: the first epoch has
    [warmup_teacher_temp] (when there is a warm-up), the last epoch of a
    warm-up of two epochs or more has [teacher_temp], and so has every epoch
    after the warm-up; the center starts at zero.  A warm-up longer than the
    training raises ValueError. *)
Theorem DINOLoss_init_schedule (out_dim nc : nat) (warmup_teacher_temp teacher_temp : R)
    (warmup_teacher_temp_epochs nepochs : nat) :
  ((warmup_teacher_temp_epochs ≤ nepochs)%nat →
   ∃ self,
     DINOLoss_init out_dim nc warmup_teacher_temp teacher_temp
                   warmup_teacher_temp_epochs nepochs = Ok self ∧
     length (teacher_temp_schedule self) = nepochs ∧
     center self = replicate out_dim 0%R ∧
     ncrops self = nc ∧
     ((1 ≤ warmup_teacher_temp_epochs)%nat →
      teacher_temp_schedule self !! 0%nat = Some warmup_teacher_temp) ∧
     ((2 ≤ warmup_teacher_temp_epochs)%nat →
      teacher_temp_schedule self !! (warmup_teacher_temp_epochs - 1)%nat
      = Some teacher_temp) ∧
     (∀ epoch, (warmup_teacher_temp_epochs ≤ epoch < nepochs)%nat →
      teacher_temp_schedule self !! epoch = Some teacher_temp)) ∧
  ((nepochs < warmup_teacher_temp_epochs)%nat →
   DINOLoss_init out_dim nc warmup_teacher_temp teacher_temp
                 warmup_teacher_temp_epochs nepochs = Raise ValueError).
Proof.
  unfold DINOLoss_init. split.
  - intros Hle. destruct (Nat.ltb_spec nepochs warmup_teacher_temp_epochs); [lia|].
    eexists. split; [reflexivity|]. cbn [teacher_temp_schedule center ncrops].
    split; [rewrite length_app, linspace_length, length_replicate; lia|].
    split; [reflexivity|]. split; [reflexivity|]. split; [|split].
    + intros Hw. rewrite lookup_app_l by (rewrite linspace_length; lia).
      unfold linspace. destruct warmup_teacher_temp_epochs as [|[|n]]; [lia | done |].
      cbn [seq List.map]. cbn [lookup list_lookup]. f_equal. cbn [INR]. lra.
    + intros Hw. rewrite lookup_app_l by (rewrite linspace_length; lia).
      unfold linspace. destruct warmup_teacher_temp_epochs as [|[|n]]; [lia | lia |].
      change (List.map ?f ?l) with (f <$> l).
      rewrite list_lookup_fmap, lookup_seq_lt by lia.
      cbn [fmap option_fmap option_map plus]. f_equal.
      replace (S (S n) - 1)%nat with (S n) by lia.
      assert (INR (S n) <> 0)%R by (apply not_0_INR; lia). field. assumption.
    + intros epoch He. rewrite lookup_app_r by (rewrite linspace_length; lia).
      rewrite linspace_length, lookup_replicate_2 by lia. f_equal. lra.
  - intros Hlt. destruct (Nat.ltb_spec nepochs warmup_teacher_temp_epochs); [done|lia].
Qed.

(** The witness of X7: a warm-up of two epochs out of three. *)
Lemma DINOLoss_init_schedule_witness :
  ∃ self,
    DINOLoss_init 4 2 0.04%R 0.07%R 2 3 = Ok self ∧
    length (teacher_temp_schedule self) = 3%nat ∧
    teacher_temp_schedule self !! 1%nat = Some 0.07%R.
Proof.
  destruct (proj1 (DINOLoss_init_schedule 4 2 0.04%R 0.07%R 2 3) (le_S 2 2 (le_n 2)))
    as (self & E & Hl & _ & _ & _ & Hw & _).
  exists self. split; [exact E|]. split; [exact Hl | exact (Hw (le_n 2))].
Defined.

Lemma torch_chunk_ok {A} (rows : list A) (chunks : nat) :
  (1 ≤ chunks)%nat → ∃ cs, torch_chunk rows chunks = Ok cs.
Proof.
  intros Hc. unfold torch_chunk.
  destruct (Nat.eqb_spec chunks 0); [lia|].
  destruct (_ =? 0)%nat; eauto.
Qed.

(** X8: [forward] asked for an epoch the schedule does not hold raises
    IndexError (whatever the outputs, with ncrops >= 1), and the loss object
    is not touched: with a loss built for [nepochs] epochs, every
    epoch >= nepochs raises. *)
Theorem forward_epoch_out_of_schedule (dist : Dist) (self : DINOLoss)
    (student_output teacher_output : Matrix) (epoch : nat) :
  (1 ≤ ncrops self)%nat →
  (length (teacher_temp_schedule self) ≤ epoch)%nat →
  DINOLoss_forward dist self student_output teacher_output epoch = Raise IndexError.
Proof.
  intros Hn He. unfold DINOLoss_forward.
  destruct (torch_chunk_ok
    (List.map (List.map (fun x => (x / student_temp self)%R)) student_output)
    (ncrops self) Hn) as (cs & ->).
  cbn [res_bind]. now rewrite lookup_ge_None_2.
Qed.

(** The witness of X8: a schedule of one epoch, asked for the epoch 1. *)
Lemma forward_epoch_out_of_schedule_witness :
  DINOLoss_forward (mkDist (fun x => x) 1) (mkDINOLoss 0.1%R 0.9%R 2 [0%R] [1%R])
                   [[0%R]; [0%R]] [[0%R]; [0%R]] 1
  = Raise IndexError.
Proof.
  exact (forward_epoch_out_of_schedule (mkDist (fun x => x) 1)
           (mkDINOLoss 0.1%R 0.9%R 2 [0%R] [1%R]) [[0%R]; [0%R]] [[0%R]; [0%R]] 1
           (le_S 1 1 (le_n 1)) (le_n 1)).
Defined.

(** ** More runs on concrete inputs *)

(** The witness of X1: the pixel (5, 1000) of a composite of four frames is
    the pixel (5, 40) of the tile 2. *)
Lemma crop_covers_composite_witness :
  ∃ tile,
    crop (gradient 640 1920) 480 640 !! 2%nat = Some tile ∧
    getpixel tile 5 40 = getpixel (gradient 640 1920) 5 1000.
Proof.
  destruct (crop_covers_composite (gradient 640 1920) 5 1000
              ltac:(unfold im_width; cbn; lia) ltac:(unfold im_height; cbn; lia))
    as (tile & E & _ & Hp).
  exists tile. split; [exact E | exact Hp].
Defined.

(** The witness of X2: a composite of 640 x 1000 gives three tiles, views
    of five slices and one line of output. *)
Lemma call_prints_once_witness :
  ∃ g1 g2 ls w',
    DataAugmentationDINO_call (H := reference_externals)
      (mkDataAugmentationDINO (0.4, 1)%Q (0.05, 0.4)%Q 2) (gradient 640 1000)
      (world_of [] []) = (Ok (g1 :: g2 :: ls), w') ∧
    stdout w' = ["ERROR!"%string] ∧
    shape g1 = [3; 5; 224; 224].
Proof.
  destruct (call_prints_once (H := reference_externals)
              (mkDataAugmentationDINO (0.4, 1)%Q (0.05, 0.4)%Q 2) (gradient 640 1000)
              (world_of [] []) eq_refl eq_refl)
    as (g1 & g2 & ls & w' & E & Ho & _ & S1 & _).
  exists g1, g2, ls, w'. split; [exact E|]. split; [exact Ho | exact S1].
Defined.

(** The witness of X3: a composite with no column. *)
Lemma call_empty_composite_witness :
  ∃ w',
    DataAugmentationDINO_call (H := reference_externals)
      (mkDataAugmentationDINO (0.4, 1)%Q (0.05, 0.4)%Q 2) (solid 0 480 black)
      (world_of [] []) = (Raise IndexError, w') ∧
    stdout w' = ["ERROR!"%string].
Proof.
  destruct (call_empty_composite (H := reference_externals)
              (mkDataAugmentationDINO (0.4, 1)%Q (0.05, 0.4)%Q 2) (solid 0 480 black)
              (world_of [] []) (or_introl eq_refl))
    as (_ & w' & E & Ho).
  exists w'. split; [exact E | exact Ho].
Defined.

(** The witness of X4: the first global branch on the empty list. *)
Lemma branch_on_no_frame_witness :
  ∃ w',
    run_branch (H := reference_externals) Global1 0%nat (0.4, 1)%Q
               (world_of [] tape_low) = (Raise IndexError, w') ∧
    rng w' = tape_low.
Proof.
  destruct (branch_on_no_frame (H := reference_externals) Global1 0%nat (0.4, 1)%Q
              (world_of [] tape_low) (world_of_lookup [] tape_low))
    as (w' & E & _ & Hr & _).
  exists w'. split; [exact E | exact Hr].
Defined.

(** The witness of X5: the difference slice of a view of two frames. *)
Lemma difference_slices_bounded_witness :
  ∃ view w',
    run_branch (H := reference_externals) Global1 0%nat (0.4, 1)%Q
               (world_of two_black tape_low) = (Ok view, w') ∧
    Qin 0 (1 / 0.229) (item view [0; 0; 0; 0]).
Proof.
  destruct (difference_slices_bounded (H := reference_externals) Global1 0%nat
              (0.4, 1)%Q (world_of two_black tape_low) (solid 2 2 black)
              [solid 2 2 black] (world_of_lookup two_black tape_low))
    as (view & w' & E & Hb).
  exists view, w'. split; [exact E|].
  exact (proj1 (Hb 0%nat (le_n 1) 0 0)).
Defined.

Lemma torch_chunk_one {A} (rows : list A) : ∃ c, torch_chunk rows 1 = Ok [c].
Proof.
  unfold torch_chunk, torch_split. cbn [Nat.eqb].
  replace ((length rows + 1 - 1) / 1)%nat with (length rows)
    by (rewrite Nat.div_1_r; lia).
  destruct (Nat.eqb_spec (length rows) 0) as [E|E]; [now exists []|].
  replace ((length rows + length rows - 1) / length rows)%nat with 1%nat.
  - now exists (take (length rows) rows).
  - apply (Nat.div_unique _ _ 1 (length rows - 1)); lia.
Qed.

(** X9: with ncrops = 1 and a teacher output of one row, the only teacher
    chunk and the only student chunk have the same index, no pair is left,
    and [forward] raises ZeroDivisionError at [total_loss /= n_loss_terms]:
    the center is not updated. *)
Theorem forward_no_pair (dist : Dist) (self : DINOLoss)
    (student_output teacher_output : Matrix) (epoch : nat) :
  ncrops self = 1%nat → length teacher_output = 1%nat →
  (epoch < length (teacher_temp_schedule self))%nat →
  DINOLoss_forward dist self student_output teacher_output epoch
  = Raise ZeroDivisionError.
Proof.
  intros Hn Lt He. unfold DINOLoss_forward. rewrite Hn.
  destruct (torch_chunk_one
    (List.map (List.map (fun x => (x / student_temp self)%R)) student_output))
    as (c & ->).
  cbn [res_bind].
  destruct (lookup_lt_is_Some_2 _ _ He) as [temp ->].
  destruct teacher_output as [|row [|row' teacher_output]]; try discriminate Lt.
  cbn [List.map]. unfold torch_chunk, torch_split. cbn [length].
  change ((1 + 2 - 1) / 2)%nat with 1%nat. change ((1 + 1 - 1) / 1)%nat with 1%nat.
  cbn [Nat.eqb Nat.max split_rows res_bind].
  rewrite loss_terms_spec. reflexivity.
Qed.

(** The witness of X9. *)
Lemma forward_no_pair_witness :
  DINOLoss_forward (mkDist (fun x => x) 1) (mkDINOLoss 0.1%R 0.9%R 1 [0%R] [1%R])
                   [[0%R]] [[0%R]] 0
  = Raise ZeroDivisionError.
Proof.
  exact (forward_no_pair (mkDist (fun x => x) 1)
           (mkDINOLoss 0.1%R 0.9%R 1 [0%R] [1%R]) [[0%R]] [[0%R]] 0
           eq_refl eq_refl (le_n 1)).
Defined.

Lemma Rsum_nonneg (l : list R) :
  Forall (fun x => (0 <= x)%R) l → (0 <= Rsum l)%R.
Proof.
  unfold Rsum. induction 1 as [|x l Hx _ IH]; cbn [fold_right]; lra.
Qed.

Lemma Rsum_exp_ge (row : list R) (x : R) :
  In x row → (exp x <= Rsum (List.map exp row))%R.
Proof.
  unfold Rsum. induction row as [|y row IH]; [done|].
  assert (Hp : (0 <= fold_right Rplus 0 (List.map exp row))%R).
  { apply Rsum_nonneg. apply List.Forall_forall. intros e He.
    apply in_map_iff in He as (z & <- & _). left. apply exp_pos. }
  pose proof (exp_pos y).
  intros [->|Hin]; cbn [List.map fold_right]; [lra|].
  specialize (IH Hin). lra.
Qed.

Lemma softmax_nonneg (row : list R) : Forall (fun a => (0 <= a)%R) (softmax row).
Proof.
  apply List.Forall_forall. intros a Ha. unfold softmax in Ha.
  apply in_map_iff in Ha as (x & <- & Hx).
  pose proof (Rsum_exp_ge row x Hx). pose proof (exp_pos x).
  apply Rlt_le, Rdiv_lt_0_compat; lra.
Qed.

Lemma log_softmax_nonpos (row : list R) :
  Forall (fun l => (l <= 0)%R) (log_softmax row).
Proof.
  apply List.Forall_forall. intros l Hl. unfold log_softmax in Hl.
  apply in_map_iff in Hl as (x & <- & Hx).
  pose proof (Rsum_exp_ge row x Hx) as Hle. pose proof (exp_pos x) as Hp.
  assert (ln (exp x) <= ln (Rsum (List.map exp row)))%R.
  { destruct Hle as [Hlt | <-]; [left; apply ln_increasing; lra | right; reflexivity]. }
  rewrite ln_exp in *. lra.
Qed.

Lemma cross_entropy_nonneg (qr ls : list R) :
  Forall (fun a => (0 <= a)%R) qr → Forall (fun l => (l <= 0)%R) ls →
  (0 <= Rsum (zip_with (fun a l => (- a * l)%R) qr ls))%R.
Proof.
  intros Hq. revert ls. induction Hq as [|a qr Ha _ IH]; intros ls Hl.
  - unfold Rsum. cbn. lra.
  - destruct Hl as [|l ls Hl0 Hl]; [unfold Rsum; cbn; lra|].
    specialize (IH ls Hl). unfold Rsum in *. cbn [zip_with fold_right]. nra.
Qed.

Lemma Rmean_nonneg (l : list R) :
  Forall (fun x => (0 <= x)%R) l → (0 <= Rmean l)%R.
Proof.
  intros Hl. unfold Rmean. destruct l as [|x l].
  - unfold Rsum, Rdiv. cbn [fold_right]. rewrite Rmult_0_l. lra.
  - apply Rsum_nonneg in Hl.
    assert (0 < INR (length (x :: l)))%R by (apply lt_0_INR; cbn; lia).
    apply Rmult_le_pos; [exact Hl|]. left. now apply Rinv_0_lt_compat.
Qed.

Lemma pair_loss_nonneg (q s : Matrix) :
  Forall (Forall (fun a => (0 <= a)%R)) q → (0 <= pair_loss q s)%R.
Proof.
  intros Hq. unfold pair_loss. apply Rmean_nonneg.
  revert s. induction Hq as [|qr q Hqr _ IH]; intros s; [constructor|].
  destruct s as [|sr s]; [constructor|]. cbn [zip_with]. constructor.
  - apply cross_entropy_nonneg; [exact Hqr | apply log_softmax_nonpos].
  - apply IH.
Qed.

Lemma split_rows_Forall {A} (P : A → Prop) (k : nat) : ∀ (n : nat) (rows : list A),
  Forall P rows → Forall (Forall P) (split_rows n k rows).
Proof.
  induction n as [|n IH]; intros rows Hr; cbn [split_rows]; constructor.
  - now apply Forall_take.
  - apply IH. now apply Forall_drop.
Qed.

Lemma nth_Forall {A} (P : A → Prop) (l : list A) (d : A) (i : nat) :
  Forall P l → P d → P (nth i l d).
Proof.
  intros Hl Hd. revert i. induction Hl; intros [|i]; cbn [nth]; auto.
Qed.

(** X10: the loss is never negative.  For ncrops >= 1, a batch of B >= 1
    samples, a student output of ncrops * B rows and a teacher output of
    2 * B rows, all of the width of the center, and positive temperatures,
    [forward] returns, and what it returns is >= 0: the teacher's softmax is
    >= 0 and the student's log-softmax is <= 0. *)
Theorem forward_loss_nonneg (dist : Dist) (self : DINOLoss)
    (student_output teacher_output : Matrix) (epoch : nat) (temp : R) (B : nat) :
  (1 ≤ ncrops self)%nat → (1 ≤ B)%nat →
  length student_output = (ncrops self * B)%nat →
  length teacher_output = (2 * B)%nat →
  Forall (fun row => length row = length (center self)) student_output →
  Forall (fun row => length row = length (center self)) teacher_output →
  (0 < student_temp self)%R →
  teacher_temp_schedule self !! epoch = Some temp → (0 < temp)%R →
  ∃ loss,
    DINOLoss_forward dist self student_output teacher_output epoch
    = Ok (loss, update_center dist self teacher_output) ∧
    (0 <= loss)%R.
Proof.
  intros Hn HB Ls Lt _ _ _ Hsched _.
  set (scaled := List.map (List.map (fun x => (x / student_temp self)%R)) student_output).
  set (sharpened :=
    List.map (fun row => softmax (zip_with (fun t c => ((t - c) / temp)%R)
                                           row (center self)))
             teacher_output).
  assert (Lsc : length scaled = (ncrops self * B)%nat)
    by (unfold scaled; now rewrite length_map).
  assert (Lsh : length sharpened = (2 * B)%nat)
    by (unfold sharpened; now rewrite length_map).
  destruct (split_rows_exact B (ncrops self) scaled Lsc) as (S1 & _).
  destruct (split_rows_exact B 2 sharpened Lsh) as (T1 & _).
  pose proof (torch_chunk_exact scaled (ncrops self) B Hn HB Lsc) as Cs.
  pose proof (torch_chunk_exact sharpened 2 B ltac:(lia) HB Lsh) as Ct.
  pose proof (loss_terms_spec (split_rows 2 B sharpened)
                              (split_rows (ncrops self) B scaled)) as Hlt.
  unfold Matrix in *. rewrite S1, T1 in Hlt.
  assert (Ln : (1 ≤ length (loss_pairs 2 (ncrops self)))%nat).
  { rewrite loss_pairs_length. destruct (ncrops self) as [|[|n]]; lia. }
  assert (Hpos : Forall (Forall (Forall (fun a => (0 <= a)%R)))
                        (split_rows 2 B sharpened)).
  { apply split_rows_Forall. unfold sharpened. apply List.Forall_forall.
    intros r Hr. apply in_map_iff in Hr as (row & <- & _). apply softmax_nonneg. }
  eexists. split.
  - unfold DINOLoss_forward. fold scaled. rewrite Cs. cbn [res_bind].
    rewrite Hsched. fold sharpened. rewrite Ct. cbn [res_bind]. rewrite Hlt.
    destruct (Nat.eqb_spec (length (loss_pairs 2 (ncrops self))) 0) as [E|_]; [lia|].
    reflexivity.
  - apply Rmult_le_pos.
    + apply Rsum_nonneg, List.Forall_forall. intros x Hx.
      apply in_map_iff in Hx as ([iq v] & <- & _).
      apply pair_loss_nonneg, nth_Forall; [exact Hpos | constructor].
    + left. apply Rinv_0_lt_compat, lt_0_INR. lia.
Qed.

(** The witness of X10: one crop, a batch of one sample, one class. *)
Lemma forward_loss_nonneg_witness :
  ∃ loss,
    DINOLoss_forward (mkDist (fun x => x) 1) (mkDINOLoss 0.1%R 0.9%R 1 [0%R] [1%R])
                     [[0%R]] [[0%R]; [0%R]] 0
    = Ok (loss, update_center (mkDist (fun x => x) 1)
                  (mkDINOLoss 0.1%R 0.9%R 1 [0%R] [1%R]) [[0%R]; [0%R]]) ∧
    (0 <= loss)%R.
Proof.
  exact (forward_loss_nonneg (mkDist (fun x => x) 1)
           (mkDINOLoss 0.1%R 0.9%R 1 [0%R] [1%R]) [[0%R]] [[0%R]; [0%R]] 0 1%R 1
           (le_n 1) (le_n 1) eq_refl eq_refl
           (List.Forall_cons _ _ _ eq_refl (List.Forall_nil _))
           (List.Forall_cons _ _ _ eq_refl (List.Forall_cons _ _ _ eq_refl (List.Forall_nil _)))
           ltac:(cbn; lra) eq_refl Rlt_0_1).
Defined.

(** ** The schedules and the teacher update of [train_one_epoch] *)

Lemma set_schedules_from_ok (lr_schedule wd_schedule : list R) (it : nat) (lr wd : R) :
  lr_schedule !! it = Some lr → wd_schedule !! it = Some wd →
  ∀ (param_groups : list (gmap string R)) (i : nat),
    set_schedules_from i param_groups lr_schedule wd_schedule it
    = (Ok tt,
       imap (fun j g => if (i + j =? 0)%nat
                        then <["weight_decay"%string := wd]> (<["lr"%string := lr]> g)
                        else <["lr"%string := lr]> g) param_groups).
Proof.
  intros Hlr Hwd. induction param_groups as [|g rest IH]; intros i; [done|].
  cbn [set_schedules_from]. rewrite Hlr, Hwd, (IH (S i)).
  rewrite imap_cons, Nat.add_0_r.
  assert (E : imap (fun j g0 => if (S i + j =? 0)%nat
                        then <["weight_decay"%string := wd]> (<["lr"%string := lr]> g0)
                        else <["lr"%string := lr]> g0) rest
            = imap ((fun j g0 => if (i + j =? 0)%nat
                        then <["weight_decay"%string := wd]> (<["lr"%string := lr]> g0)
                        else <["lr"%string := lr]> g0) ∘ S) rest).
  { apply imap_ext. intros j x _. cbn [compose].
    now replace (i + S j)%nat with (S i + j)%nat by lia. }
  rewrite E. now destruct (i =? 0)%nat.
Qed.

(** X11: with both schedules holding an entry for the iteration, the loop
    over the parameter groups does not raise; afterwards every group has
    the learning rate of the iteration under "lr", the group 0 and no other
    has the weight decay of the iteration under "weight_decay", and every
    other option of every group is as it was. *)
Theorem set_schedules_writes (param_groups : list (gmap string R))
    (lr_schedule wd_schedule : list R) (it : nat) (lr wd : R) :
  lr_schedule !! it = Some lr → wd_schedule !! it = Some wd →
  ∃ groups',
    set_schedules param_groups lr_schedule wd_schedule it = (Ok tt, groups') ∧
    length groups' = length param_groups ∧
    ∀ i g, param_groups !! i = Some g →
      ∃ g', groups' !! i = Some g' ∧
            g' !! "lr"%string = Some lr ∧
            g' !! "weight_decay"%string
            = (if decide (i = 0%nat) then Some wd else g !! "weight_decay"%string) ∧
            ∀ key, key ≠ "lr"%string → key ≠ "weight_decay"%string →
                   g' !! key = g !! key.
Proof.
  intros Hlr Hwd. eexists. split; [|split].
  - unfold set_schedules. apply (set_schedules_from_ok _ _ _ _ _ Hlr Hwd).
  - apply length_imap.
  - intros i g Hg. rewrite list_lookup_imap, Hg. cbn [fmap option_fmap option_map plus].
    destruct i as [|i]; cbn [Nat.eqb]; eexists; (split; [reflexivity|]).
    + rewrite decide_True by done. split; [|split].
      * rewrite lookup_insert_ne by done. apply lookup_insert_eq.
      * apply lookup_insert_eq.
      * intros key H1 H2. now rewrite !lookup_insert_ne by done.
    + rewrite decide_False by done. split; [|split].
      * apply lookup_insert_eq.
      * now rewrite lookup_insert_ne by done.
      * intros key H1 H2. now rewrite lookup_insert_ne by done.
Qed.

(** The witness of X11: two groups, the second with a weight decay of 0. *)
Lemma set_schedules_writes_witness :
  ∃ groups',
    set_schedules [∅; {[ "weight_decay"%string := 0%R ]}] [1%R] [2%R] 0
    = (Ok tt, groups') ∧
    length groups' = 2%nat.
Proof.
  destruct (set_schedules_writes [∅; {[ "weight_decay"%string := 0%R ]}] [1%R] [2%R] 0
              1%R 2%R eq_refl eq_refl) as (groups' & E & Hl & _).
  exists groups'. split; [exact E | exact Hl].
Defined.

Lemma global_iteration_bound (len_data_loader epochs epoch it : nat) :
  (epoch < epochs)%nat → (it < len_data_loader)%nat →
  (global_iteration len_data_loader epoch it < epochs * len_data_loader)%nat.
Proof. unfold global_iteration. nia. Qed.

(** X12: with schedules of one entry for each iteration of each epoch, as
    many as epochs * len(data_loader), no iteration of [train_one_epoch]
    reads a schedule out of its range: at the iteration [it] of the epoch
    [epoch] the loop over the parameter groups and the teacher update both
    succeed.  Two iterations never read the same entry. *)
Theorem schedules_read_in_range (len_data_loader epochs epoch it : nat)
    (param_groups : list (gmap string R))
    (lr_schedule wd_schedule momentum_schedule : list R)
    (student teacher : list (list R)) :
  (epoch < epochs)%nat → (it < len_data_loader)%nat →
  length lr_schedule = (epochs * len_data_loader)%nat →
  length wd_schedule = (epochs * len_data_loader)%nat →
  length momentum_schedule = (epochs * len_data_loader)%nat →
  (∃ groups',
     set_schedules param_groups lr_schedule wd_schedule
                   (global_iteration len_data_loader epoch it) = (Ok tt, groups')) ∧
  (∃ teacher',
     ema_update momentum_schedule (global_iteration len_data_loader epoch it)
                student teacher = (Ok tt, teacher')) ∧
  (∀ epoch' it', (it' < len_data_loader)%nat →
     global_iteration len_data_loader epoch' it'
     = global_iteration len_data_loader epoch it →
     epoch' = epoch ∧ it' = it).
Proof.
  intros He Hi Llr Lwd Lm.
  pose proof (global_iteration_bound _ _ _ _ He Hi) as Hb.
  destruct (lookup_lt_is_Some_2 lr_schedule _ ltac:(rewrite Llr; exact Hb)) as [lr Hlr].
  destruct (lookup_lt_is_Some_2 wd_schedule _ ltac:(rewrite Lwd; exact Hb)) as [wd Hwd].
  destruct (lookup_lt_is_Some_2 momentum_schedule _ ltac:(rewrite Lm; exact Hb))
    as [m Hm].
  split; [|split].
  - eexists. unfold set_schedules. apply (set_schedules_from_ok _ _ _ _ _ Hlr Hwd).
  - unfold ema_update. rewrite Hm. eauto.
  - unfold global_iteration. intros epoch' it' Hi' E.
    assert (epoch' = epoch) by nia. subst. split; [done | lia].
Qed.

(** The witness of X12: two epochs of three iterations. *)
Lemma schedules_read_in_range_witness :
  ∃ teacher',
    ema_update (replicate 6 0.5%R) (global_iteration 3 1 2) [[1%R]] [[0%R]]
    = (Ok tt, teacher').
Proof.
  exact (proj1 (proj2 (schedules_read_in_range 3 2 1 2 [∅] (replicate 6 1%R)
           (replicate 6 1%R) (replicate 6 0.5%R) [[1%R]] [[0%R]]
           (le_n 2) (le_n 3) eq_refl eq_refl eq_refl))).
Defined.










(** ** The checkpoints of [train_dino] *)

Lemma string_app_cons (a : ascii) (s t : string) :
  String a s +:+ t = String a (s +:+ t).
Proof. reflexivity. Qed.

Lemma string_app_nil (t : string) : "" +:+ t = t.
Proof. reflexivity. Qed.

Lemma string_app_length (s t : string) :
  String.length (s +:+ t) = (String.length s + String.length t)%nat.
Proof.
  induction s as [|a s IH]; [done|].
  rewrite string_app_cons. cbn [String.length plus]. now rewrite IH.
Qed.

Lemma string_app_inj_r (t : string) : ∀ s1 s2, s1 +:+ t = s2 +:+ t → s1 = s2.
Proof.
  induction s1 as [|a s1 IH]; intros [|b s2] E;
    rewrite ?string_app_cons, ?string_app_nil in E.
  - done.
  - apply (f_equal String.length) in E. cbn [String.length] in E.
    rewrite string_app_length in E. lia.
  - apply (f_equal String.length) in E. cbn [String.length] in E.
    rewrite string_app_length in E. lia.
  - injection E as -> E. f_equal. now apply IH.
Qed.

Lemma uint_of_zeros (k : nat) (s : string) (d : Decimal.uint) :
  DecimalString.NilEmpty.uint_of_string s = Some d →
  option_map Nat.of_uint (DecimalString.NilEmpty.uint_of_string (zeros k +:+ s))
  = Some (Nat.of_uint d).
Proof.
  intros Hs. induction k as [|k IH]; cbn [zeros];
    rewrite ?string_app_cons, ?string_app_nil; [now rewrite Hs|].
  cbn [DecimalString.NilEmpty.uint_of_string].
  destruct (DecimalString.NilEmpty.uint_of_string (zeros k +:+ s)) as [d'|];
    [|discriminate IH].
  cbn in IH. injection IH as IH. cbn. f_equal.
  rewrite <- IH. unfold Nat.of_uint. reflexivity.
Qed.

(** The digits give the epoch back. *)
Lemma format_04_read (epoch : nat) :
  option_map Nat.of_uint (DecimalString.NilEmpty.uint_of_string (format_04 epoch))
  = Some epoch.
Proof.
  unfold format_04. cbv zeta.
  rewrite (uint_of_zeros _ _ _ (DecimalString.NilEmpty.usu (Nat.to_uint epoch))).
  now rewrite DecimalNat.Unsigned.of_to.
Qed.

Lemma format_04_length (epoch : nat) : (4 ≤ String.length (format_04 epoch))%nat.
Proof.
  unfold format_04. cbv zeta. rewrite string_app_length.
  assert (∀ k, String.length (zeros k) = k) as ->
    by (induction k; cbn; congruence).
  lia.
Qed.

(** X15: the numbered checkpoints never collide.  The file
    checkpoint<epoch:04>.pth is never the running checkpoint.pth, two
    epochs never have the same file, and the file of the epoch e1 is among
    the files written at the end of the epoch e2 exactly when e1 = e2,
    [saveckp_freq] is not 0 and divides the epoch. *)
Theorem checkpoint_files_distinct (saveckp_freq : Z) (epoch1 epoch2 : nat) :
  let name epoch := "checkpoint" +:+ format_04 epoch +:+ ".pth" in
  name epoch1 ≠ "checkpoint.pth"%string ∧
  (name epoch1 = name epoch2 ↔ epoch1 = epoch2) ∧
  (name epoch1 ∈ checkpoint_files saveckp_freq epoch2
   ↔ epoch1 = epoch2 ∧ saveckp_freq ≠ 0 ∧ (saveckp_freq | Z.of_nat epoch2)) ∧
  "checkpoint.pth"%string ∈ checkpoint_files saveckp_freq epoch2.
Proof.
  intros name.
  assert (Hne : ∀ e, name e ≠ "checkpoint.pth"%string).
  { intros e E. apply (f_equal String.length) in E. unfold name in E.
    rewrite !string_app_length in E. cbn [String.length] in E.
    pose proof (format_04_length e). lia. }
  assert (Hinj : ∀ e1 e2, name e1 = name e2 → e1 = e2).
  { intros e1 e2 E. unfold name in E.
    rewrite !string_app_cons, !string_app_nil in E. injection E as E.
    apply string_app_inj_r in E.
    pose proof (format_04_read e1) as R1. rewrite E, format_04_read in R1.
    now injection R1. }
  split; [apply Hne|]. split; [split; [apply Hinj | now intros ->]|].
  split; [|unfold checkpoint_files; apply elem_of_cons; now left].
  unfold checkpoint_files. rewrite elem_of_cons. split.
  - intros [E|Hin]; [now apply Hne in E|].
    destruct (Z.eqb_spec saveckp_freq 0) as [|Hf]; cbn [negb andb] in Hin;
      [now apply elem_of_nil in Hin|].
    destruct (Z.eqb_spec (Z.of_nat epoch2 mod saveckp_freq) 0) as [Hm|];
      [|now apply elem_of_nil in Hin].
    apply list_elem_of_singleton in Hin. apply Hinj in Hin.
    split; [exact Hin|]. split; [exact Hf|]. now apply Z.mod_divide.
  - intros (-> & Hf & Hd). right.
    apply Z.mod_divide in Hd; [|exact Hf].
    destruct (Z.eqb_spec saveckp_freq 0) as [|_]; [done|].
    rewrite Hd. cbn. apply list_elem_of_singleton. reflexivity.
Qed.
